(** * Verification of the map-maker core: adjacency graph, balance
      calculator, sweep-line validator, label engine and conversion
      handler.

    The development follows the C++ sources:
    - [model/graph/undirected_graph.hpp]   (module [Graph])
    - [mapmaker/calculator.hpp]            (modules [Calculator] and
                                            [GraphBase])
    - [functions/detail/polylabel.hpp]     (modules [Sweep], [SweepQueue],
                                            [Label], [LabelQueue] and
                                            [Label64])
    - [io/handler/convert_handler.hpp]     (module [Convert])

    Integers of the program are modelled by [Z].  [double] values are
    modelled by exact rationals [Q] where rounding does not change what a
    statement says, and by binary64 floats in [Label64], where rounding
    decides.  Undefined behaviour and thrown exceptions are modelled by
    [None].  A [std::priority_queue] does not fix the order of elements of
    equal priority: [SweepQueue] and [LabelQueue] take the queue as a
    parameter, [Sweep] and [Label] write out one such queue. *)

From Stdlib Require Import ZArith QArith Qround Qminmax List Bool Lia Lqa.
From Stdlib Require Import Sorted Permutation Arith.
From Stdlib Require PrimFloat.
Import ListNotations.

Open Scope Z_scope.

(* ------------------------------------------------------------------ *)
(** * The undirected graph *)
(* ------------------------------------------------------------------ *)

Module Graph.

(** [vertex_type] is an integer type of the program; [edge_type] is a
    [std::pair] of two vertices. *)
Abbreviation vertex_type := Z (only parsing).
Abbreviation edge_type := (Z * Z)%type (only parsing).

(** [operator<] of [std::pair]: lexicographic, first component first. *)
Definition edge_lt (a b : edge_type) : bool :=
  (fst a <? fst b) || (negb (fst b <? fst a) && (snd a <? snd b)).

(** ** [std::set<edge_type>] as a strictly increasing list *)

(** [std::set::insert]: the element is placed at its position in the
    order; an equivalent element already present is kept. *)
Fixpoint set_insert (e : edge_type) (s : list edge_type) : list edge_type :=
  match s with
  | [] => [e]
  | x :: s' =>
      if edge_lt e x then e :: s
      else if edge_lt x e then x :: set_insert e s'
      else s
  end.

(** Iterators are positions in the list; [end()] is the length.
    [std::set::lower_bound]: the first element not less than the key. *)
Fixpoint set_lower_bound (k : edge_type) (s : list edge_type) : nat :=
  match s with
  | [] => O
  | x :: s' => if edge_lt x k then S (set_lower_bound k s') else O
  end.

(** [std::set::upper_bound]: the first element greater than the key. *)
Fixpoint set_upper_bound (k : edge_type) (s : list edge_type) : nat :=
  match s with
  | [] => O
  | x :: s' => if edge_lt k x then O else S (set_upper_bound k s')
  end.

(** [std::set::find]: the position of the element equivalent to the key,
    [end()] when there is none. *)
Definition set_find (k : edge_type) (s : list edge_type) : nat :=
  let i := set_lower_bound k s in
  match nth_error s i with
  | Some x => if edge_lt k x then length s else i
  | None => length s
  end.

(** [std::distance(first, last)] on the iterators of a set: the number of
    increments from [first] to [last]; undefined when [last] is not
    reachable from [first]. *)
Definition std_distance (first last : nat) : option nat :=
  if (first <=? last)%nat then Some (last - first)%nat else None.

(** ** The class [UndirectedGraph] *)

Record UndirectedGraph := mkGraph {
  m_vertices : Z;
  m_edges : list edge_type
}.

Definition empty_graph : UndirectedGraph :=
  {| m_vertices := 0; m_edges := [] |}.

Definition reverse (edge : edge_type) : edge_type := (snd edge, fst edge).

Definition edge_count (g : UndirectedGraph) : nat :=
  (length (m_edges g) / 2)%nat.

Definition size (g : UndirectedGraph) : Z * nat :=
  (m_vertices g, (length (m_edges g) / 2)%nat).

Definition contains_edge (g : UndirectedGraph) (edge : edge_type) : bool :=
  negb (set_find edge (m_edges g) =? length (m_edges g))%nat.

Section Limits.

(** [std::numeric_limits<vertex_type>::lowest()] and [::max()];
    [vertex_type] is declared in [model/graph/vertex.hpp], its two limits
    are parameters here. *)
Variables vertex_lowest vertex_max : Z.

Definition vertex_in_range (v : vertex_type) : Prop :=
  vertex_lowest <= v <= vertex_max.

Definition edge_in_range (e : edge_type) : Prop :=
  vertex_in_range (fst e) /\ vertex_in_range (snd e).

(** [v + 1] in [vertex_type]: an unsigned type wraps around at its
    maximum. *)
Definition vertex_succ (v : vertex_type) : Z :=
  if v =? vertex_max then vertex_lowest else v + 1.

Definition insert_edge (g : UndirectedGraph) (edge : edge_type)
  : UndirectedGraph :=
  let edges1 := set_insert edge (m_edges g) in
  let edges2 := set_insert (reverse edge) edges1 in
  let v1 := Z.max (m_vertices g) (vertex_succ (fst edge)) in
  let v2 := Z.max v1 (vertex_succ (snd edge)) in
  {| m_vertices := v2; m_edges := edges2 |}.

Definition lower_edge_bound (g : UndirectedGraph) (vertex : vertex_type) : nat :=
  set_lower_bound (vertex, vertex_lowest) (m_edges g).

Definition upper_edge_bound (g : UndirectedGraph) (vertex : vertex_type) : nat :=
  set_upper_bound (vertex, vertex_max) (m_edges g).

(** [degree]: [None] stands for undefined behaviour. *)
Definition degree (g : UndirectedGraph) (vertex : vertex_type) : option nat :=
  let it_l := lower_edge_bound g vertex in
  let it_u := upper_edge_bound g vertex in
  if (it_l =? length (m_edges g))%nat then Some O
  else std_distance it_l it_u.

(** The loop of [adjacents]: [while (it_l != it_u) { push_back; it_l++ }].
    Dereferencing [end()] is undefined. *)
Fixpoint adjacents_loop (fuel : nat) (edges : list edge_type)
  (it_l it_u : nat) (vertices : list vertex_type)
  : option (list vertex_type) :=
  match fuel with
  | O => None
  | S fuel' =>
      if (it_l =? it_u)%nat then Some vertices
      else match nth_error edges it_l with
           | None => None
           | Some e =>
               adjacents_loop fuel' edges (S it_l) it_u (vertices ++ [snd e])
           end
  end.

(** At most [length edges] increments are possible before [end()]. *)
Definition adjacents (g : UndirectedGraph) (vertex : vertex_type)
  : option (list vertex_type) :=
  adjacents_loop (S (length (m_edges g))) (m_edges g)
    (lower_edge_bound g vertex) (upper_edge_bound g vertex) [].

(** A sequence of [insert_edge] calls on the empty graph. *)
Definition insert_edges (es : list edge_type) : UndirectedGraph :=
  fold_left insert_edge es empty_graph.

End Limits.

(** The number of distinct unordered pairs among the inserted edges. *)
Definition unordered (e : edge_type) : edge_type :=
  (Z.min (fst e) (snd e), Z.max (fst e) (snd e)).

Definition edge_eq_dec : forall a b : edge_type, {a = b} + {a <> b}.
Proof. decide equality; apply Z.eq_dec. Defined.

Definition distinct_pairs (es : list edge_type) : list edge_type :=
  nodup edge_eq_dec (map unordered es).

(** ** Notions used in the statements *)

(** The order of the set as a relation. *)
Definition elt (a b : edge_type) : Prop := edge_lt a b = true.

(** The stored edges that leave the vertex [v]. *)
Definition sources (v : vertex_type) (s : list edge_type) : list edge_type :=
  filter (fun e => fst e =? v) s.

(** The entries that [insert_edge] stores for an unordered pair. *)
Definition expand (p : edge_type) : list edge_type :=
  if fst p =? snd p then [p] else [p; reverse p].

Definition is_loop (p : edge_type) : bool := fst p =? snd p.

End Graph.

(* ------------------------------------------------------------------ *)
(** * The balance calculator *)
(* ------------------------------------------------------------------ *)

Module Calculator.
Import Graph.

(** [std::set<object_id_type>] as a strictly increasing list. *)
Fixpoint id_insert (x : Z) (s : list Z) : list Z :=
  match s with
  | [] => [x]
  | y :: s' =>
      if x <? y then x :: s
      else if y <? x then y :: id_insert x s'
      else s
  end.

(** [std::set_difference] on two sorted ranges. *)
Fixpoint set_difference (l1 l2 : list Z) : list Z :=
  match l1 with
  | [] => []
  | x :: l1' =>
      (fix scan (l2 : list Z) : list Z :=
         match l2 with
         | [] => l1
         | y :: l2' =>
             if x <? y then x :: set_difference l1' l2
             else if y <? x then scan l2'
             else set_difference l1' l2'
         end) l2
  end.

(** A bonus: the territory ids of its children and its army value. *)
Record Bonus := mkBonus {
  children : list Z;
  armies : Z
}.

Definition TERRITORY_WEIGHT : Q := (1 # 2)%Q.
Definition OUTER_WEIGHT : Q := (1 # 2)%Q.

(** [get_score(territories, connections)], with [total] for
    [m_territories.size()].  The quotient [territories / total] is a
    quotient of two [size_t] values, hence an integer division, undefined
    for [total = 0]; the second quotient is a [double] division.  With
    [territories = 0] this quotient is infinite when there are connections,
    and [std::min] returns [1.0]; without connections it is not a number,
    and neither is the score ([None]). *)
Definition get_score (total territories connections : Z) : option Q :=
  if total =? 0 then None
  else if territories =? 0 then
    if 0 <? connections then
      Some (TERRITORY_WEIGHT * inject_Z (territories / total)%Z
            + OUTER_WEIGHT * 1)%Q
    else None
  else Some (TERRITORY_WEIGHT * inject_Z (territories / total)%Z
             + OUTER_WEIGHT
               * Qmin ((1 # 2) * inject_Z connections / inject_Z territories) 1)%Q.

(** The conversion of a [double] to [int] discards the fractional part; it
    is undefined when the result does not fit. *)
Definition INT_MIN : Z := - 2 ^ 31.
Definition INT_MAX : Z := 2 ^ 31 - 1.

Definition double_to_int (x : Q) : option Z :=
  let t := Z.quot (Qnum x) (Z.pos (Qden x)) in
  if (INT_MIN <=? t) && (t <=? INT_MAX) then Some t else None.

(** [std::round<int>(x)]: the explicit template argument names the overload
    [template <class Integer> double round(Integer)] with [Integer = int],
    whose parameter has type [int]; the [double] argument is converted to
    [int] before the call, and rounding an integral value leaves it
    unchanged. *)
Definition std_round_int (x : Q) : option Z := double_to_int x.

Section Armies.

Variables vertex_lowest vertex_max : Z.
Variable m_neighbors : UndirectedGraph.
(** [m_territories.size()] *)
Variable territory_count : Z.

(** The loop over the children of one bonus: the set of children and the
    set of all their neighbours. *)
Fixpoint collect (refs : list Z) (children adjacents : list Z)
  : option (list Z * list Z) :=
  match refs with
  | [] => Some (children, adjacents)
  | child :: refs' =>
      match Graph.adjacents vertex_lowest vertex_max m_neighbors child with
      | None => None
      | Some neighbors =>
          collect refs' (id_insert child children)
            (fold_left (fun acc neighbor => id_insert neighbor acc)
               neighbors adjacents)
      end
  end.

Definition outer_adjacents (bonus : Bonus) : option (list Z * list Z) :=
  match collect (children bonus) [] [] with
  | None => None
  | Some (children, adjacents) =>
      Some (children, set_difference adjacents children)
  end.

Definition bonus_score (bonus : Bonus) : option Q :=
  match outer_adjacents bonus with
  | None => None
  | Some (children, outer) =>
      get_score territory_count (Z.of_nat (length children))
        (Z.of_nat (length outer))
  end.

(** The body of the loop of [calculate_armies] for one bonus. *)
Definition assign_armies (min_armies max_armies : Z) (bonus : Bonus)
  : option Bonus :=
  match bonus_score bonus with
  | None => None
  | Some score =>
      match std_round_int (score * inject_Z max_armies)%Q with
      | None => None
      | Some r =>
          Some {| children := children bonus;
                  armies := Z.max r min_armies |}
      end
  end.

Fixpoint calculate_armies (min_armies max_armies : Z) (bonuses : list Bonus)
  : option (list Bonus) :=
  match bonuses with
  | [] => Some []
  | bonus :: rest =>
      match assign_armies min_armies max_armies bonus with
      | None => None
      | Some bonus' =>
          match calculate_armies min_armies max_armies rest with
          | None => None
          | Some rest' => Some (bonus' :: rest')
          end
      end
  end.

End Armies.

(** ** The score and the army value as the specification words them *)

(** The score as an expression over the rationals. *)
Definition spec_score (total territories connections : Z) : Q :=
  ((1 # 2) * (inject_Z territories / inject_Z total)
   + (1 # 2) * Qmin ((1 # 2) * inject_Z connections / inject_Z territories) 1)%Q.

(** Rounding to the nearest integer, halves away from zero. *)
Definition round_half_away (x : Q) : Z :=
  if Qle_bool 0 x then Qfloor (x + (1 # 2))%Q else Qceiling (x - (1 # 2))%Q.

Definition spec_armies (min_armies max_armies : Z) (score : Q) : Z :=
  Z.max (round_half_away (score * inject_Z max_armies)%Q) min_armies.

(** ** The inputs of the examples *)

Definition example_graph : UndirectedGraph :=
  insert_edges 0 18446744073709551615
    [(0, 1); (1, 2); (2, 3); (3, 4); (4, 0); (0, 2)].

Definition group_A : Bonus := {| children := [0; 1]; armies := 0 |}.

Definition group_all : Bonus := {| children := [0; 1]; armies := 0 |}.

End Calculator.

(* ------------------------------------------------------------------ *)
(** * The sweep-line validator *)
(* ------------------------------------------------------------------ *)

Module Sweep.

(** The coordinate type [T] is instantiated with an integer type, and
    sums and products are taken without overflow.  The [double] and [float]
    conversions of [distance] and [intersect] keep the sign of an integer
    and the sign of a product of two integers, which is all that
    [intersect] looks at. *)

(** Modelled from the spec: [Point] ([model/geometry/point.hpp]), a pair of
    coordinates with equality and the order by x, then by y. *)
Record Point := mkPoint { x : Z; y : Z }.

(** Modelled from the spec: [operator==] of [Point], equality of both
    coordinates. *)
Definition point_eq (p q : Point) : bool := (x p =? x q) && (y p =? y q).

(** Modelled from the spec: [compare_lt] and [compare_gt]
    ([functions/detail/compare.hpp]), the strict order of points,
    lexicographic by x, then by y. *)
Definition compare_lt (p q : Point) : bool :=
  (x p <? x q) || ((x p =? x q) && (y p <? y q)).

Definition compare_gt (p q : Point) : bool := compare_lt q p.

(** Modelled from the spec: [Segment] ([model/geometry/segment.hpp]), an
    ordered pair of points. *)
Record Segment := mkSegment { first : Point; last : Point }.

(** [distance(p, s1, s2)] *)
Definition distance (p s1 s2 : Point) : Z :=
  (x s1 - x p) * (y s2 - y p) - (x s2 - x p) * (x s1 - y p).

(** ** Events *)

Inductive Type_ : Set := LEFT | RIGHT.

Record Event := mkEvent { e_edge : nat; point : Point; type : Type_ }.

(** [EventComparator] *)
Definition event_compare (e1 e2 : Event) : bool :=
  compare_gt (point e1) (point e2).

(** [std::priority_queue<Event, ..., EventComparator>] as the list of its
    elements.  [top] is an element that the comparator puts before no
    other element: here the first such element of the list. *)
Fixpoint eq_top (q : list Event) : option Event :=
  match q with
  | [] => None
  | e :: q' =>
      match eq_top q' with
      | None => Some e
      | Some m => if event_compare e m then Some m else Some e
      end
  end.

Definition event_same (e1 e2 : Event) : bool :=
  (e_edge e1 =? e_edge e2)%nat && point_eq (point e1) (point e2)
  && match type e1, type e2 with
     | LEFT, LEFT | RIGHT, RIGHT => true
     | _, _ => false
     end.

(** [pop] removes the element that [top] returns. *)
Fixpoint eq_remove (m : Event) (q : list Event) : list Event :=
  match q with
  | [] => []
  | e :: q' => if event_same e m then q' else e :: eq_remove m q'
  end.

Definition eq_pop (q : list Event) : list Event :=
  match eq_top q with
  | None => q
  | Some m => eq_remove m q
  end.

(** The constructor of [EventQueue]: two events per segment. *)
Fixpoint events_from (i : nat) (segments : list Segment) : list Event :=
  match segments with
  | [] => []
  | segment :: rest =>
      let p1 := first segment in
      let p2 := last segment in
      let '(t1, t2) :=
        if compare_lt p1 p2 then (LEFT, RIGHT) else (RIGHT, LEFT) in
      {| e_edge := i; point := p1; type := t1 |}
      :: {| e_edge := i; point := p2; type := t2 |}
      :: events_from (S i) rest
  end.

Definition EventQueue (segments : list Segment) : list Event :=
  events_from O segments.

(** ** The sweep line *)

Record SLSegment := mkSL { edge : nat; left : Point; right : Point }.

Definition shares_endpoint (s1 s2 : SLSegment) : bool :=
  point_eq (left s1) (left s2) || point_eq (right s1) (right s2)
  || point_eq (left s1) (right s2) || point_eq (right s1) (left s2).

(** [intersect], with the helper that computes the signed distances as a
    parameter; the program uses [distance]. *)
Definition intersect_with (dist : Point -> Point -> Point -> Z)
  (s1 s2 : SLSegment) : bool :=
  if shares_endpoint s1 s2 then false
  else
    let l_sign := dist (left s1) (right s1) (left s2) in
    let r_sign := dist (left s1) (right s1) (right s2) in
    if l_sign * r_sign >? 0 then false
    else
      let l_sign := dist (left s2) (right s2) (left s1) in
      let r_sign := dist (left s2) (right s2) (right s1) in
      if l_sign * r_sign >? 0 then false
      else true.

Definition intersect (s1 s2 : SLSegment) : bool :=
  intersect_with distance s1 s2.

(** [SLSegmentComparator] *)
Definition sl_compare (s1 s2 : SLSegment) : bool :=
  if compare_lt (left s1) (left s2) then true
  else if compare_gt (left s1) (left s2) then false
  else if compare_lt (right s1) (right s2) then true
  else false.

(** [std::set<SLSegment, SLSegmentComparator>] as an ordered list;
    iterators are positions, [cend()] is the length. [insert] returns the
    position of the new element, or of the equivalent element that is
    already there. *)
Fixpoint tree_insert (s : SLSegment) (t : list SLSegment)
  : list SLSegment * nat :=
  match t with
  | [] => ([s], O)
  | a :: t' =>
      if sl_compare s a then (s :: t, O)
      else if sl_compare a s then
        let '(t'', i) := tree_insert s t' in (a :: t'', S i)
      else (t, O)
  end.

Fixpoint tree_find (s : SLSegment) (t : list SLSegment) : nat :=
  match t with
  | [] => O
  | a :: t' =>
      if sl_compare s a then length t
      else if sl_compare a s then S (tree_find s t')
      else O
  end.

Fixpoint tree_erase (s : SLSegment) (t : list SLSegment) : list SLSegment :=
  match t with
  | [] => []
  | a :: t' =>
      if sl_compare s a then t
      else if sl_compare a s then a :: tree_erase s t'
      else t'
  end.

(** [std::map<std::size_t, Segment>] as an association list. *)
Fixpoint map_at (index : nat) (m : list (nat * Segment)) : option Segment :=
  match m with
  | [] => None
  | (k, v) :: m' => if (k =? index)%nat then Some v else map_at index m'
  end.

Fixpoint map_erase (index : nat) (m : list (nat * Segment))
  : list (nat * Segment) :=
  match m with
  | [] => []
  | (k, v) :: m' =>
      if (k =? index)%nat then map_erase index m'
      else (k, v) :: map_erase index m'
  end.

Definition map_set (index : nat) (v : Segment) (m : list (nat * Segment))
  : list (nat * Segment) :=
  (index, v) :: map_erase index m.

Record SweepLine := mkSweepLine {
  m_segments : list (nat * Segment);
  m_tree : list SLSegment
}.

Definition empty_sweep_line : SweepLine :=
  {| m_segments := []; m_tree := [] |}.

Definition convert (index : nat) (segment : Segment) : SLSegment :=
  if compare_lt (first segment) (last segment)
  then {| edge := index; left := first segment; right := last segment |}
  else {| edge := index; left := last segment; right := first segment |}.

(** [get]: [m_segments.at(index)] throws for an unknown index. *)
Definition sl_get (sl : SweepLine) (index : nat) : option SLSegment :=
  match map_at index (m_segments sl) with
  | None => None
  | Some s => Some (convert index s)
  end.

Definition sl_insert (sl : SweepLine) (index : nat) (segment : Segment)
  : SweepLine * nat :=
  let s := convert index segment in
  let '(tree, it) := tree_insert s (m_tree sl) in
  ({| m_segments := map_set index segment (m_segments sl); m_tree := tree |},
   it).

Definition sl_find (sl : SweepLine) (index : nat) : option nat :=
  match sl_get sl index with
  | None => None
  | Some s => Some (tree_find s (m_tree sl))
  end.

Definition sl_erase (sl : SweepLine) (index : nat) : option SweepLine :=
  match sl_get sl index with
  | None => None
  | Some s =>
      Some {| m_segments := map_erase index (m_segments sl);
              m_tree := tree_erase s (m_tree sl) |}
  end.

(** ** [shamos_hoey] *)

(** The test of two elements of the tree given by their positions;
    dereferencing [cend()] is undefined. *)
Definition intersect_at (tree : list SLSegment) (i j : nat) : option bool :=
  match nth_error tree i, nth_error tree j with
  | Some a, Some b => Some (intersect a b)
  | _, _ => None
  end.

(** The body of the loop for a LEFT event; [inl b] returns [b] from the
    function, [inr sl] continues with the next event. *)
Definition left_event (segments : list Segment) (sl : SweepLine) (e : Event)
  : option (bool + SweepLine) :=
  match nth_error segments (e_edge e) with
  | None => None
  | Some segment =>
      let '(sl', it_s) := sl_insert sl (e_edge e) segment in
      let tree := m_tree sl' in
      match (if (it_s =? O)%nat then Some false
             else intersect_at tree it_s (it_s - 1)) with
      | None => None
      | Some true => Some (inl true)
      | Some false =>
          match (if (S it_s =? length tree)%nat then Some false
                 else intersect_at tree it_s (S it_s)) with
          | None => None
          | Some true => Some (inl true)
          | Some false => Some (inr sl')
          end
      end
  end.

(** The body of the loop for a RIGHT event.  [std::next(it_s)] is
    undefined for [it_s = cend()]. *)
Definition right_event (sl : SweepLine) (e : Event)
  : option (bool + SweepLine) :=
  match sl_find sl (e_edge e) with
  | None => None
  | Some it_s =>
      let tree := m_tree sl in
      match (if (it_s =? O)%nat then Some false
             else if (it_s =? length tree)%nat then None
             else if (S it_s =? length tree)%nat then Some false
             else intersect_at tree (it_s - 1) (S it_s)) with
      | None => None
      | Some true => Some (inl true)
      | Some false =>
          match sl_erase sl (e_edge e) with
          | None => None
          | Some sl' => Some (inr sl')
          end
      end
  end.

(** The loop [while (!eq.empty())]; every iteration pops one event, so
    [length eq] iterations empty the queue. *)
Fixpoint sweep (fuel : nat) (segments : list Segment) (eq : list Event)
  (sl : SweepLine) : option bool :=
  match eq_top eq with
  | None => Some false
  | Some e =>
      match fuel with
      | O => None
      | S fuel' =>
          let eq' := eq_pop eq in
          match (match type e with
                 | LEFT => left_event segments sl e
                 | RIGHT => right_event sl e
                 end) with
          | None => None
          | Some (inl b) => Some b
          | Some (inr sl') => sweep fuel' segments eq' sl'
          end
      end
  end.

Definition shamos_hoey (segments : list Segment) : option bool :=
  let eq := EventQueue segments in
  sweep (length eq) segments eq empty_sweep_line.

(** ** The crossing test as the specification words it *)

(** The signed cross product of [a - p] and [b - p]. *)
Definition cross (p a b : Point) : Z :=
  (x a - x p) * (y b - y p) - (x b - x p) * (y a - y p).

(** The side of the point [p] relative to the segment [s]: positive on the
    left, negative on the right, zero on the line. *)
Definition side (p : Point) (s : SLSegment) : Z := cross p (left s) (right s).

(** The endpoints of [t] lie on opposite or touching sides of the line of
    [s]. *)
Definition straddles (s t : SLSegment) : bool :=
  side (left t) s * side (right t) s <=? 0.

Definition spec_intersect (s1 s2 : SLSegment) : bool :=
  straddles s1 s2 && straddles s2 s1.

Definition normalized (s : SLSegment) : bool :=
  negb (compare_gt (left s) (right s)).

(** ** Notions used in the statements *)




Definition pt (a b : Z) : Point := {| x := a; y := b |}.
Definition sls (i : nat) (a b c d : Z) : SLSegment :=
  {| edge := i; left := pt a b; right := pt c d |}.
Definition seg (a b c d : Z) : Segment := {| first := pt a b; last := pt c d |}.


End Sweep.

(* ------------------------------------------------------------------ *)
(** * The label engine *)
(* ------------------------------------------------------------------ *)

Module Label.

Open Scope Q_scope.

(** The coordinate type [T] is instantiated with [double]; [double]
    arithmetic is modelled by exact rational arithmetic.  The covering
    loops, where the rounding of a sum decides whether they end, are
    modelled in binary64 arithmetic in [Label64]. *)

Definition Qltb (a b : Q) : bool := negb (Qle_bool b a).

(** Modelled from the spec: [Point] ([model/geometry/point.hpp]), a pair of
    coordinates; a default-constructed point is the origin, [/=] divides
    both coordinates by a scalar. *)
Record Point := mkPoint { x : Q; y : Q }.

Definition origin : Point := {| x := 0; y := 0 |}.

Definition point_div (p : Point) (d : Q) : Point :=
  {| x := x p / d; y := y p / d |}.

(** Modelled from the spec: [Rectangle] ([model/geometry/rectangle.hpp]),
    an axis-aligned box given by its minimum and maximum corners; its width
    and height are the differences of the corner coordinates. *)
Record Rectangle := mkRectangle { rect_min : Point; rect_max : Point }.

Definition width (r : Rectangle) : Q := x (rect_max r) - x (rect_min r).
Definition height (r : Rectangle) : Q := y (rect_max r) - y (rect_min r).

(** Modelled from the spec: [Polygon] ([model/geometry/polygon.hpp]), an
    outer ring and inner rings, each a sequence of points. *)
Record Polygon := mkPolygon {
  outer : list Point;
  inners : list (list Point)
}.

Record Cell := mkCell {
  center : Point;
  half : Q;
  distance : Q;
  max : Q
}.

Section Engine.

(** Functions and constants that [polylabel] takes from other headers, as
    parameters: the signed distance of a point to a polygon, the bounding
    rectangle of a polygon, the centre of a rectangle (the first component
    of the pair that [center] returns), and the value of [std::sqrt(2)]. *)
Variable distance_to_polygon : Point -> Polygon -> Q.
Variable envelope : Polygon -> Rectangle.
Variable rect_center : Rectangle -> Point.
Variable SQRT_TWO : Q.

(** The constructor of [Cell]. *)
Definition new_cell (c : Point) (h : Q) (polygon : Polygon) : Cell :=
  let d := distance_to_polygon c polygon in
  {| center := c; half := h; distance := d; max := d + h * SQRT_TWO |}.

(** The loop of [get_centroid]; [p_left] is the point at index [i],
    [p_right] the point at index [j]. *)
Fixpoint centroid_loop (points : list Point) (p_right : Point)
  (c : Point) (area : Q) : Point * Q :=
  match points with
  | [] => (c, area)
  | p_left :: rest =>
      let f := x p_left * y p_right - x p_right * y p_left in
      centroid_loop rest p_left
        {| x := x c + (x p_left + x p_right) * f;
           y := y c + (y p_left + y p_right) * f |}
        (area + f * 3)
  end.

(** [get_centroid]; [outer().at(0)] throws on an empty ring. *)
Definition get_centroid (polygon : Polygon) : option Cell :=
  match outer polygon with
  | [] => None
  | p0 :: _ =>
      let '(c, area) :=
        centroid_loop (outer polygon) (List.last (outer polygon) p0) origin 0 in
      if Qltb 0 area then Some (new_cell (point_div c area) 0 polygon)
      else Some (new_cell p0 0 polygon)
  end.

(** [std::priority_queue<Cell, ..., compare>] with
    [compare(a, b) = a.max < b.max], as the list of its elements.  [top] is
    an element that [compare] puts before no other element: here the first
    such element of the list; [pq_extract] returns it together with the
    queue after [pop]. *)
Definition compare (a b : Cell) : bool := Qltb (max a) (max b).

Fixpoint pq_extract (queue : list Cell) : option (Cell * list Cell) :=
  match queue with
  | [] => None
  | c :: queue' =>
      match pq_extract queue' with
      | None => Some (c, [])
      | Some (m, rest) =>
          if compare c m then Some (m, c :: rest) else Some (c, queue')
      end
  end.

Definition pq_push (c : Cell) (queue : list Cell) : list Cell := c :: queue.

(** The inner loop that covers one column of the envelope with cells. *)
Fixpoint tile_y (fuel : nat) (polygon : Polygon) (cell_size half_size : Q)
  (y_max x0 y0 : Q) (queue : list Cell) : option (list Cell) :=
  match fuel with
  | O => None
  | S fuel' =>
      if Qltb y0 y_max then
        tile_y fuel' polygon cell_size half_size y_max x0 (y0 + cell_size)
          (pq_push
             (new_cell {| x := x0 + half_size; y := y0 + half_size |}
                half_size polygon)
             queue)
      else Some queue
  end.

(** The outer loop over the columns. *)
Fixpoint tile_x (fuel fuel_y : nat) (polygon : Polygon)
  (cell_size half_size : Q) (x_max y_min y_max x0 : Q) (queue : list Cell)
  : option (list Cell) :=
  match fuel with
  | O => None
  | S fuel' =>
      if Qltb x0 x_max then
        match tile_y fuel_y polygon cell_size half_size y_max x0 y_min queue with
        | None => None
        | Some queue' =>
            tile_x fuel' fuel_y polygon cell_size half_size x_max y_min y_max
              (x0 + cell_size) queue'
        end
      else Some queue
  end.

(** The four children of a cell. *)
Definition subdivide (polygon : Polygon) (cell : Cell) (queue : list Cell)
  : list Cell :=
  let h := half cell / 2 in
  let cx := x (center cell) in
  let cy := y (center cell) in
  pq_push (new_cell {| x := cx - h; y := cy - h |} h polygon)
    (pq_push (new_cell {| x := cx - h; y := cy + h |} h polygon)
       (pq_push (new_cell {| x := cx + h; y := cy - h |} h polygon)
          (pq_push (new_cell {| x := cx + h; y := cy + h |} h polygon)
             queue))).

(** The loop [while (!queue.empty())]. *)
Fixpoint search (fuel : nat) (polygon : Polygon) (precision : Q)
  (queue : list Cell) (best_cell : Cell) : option Cell :=
  match pq_extract queue with
  | None => Some best_cell
  | Some (cell, queue') =>
      match fuel with
      | O => None
      | S fuel' =>
          let best_cell' :=
            if Qltb (distance best_cell) (distance cell) then cell
            else best_cell in
          if Qle_bool (max cell - distance best_cell') precision then
            search fuel' polygon precision queue' best_cell'
          else
            search fuel' polygon precision (subdivide polygon cell queue')
              best_cell'
      end
  end.

(** The cells that cover the envelope, and the first guess. *)
Definition initial_queue (fuel : nat) (polygon : Polygon) : option (list Cell) :=
  let polygon_envelope := envelope polygon in
  let cell_size := Qmin (width polygon_envelope) (height polygon_envelope) in
  tile_x fuel fuel polygon cell_size (cell_size / 2)
    (x (rect_max polygon_envelope))
    (y (rect_min polygon_envelope)) (y (rect_max polygon_envelope))
    (x (rect_min polygon_envelope)) [].

Definition initial_best (polygon : Polygon) : option Cell :=
  match get_centroid polygon with
  | None => None
  | Some best_cell =>
      let envelope_center_cell :=
        new_cell (rect_center (envelope polygon)) 0 polygon in
      if Qltb (distance best_cell) (distance envelope_center_cell)
      then Some envelope_center_cell
      else Some best_cell
  end.

(** [polylabel]; [None] when the fuel does not suffice or an exception is
    thrown. *)
Definition polylabel (fuel : nat) (polygon : Polygon) (precision : Q)
  : option (Point * Q) :=
  let polygon_envelope := envelope polygon in
  let cell_size := Qmin (width polygon_envelope) (height polygon_envelope) in
  if Qeq_bool cell_size 0 then Some (rect_min polygon_envelope, 0)
  else
    match initial_queue fuel polygon with
    | None => None
    | Some queue =>
        match initial_best polygon with
        | None => None
        | Some best_cell =>
            match search fuel polygon precision queue best_cell with
            | None => None
            | Some best => Some (center best, distance best)
            end
        end
    end.

End Engine.

End Label.

(** ** An instance for axis-aligned boxes *)

Module LabelBox.
Import Label.

Open Scope Q_scope.

(** Modelled from the spec: [envelope] ([functions/envelope.hpp]), the
    bounding rectangle of the outer ring. *)
Definition box_envelope (polygon : Polygon) : Rectangle :=
  match outer polygon with
  | [] => {| rect_min := origin; rect_max := origin |}
  | p0 :: rest =>
      fold_left
        (fun r p =>
           {| rect_min := {| x := Qmin (x (rect_min r)) (x p);
                             y := Qmin (y (rect_min r)) (y p) |};
              rect_max := {| x := Qmax (x (rect_max r)) (x p);
                             y := Qmax (y (rect_max r)) (y p) |} |})
        rest {| rect_min := p0; rect_max := p0 |}
  end.

(** Modelled from the spec: [center] of a rectangle
    ([functions/center.hpp]), its midpoint. *)
Definition box_center (r : Rectangle) : Point :=
  {| x := (x (rect_min r) + x (rect_max r)) / 2;
     y := (y (rect_min r) + y (rect_max r)) / 2 |}.

(** Modelled from the spec: [distance_to_polygon], for a polygon that is an
    axis-aligned rectangle: the signed distance of a point to the nearest
    of the four sides, positive inside. *)
Definition box_distance (p : Point) (polygon : Polygon) : Q :=
  let r := box_envelope polygon in
  Qmin (Qmin (x p - x (rect_min r)) (x (rect_max r) - x p))
       (Qmin (y p - y (rect_min r)) (y (rect_max r) - y p)).

(** A rational value for [std::sqrt(2)]. *)
Definition sqrt_two : Q := 14142135623730951 # 10000000000000000.

Definition pt (a b : Q) : Point := {| x := a; y := b |}.

Definition square : Polygon :=
  {| outer := [pt 0 0; pt 4 0; pt 4 4; pt 0 4]; inners := [] |}.

Definition slab : Polygon :=
  {| outer := [pt 0 0; pt 8 0; pt 8 2; pt 0 2]; inners := [] |}.

Definition flat : Polygon :=
  {| outer := [pt 1 1; pt 5 1; pt 5 1; pt 1 1]; inners := [] |}.

Definition box_polylabel : nat -> Polygon -> Q -> option (Point * Q) :=
  polylabel box_distance box_envelope box_center sqrt_two.

End LabelBox.

(* ------------------------------------------------------------------ *)
(** * Notions used in further statements *)
(* ------------------------------------------------------------------ *)

Module SweepOrder.
Import Sweep.

(** The order of the active segments as a relation. *)
Definition slt (a b : SLSegment) : Prop := sl_compare a b = true.

(** The segment with its two endpoints exchanged. *)
Definition flip (s : Segment) : Segment :=
  {| first := last s; last := first s |}.

(** The two events that the event queue holds for the segment at position
    [i]. *)
Definition left_event_of (i : nat) (s : Segment) : Event :=
  {| e_edge := i; point := left (convert i s); type := LEFT |}.

Definition right_event_of (i : nat) (s : Segment) : Event :=
  {| e_edge := i; point := right (convert i s); type := RIGHT |}.

End SweepOrder.

(* ------------------------------------------------------------------ *)
(** * The label engine for any order of the cell queue *)
(* ------------------------------------------------------------------ *)

Module LabelQueue.
Import Label.

Open Scope Q_scope.

Section Queue.

Variable distance_to_polygon : Point -> Polygon -> Q.
Variable envelope : Polygon -> Rectangle.
Variable rect_center : Rectangle -> Point.
Variable SQRT_TWO : Q.

(** [std::priority_queue<Cell, std::vector<Cell>, decltype(compare)>]:
    [compare] looks at [max] only, and which of several cells of the same
    [max] the queue hands out first depends on the heap that the library
    keeps.  The queue is therefore a parameter: for the queue with the
    elements [queue], [pop queue] is the cell that [queue.top()] returns
    together with the queue after [queue.pop()], and [None] when
    [queue.empty()]. *)
Variable pop : list Cell -> option (Cell * list Cell).

(** The loop [while (!queue.empty())]. *)
Fixpoint search (fuel : nat) (polygon : Polygon) (precision : Q)
  (queue : list Cell) (best_cell : Cell) : option Cell :=
  match pop queue with
  | None => Some best_cell
  | Some (cell, queue') =>
      match fuel with
      | O => None
      | S fuel' =>
          let best_cell' :=
            if Qltb (distance best_cell) (distance cell) then cell
            else best_cell in
          if Qle_bool (max cell - distance best_cell') precision then
            search fuel' polygon precision queue' best_cell'
          else
            search fuel' polygon precision
              (subdivide distance_to_polygon SQRT_TWO polygon cell queue')
              best_cell'
      end
  end.

(** [polylabel]; [None] when the fuel does not suffice or an exception is
    thrown. *)
Definition polylabel (fuel : nat) (polygon : Polygon) (precision : Q)
  : option (Point * Q) :=
  let polygon_envelope := envelope polygon in
  let cell_size := Qmin (width polygon_envelope) (height polygon_envelope) in
  if Qeq_bool cell_size 0 then Some (rect_min polygon_envelope, 0)
  else
    match initial_queue distance_to_polygon envelope SQRT_TWO fuel polygon with
    | None => None
    | Some queue =>
        match initial_best distance_to_polygon envelope rect_center SQRT_TWO
                polygon with
        | None => None
        | Some best_cell =>
            match search fuel polygon precision queue best_cell with
            | None => None
            | Some best => Some (center best, distance best)
            end
        end
    end.

End Queue.

(** What a priority queue guarantees, whatever heap it keeps: it hands out
    a cell exactly when it is not empty, the cell is one that [compare] puts
    before no cell of the queue, and [pop] removes this one cell. *)
Definition priority_queue (pop : list Cell -> option (Cell * list Cell))
  : Prop :=
  (forall queue, pop queue = None <-> queue = []) /\
  (forall queue c rest, pop queue = Some (c, rest) ->
     Permutation queue (c :: rest) /\
     forall c', In c' queue -> compare c c' = false).

End LabelQueue.

(* ------------------------------------------------------------------ *)
(** * The base class of the graphs *)
(* ------------------------------------------------------------------ *)

Module GraphBase.

(** [std::set<vertex_type>] as a strictly increasing list; iterators are
    positions, [end()] is the length. *)
Fixpoint vset_insert (v : Z) (s : list Z) : list Z :=
  match s with
  | [] => [v]
  | y :: s' =>
      if v <? y then v :: s
      else if y <? v then y :: vset_insert v s'
      else s
  end.

Fixpoint vset_find (v : Z) (s : list Z) : nat :=
  match s with
  | [] => O
  | y :: s' =>
      if y <? v then S (vset_find v s')
      else if v <? y then length s
      else O
  end.

Fixpoint vset_erase (v : Z) (s : list Z) : list Z :=
  match s with
  | [] => []
  | y :: s' =>
      if y <? v then y :: vset_erase v s'
      else if v <? y then s
      else s'
  end.

(** The class [Graph]: a vertex container and an edge container. *)
Record Graph := mkGraph {
  m_vertices : list Z;
  m_edges : list (Z * Z)
}.

Definition empty_graph : Graph := {| m_vertices := []; m_edges := [] |}.

Definition size (g : Graph) : nat * nat :=
  (length (m_vertices g), length (m_edges g)).

Definition empty (g : Graph) : bool :=
  match m_vertices g, m_edges g with
  | [], [] => true
  | _, _ => false
  end.

Definition vertex_count (g : Graph) : nat := length (m_vertices g).

Definition insert_vertex (g : Graph) (vertex : Z) : Graph :=
  {| m_vertices := vset_insert vertex (m_vertices g); m_edges := m_edges g |}.

Definition contains_vertex (g : Graph) (vertex : Z) : bool :=
  negb (vset_find vertex (m_vertices g) =? length (m_vertices g))%nat.

Definition remove_vertex (g : Graph) (vertex : Z) : Graph :=
  {| m_vertices := vset_erase vertex (m_vertices g); m_edges := m_edges g |}.

Definition edge_count (g : Graph) : nat := length (m_edges g).

(** The graphs that the vertex operations build from the empty graph. *)
Inductive built : Graph -> Prop :=
| built_empty : built empty_graph
| built_insert g v : built g -> built (insert_vertex g v)
| built_remove g v : built g -> built (remove_vertex g v).

End GraphBase.

(* ------------------------------------------------------------------ *)
(** * The conversion handler *)
(* ------------------------------------------------------------------ *)

Module Convert.

(** The objects of the osmium library that the handler reads: a node
    reference with its id and its location, and a way with its id and node
    references.  The location of a node reference may be invalid
    (undefined or out of range, [None]); [lon()] and [lat()] throw
    [osmium::invalid_location] for an invalid location. *)
Record NodeRef := mkNodeRef { ref : Z; location : option (Q * Q) }.

Definition lon (osm_node : NodeRef) : option Q :=
  option_map fst (location osm_node).

Definition lat (osm_node : NodeRef) : option Q :=
  option_map snd (location osm_node).

Record OsmWay := mkOsmWay { osm_id : Z; osm_nodes : list NodeRef }.

(** [std::unordered_map<osm_id_type, object_id_type>] as an association
    list with one entry per key. *)
Fixpoint map_find (k : Z) (m : list (Z * nat)) : option nat :=
  match m with
  | [] => None
  | (k', v) :: m' => if k' =? k then Some v else map_find k m'
  end.

(** [m[k] = v] *)
Fixpoint map_assign (k : Z) (v : nat) (m : list (Z * nat)) : list (Z * nat) :=
  match m with
  | [] => [(k, v)]
  | (k', v') :: m' =>
      if k' =? k then (k', v) :: m' else (k', v') :: map_assign k v m'
  end.

(** The classes [memory::Node], [memory::Way] and [memory::Buffer] are
    declared in headers that are not part of these files.  The handler is
    modelled over any types with the operations it calls:
    - a node is built from an id and two coordinates and has [id()];
    - a way is built from an id, has [id()] and [push_back] for the id of a
      node; [way_nodes] stands for the ids that a way holds;
    - a buffer is default-constructed, has [push_back] and [at], which
      returns a reference to an element or throws ([None]);
      [ways_write b i w] is the buffer after the way that [at(i)] refers to
      has been changed to [w] through that reference; [nodes_size] and
      [ways_size] stand for the number of elements. *)
Record Memory : Type := mkMemory {
  Node : Type;
  make_node : nat -> Q -> Q -> Node;
  node_id : Node -> nat;
  Way : Type;
  make_way : nat -> Way;
  way_id : Way -> nat;
  way_push_back : Way -> nat -> Way;
  way_nodes : Way -> list nat;
  NodeBuffer : Type;
  nodes_empty : NodeBuffer;
  nodes_size : NodeBuffer -> nat;
  nodes_push_back : NodeBuffer -> Node -> NodeBuffer;
  nodes_at : NodeBuffer -> nat -> option Node;
  WayBuffer : Type;
  ways_empty : WayBuffer;
  ways_size : WayBuffer -> nat;
  ways_push_back : WayBuffer -> Way -> WayBuffer;
  ways_at : WayBuffer -> nat -> option Way;
  ways_write : WayBuffer -> nat -> Way -> WayBuffer
}.

(** What the handler relies on: the classes behave as a record of an id with
    its data and as a sequence container. *)
Record memory_laws (M : Memory) : Prop := mkLaws {
  node_id_make : forall i x y, node_id M (make_node M i x y) = i;
  way_id_make : forall i, way_id M (make_way M i) = i;
  way_id_push : forall w n, way_id M (way_push_back M w n) = way_id M w;
  way_nodes_make : forall i, way_nodes M (make_way M i) = [];
  way_nodes_push :
    forall w n, way_nodes M (way_push_back M w n) = way_nodes M w ++ [n];
  nodes_size_empty : nodes_size M (nodes_empty M) = O;
  nodes_size_push :
    forall b a, nodes_size M (nodes_push_back M b a) = S (nodes_size M b);
  nodes_at_push :
    forall b a i,
      nodes_at M (nodes_push_back M b a) i
      = if (i =? nodes_size M b)%nat then Some a else nodes_at M b i;
  nodes_at_range :
    forall b i, nodes_at M b i = None <-> (nodes_size M b <= i)%nat;
  ways_size_empty : ways_size M (ways_empty M) = O;
  ways_size_push :
    forall b a, ways_size M (ways_push_back M b a) = S (ways_size M b);
  ways_at_push :
    forall b a i,
      ways_at M (ways_push_back M b a) i
      = if (i =? ways_size M b)%nat then Some a else ways_at M b i;
  ways_at_range :
    forall b i, ways_at M b i = None <-> (ways_size M b <= i)%nat;
  ways_size_write :
    forall b i w, ways_size M (ways_write M b i w) = ways_size M b;
  ways_at_write :
    forall b i w j,
      ways_at M (ways_write M b i w) j
      = if (j =? i)%nat
        then (if (j <? ways_size M b)%nat then Some w else None)
        else ways_at M b j
}.

Section Handler.

Variable M : Memory.

Record ConvertHandler := mkHandler {
  m_nodes : NodeBuffer M;
  m_ways : WayBuffer M;
  m_nids : list (Z * nat);
  m_wids : list (Z * nat)
}.

(** The handler as constructed. *)
Definition empty_handler : ConvertHandler :=
  {| m_nodes := nodes_empty M; m_ways := ways_empty M;
     m_nids := []; m_wids := [] |}.

(** A call returns a value or throws ([None]); in both cases it leaves a
    handler behind. *)

(** [create_node]: the handler after the call and the node that the
    returned reference points to.  The id is filed in [m_nids] before
    [lon()] and [lat()] are called. *)
Definition create_node (h : ConvertHandler) (osm_node : NodeRef)
  : ConvertHandler * option (Node M) :=
  match map_find (ref osm_node) (m_nids h) with
  | Some id => (h, nodes_at M (m_nodes h) id)
  | None =>
      let mapped_id := length (m_nids h) in
      let h1 :=
        {| m_nodes := m_nodes h;
           m_ways := m_ways h;
           m_nids := map_assign (ref osm_node) mapped_id (m_nids h);
           m_wids := m_wids h |} in
      match lon osm_node, lat osm_node with
      | Some node_lon, Some node_lat =>
          let h2 :=
            {| m_nodes := nodes_push_back M (m_nodes h1)
                            (make_node M mapped_id node_lon node_lat);
               m_ways := m_ways h1;
               m_nids := m_nids h1;
               m_wids := m_wids h1 |} in
          (h2, nodes_at M (m_nodes h2) mapped_id)
      | _, _ => (h1, None)
      end
  end.

(** The loop of [create_way] over the nodes of the osmium way: [way] is the
    way that the reference into the buffer, taken at position [id], points
    to; every [push_back] on it changes the buffer in place.  An exception
    of [create_node] ends the loop and the call. *)
Fixpoint add_nodes (h : ConvertHandler) (id : nat) (way : Way M)
  (osm_nodes : list NodeRef) : ConvertHandler * option (Way M) :=
  match osm_nodes with
  | [] => (h, Some way)
  | osm_node :: rest =>
      match create_node h osm_node with
      | (h', None) => (h', None)
      | (h', Some node) =>
          let way' := way_push_back M way (node_id M node) in
          add_nodes {| m_nodes := m_nodes h';
                       m_ways := ways_write M (m_ways h') id way';
                       m_nids := m_nids h';
                       m_wids := m_wids h' |}
                    id way' rest
      end
  end.

(** [create_way]; [reserve] changes no value. *)
Definition create_way (h : ConvertHandler) (osm_way : OsmWay)
  : ConvertHandler * option (Way M) :=
  match map_find (osm_id osm_way) (m_wids h) with
  | Some id => (h, ways_at M (m_ways h) id)
  | None =>
      let mapped_id := length (m_wids h) in
      let h1 :=
        {| m_nodes := m_nodes h;
           m_ways := ways_push_back M (m_ways h) (make_way M mapped_id);
           m_nids := m_nids h;
           m_wids := map_assign (osm_id osm_way) mapped_id (m_wids h) |} in
      match ways_at M (m_ways h1) mapped_id with
      | None => (h1, None)
      | Some way => add_nodes h1 mapped_id way (osm_nodes osm_way)
      end
  end.

(** The handlers that calls of [create_node] and [create_way] reach from
    the handler as constructed, when every call has returned: no call has
    thrown. *)
Inductive intact : ConvertHandler -> Prop :=
| intact_empty : intact empty_handler
| intact_node h r h' n :
    intact h -> create_node h r = (h', Some n) -> intact h'
| intact_way h w h' way :
    intact h -> create_way h w = (h', Some way) -> intact h'.

End Handler.

(** A map and a buffer that belong together: the buffer has one element per
    key, the element at position [i] carries the id [i], and the map sends
    different keys to different positions of the buffer. *)
Definition dense {A : Type} (size : nat) (at_ : nat -> option A)
  (id_of : A -> nat) (m : list (Z * nat)) : Prop :=
  size = length m /\
  (forall i a, at_ i = Some a -> id_of a = i) /\
  (forall k v, map_find k m = Some v -> (v < size)%nat) /\
  (forall k k' v, map_find k m = Some v -> map_find k' m = Some v -> k = k').

Definition nodes_dense (M : Memory) (h : ConvertHandler M) : Prop :=
  dense (nodes_size M (m_nodes M h)) (nodes_at M (m_nodes M h)) (node_id M)
        (m_nids M h).

Definition ways_dense (M : Memory) (h : ConvertHandler M) : Prop :=
  dense (ways_size M (m_ways M h)) (ways_at M (m_ways M h)) (way_id M)
        (m_wids M h).

Arguments m_nodes {M} _.
Arguments m_ways {M} _.
Arguments m_nids {M} _.
Arguments m_wids {M} _.
Arguments create_node {M} _ _.
Arguments add_nodes {M} _ _ _ _.
Arguments create_way {M} _ _.
Arguments intact {M} _.
Arguments nodes_dense {M} _.
Arguments ways_dense {M} _.

End Convert.

(** Nodes and ways as records and buffers as lists: the classes with which
    the handler is run on examples. *)
Module ConvertList.
Import Convert.

Record ListNode := mkNode { nid : nat; node_lon : Q; node_lat : Q }.

Record ListWay := mkWay { wid : nat; nodes : list nat }.

Fixpoint list_update {A : Type} (i : nat) (a : A) (l : list A) : list A :=
  match l, i with
  | [], _ => []
  | _ :: l', O => a :: l'
  | b :: l', S i' => b :: list_update i' a l'
  end.

Definition list_memory : Memory :=
  {| Node := ListNode;
     make_node := mkNode;
     node_id := nid;
     Way := ListWay;
     make_way := fun i => mkWay i [];
     way_id := wid;
     way_push_back := fun w n => mkWay (wid w) (nodes w ++ [n]);
     way_nodes := nodes;
     NodeBuffer := list ListNode;
     nodes_empty := [];
     nodes_size := @length ListNode;
     nodes_push_back := fun b a => b ++ [a];
     nodes_at := @nth_error ListNode;
     WayBuffer := list ListWay;
     ways_empty := [];
     ways_size := @length ListWay;
     ways_push_back := fun b a => b ++ [a];
     ways_at := @nth_error ListWay;
     ways_write := fun b i w => list_update i w b |}.

(** Two node references with valid locations and a way over them. *)
Definition ref_a : NodeRef := mkNodeRef 501 (Some (1 # 2, 3 # 4)).
Definition ref_b : NodeRef := mkNodeRef 77 (Some (2 # 1, 5 # 1)).

(** A node reference without a valid location. *)
Definition ref_lost : NodeRef := mkNodeRef 912 None.

(** The handler after [create_node] for [ref_a]. *)
Definition handler_a : ConvertHandler list_memory :=
  {| m_nodes := [mkNode 0 (1 # 2) (3 # 4)] : NodeBuffer list_memory;
     m_ways := [] : WayBuffer list_memory;
     m_nids := [(501, O)];
     m_wids := [] |}.

(** The handler after [create_node] for [ref_a] and then for [ref_b]. *)
Definition handler_ab : ConvertHandler list_memory :=
  {| m_nodes := [mkNode 0 (1 # 2) (3 # 4); mkNode 1 (2 # 1) (5 # 1)]
                : NodeBuffer list_memory;
     m_ways := [] : WayBuffer list_memory;
     m_nids := [(501, O); (77, 1%nat)];
     m_wids := [] |}.

Definition way_one : OsmWay := mkOsmWay 40 [ref_a; ref_b; ref_a].

(** The way that [create_way] makes of [way_one] on [handler_a], and the
    handler after the call. *)
Definition stored_way : ListWay := mkWay 0 [0; 1; 0]%nat.

Definition handler_way : ConvertHandler list_memory :=
  {| m_nodes := [mkNode 0 (1 # 2) (3 # 4); mkNode 1 (2 # 1) (5 # 1)]
                : NodeBuffer list_memory;
     m_ways := [stored_way] : WayBuffer list_memory;
     m_nids := [(501, O); (77, 1%nat)];
     m_wids := [(40, O)] |}.

End ConvertList.

(* ------------------------------------------------------------------ *)
(** * The sweep-line validator for any order of the event queue *)
(* ------------------------------------------------------------------ *)

Module SweepQueue.
Import Sweep.

Section Queue.

(** [std::priority_queue<Event<T>, std::vector<Event<T>>,
    EventComparator<T>>]: the comparator looks at the points of two events
    only, and which of several events at the same point the queue hands
    out first depends on the heap that the library keeps.  The queue is
    therefore a parameter: [top eq] is the event that [eq.top()] returns
    for the queue with the events [eq] ([None] when [eq.empty()]), and
    [pop eq] is the queue after [eq.pop()]. *)
Variable top : list Event -> option Event.
Variable pop : list Event -> list Event.

(** The loop [while (!eq.empty())] of [shamos_hoey]. *)
Fixpoint sweep (fuel : nat) (segments : list Segment) (eq : list Event)
  (sl : SweepLine) : option bool :=
  match top eq with
  | None => Some false
  | Some e =>
      match fuel with
      | O => None
      | S fuel' =>
          let eq' := pop eq in
          match (match type e with
                 | LEFT => left_event segments sl e
                 | RIGHT => right_event sl e
                 end) with
          | None => None
          | Some (inl b) => Some b
          | Some (inr sl') => sweep fuel' segments eq' sl'
          end
      end
  end.

(** [shamos_hoey]; the loop pops one event in every iteration, so one unit
    of fuel per event empties the queue. *)
Definition shamos_hoey (segments : list Segment) : option bool :=
  let eq := EventQueue segments in
  sweep (length eq) segments eq empty_sweep_line.

End Queue.

(** What a priority queue guarantees, whatever heap it keeps: [top] is an
    event of the queue that the comparator puts behind no other event of
    the queue, and [pop] removes this one event. *)
Definition priority_queue (top : list Event -> option Event)
  (pop : list Event -> list Event) : Prop :=
  (forall eq, top eq = None <-> eq = []) /\
  (forall eq e, top eq = Some e ->
     Permutation eq (e :: pop eq) /\
     forall e', In e' eq -> event_compare e e' = false).

End SweepQueue.

(* ------------------------------------------------------------------ *)
(** * The label engine in binary64 arithmetic *)
(* ------------------------------------------------------------------ *)

(** [polylabel] once more, for the coordinate type [double], with the
    arithmetic of the machine: every [double] is a binary64 float, and
    every sum, difference, product and quotient is rounded to the nearest
    float, ties to even. *)
Module Label64.
Import PrimFloat.

Open Scope float_scope.

(** Modelled from the spec: [Point] ([model/geometry/point.hpp]), a pair of
    coordinates; a default-constructed point is the origin, [/=] divides
    both coordinates by a scalar. *)
Record Point := mkPoint { x : float; y : float }.

Definition origin : Point := {| x := 0; y := 0 |}.

Definition point_div (p : Point) (d : float) : Point :=
  {| x := x p / d; y := y p / d |}.

(** Modelled from the spec: [Rectangle] ([model/geometry/rectangle.hpp]),
    an axis-aligned box given by its minimum and maximum corners; its width
    and height are the differences of the corner coordinates. *)
Record Rectangle := mkRectangle { rect_min : Point; rect_max : Point }.

Definition width (r : Rectangle) : float := x (rect_max r) - x (rect_min r).
Definition height (r : Rectangle) : float := y (rect_max r) - y (rect_min r).

(** Modelled from the spec: [Polygon] ([model/geometry/polygon.hpp]), an
    outer ring and inner rings, each a sequence of points. *)
Record Polygon := mkPolygon {
  outer : list Point;
  inners : list (list Point)
}.

Record Cell := mkCell {
  center : Point;
  half : float;
  distance : float;
  max : float
}.

(** [std::min(a, b)] is [(b < a) ? b : a]. *)
Definition std_min (a b : float) : float := if b <? a then b else a.

Section Engine.

(** Functions and constants that [polylabel] takes from other headers, as
    parameters: the signed distance of a point to a polygon, the bounding
    rectangle of a polygon, the centre of a rectangle (the first component
    of the pair that [center] returns), and the value of [std::sqrt(2)]. *)
Variable distance_to_polygon : Point -> Polygon -> float.
Variable envelope : Polygon -> Rectangle.
Variable rect_center : Rectangle -> Point.
Variable SQRT_TWO : float.

(** [std::priority_queue<Cell, std::vector<Cell>, decltype(compare)>] as
    the list of its elements, [push] putting an element in front.  Which of
    several cells of the same [max] the queue hands out first depends on
    the heap that the library keeps, so the queue is a parameter:
    [pop queue] is the cell that [queue.top()] returns together with the
    queue after [queue.pop()], and [None] when [queue.empty()]. *)
Variable pop : list Cell -> option (Cell * list Cell).

Definition pq_push (c : Cell) (queue : list Cell) : list Cell := c :: queue.

(** The constructor of [Cell]. *)
Definition new_cell (c : Point) (h : float) (polygon : Polygon) : Cell :=
  let d := distance_to_polygon c polygon in
  {| center := c; half := h; distance := d; max := d + h * SQRT_TWO |}.

(** The loop of [get_centroid]; [p_left] is the point at index [i],
    [p_right] the point at index [j]. *)
Fixpoint centroid_loop (points : list Point) (p_right : Point)
  (c : Point) (area : float) : Point * float :=
  match points with
  | [] => (c, area)
  | p_left :: rest =>
      let f := x p_left * y p_right - x p_right * y p_left in
      centroid_loop rest p_left
        {| x := x c + (x p_left + x p_right) * f;
           y := y c + (y p_left + y p_right) * f |}
        (area + f * 3)
  end.

(** [get_centroid]; [outer().at(0)] throws on an empty ring. *)
Definition get_centroid (polygon : Polygon) : option Cell :=
  match outer polygon with
  | [] => None
  | p0 :: _ =>
      let '(c, area) :=
        centroid_loop (outer polygon) (List.last (outer polygon) p0) origin 0 in
      if 0 <? area then Some (new_cell (point_div c area) 0 polygon)
      else Some (new_cell p0 0 polygon)
  end.

(** The inner loop
    [for (T y = min.y(); y < max.y(); y += cell_size)]. *)
Fixpoint tile_y (fuel : nat) (polygon : Polygon) (cell_size half_size : float)
  (y_max x0 y0 : float) (queue : list Cell) : option (list Cell) :=
  match fuel with
  | O => None
  | S fuel' =>
      if y0 <? y_max then
        tile_y fuel' polygon cell_size half_size y_max x0 (y0 + cell_size)
          (pq_push
             (new_cell {| x := x0 + half_size; y := y0 + half_size |}
                half_size polygon)
             queue)
      else Some queue
  end.

(** The outer loop
    [for (T x = min.x(); x < max.x(); x += cell_size)]. *)
Fixpoint tile_x (fuel fuel_y : nat) (polygon : Polygon)
  (cell_size half_size : float) (x_max y_min y_max x0 : float)
  (queue : list Cell) : option (list Cell) :=
  match fuel with
  | O => None
  | S fuel' =>
      if x0 <? x_max then
        match tile_y fuel_y polygon cell_size half_size y_max x0 y_min queue with
        | None => None
        | Some queue' =>
            tile_x fuel' fuel_y polygon cell_size half_size x_max y_min y_max
              (x0 + cell_size) queue'
        end
      else Some queue
  end.

(** The four children of a cell. *)
Definition subdivide (polygon : Polygon) (cell : Cell) (queue : list Cell)
  : list Cell :=
  let h := half cell / 2 in
  let cx := x (center cell) in
  let cy := y (center cell) in
  pq_push (new_cell {| x := cx - h; y := cy - h |} h polygon)
    (pq_push (new_cell {| x := cx - h; y := cy + h |} h polygon)
       (pq_push (new_cell {| x := cx + h; y := cy - h |} h polygon)
          (pq_push (new_cell {| x := cx + h; y := cy + h |} h polygon)
             queue))).

(** The loop [while (!queue.empty())]. *)
Fixpoint search (fuel : nat) (polygon : Polygon) (precision : float)
  (queue : list Cell) (best_cell : Cell) : option Cell :=
  match pop queue with
  | None => Some best_cell
  | Some (cell, queue') =>
      match fuel with
      | O => None
      | S fuel' =>
          let best_cell' :=
            if distance best_cell <? distance cell then cell
            else best_cell in
          if max cell - distance best_cell' <=? precision then
            search fuel' polygon precision queue' best_cell'
          else
            search fuel' polygon precision (subdivide polygon cell queue')
              best_cell'
      end
  end.

(** The two loops that cover the envelope with cells. *)
Definition initial_queue (fuel : nat) (polygon : Polygon) : option (list Cell) :=
  let polygon_envelope := envelope polygon in
  let cell_size :=
    std_min (width polygon_envelope) (height polygon_envelope) in
  tile_x fuel fuel polygon cell_size (cell_size / 2)
    (x (rect_max polygon_envelope))
    (y (rect_min polygon_envelope)) (y (rect_max polygon_envelope))
    (x (rect_min polygon_envelope)) [].

(** The first guess and the second guess. *)
Definition initial_best (polygon : Polygon) : option Cell :=
  match get_centroid polygon with
  | None => None
  | Some best_cell =>
      let envelope_center_cell :=
        new_cell (rect_center (envelope polygon)) 0 polygon in
      if distance best_cell <? distance envelope_center_cell
      then Some envelope_center_cell
      else Some best_cell
  end.

(** [polylabel]: [None] when a loop has not ended after [fuel] iterations
    or an exception is thrown. *)
Definition polylabel (fuel : nat) (polygon : Polygon) (precision : float)
  : option (Point * float) :=
  let polygon_envelope := envelope polygon in
  let cell_size :=
    std_min (width polygon_envelope) (height polygon_envelope) in
  if cell_size =? 0 then Some (rect_min polygon_envelope, 0)
  else
    match initial_queue fuel polygon with
    | None => None
    | Some queue =>
        match initial_best polygon with
        | None => None
        | Some best_cell =>
            match search fuel polygon precision queue best_cell with
            | None => None
            | Some best => Some (center best, distance best)
            end
        end
    end.

End Engine.

(** Modelled from the spec: [envelope] ([functions/envelope.hpp]), the
    bounding rectangle of the outer ring: the smallest and the largest
    coordinate of its points in either direction. *)
Definition ring_envelope (polygon : Polygon) : Rectangle :=
  match outer polygon with
  | [] => {| rect_min := origin; rect_max := origin |}
  | p0 :: rest =>
      fold_left
        (fun r p =>
           {| rect_min := {| x := std_min (x (rect_min r)) (x p);
                             y := std_min (y (rect_min r)) (y p) |};
              rect_max := {| x := if x (rect_max r) <? x p then x p
                                  else x (rect_max r);
                             y := if y (rect_max r) <? y p then y p
                                  else y (rect_max r) |} |})
        rest {| rect_min := p0; rect_max := p0 |}
  end.

Definition pt (a b : float) : Point := {| x := a; y := b |}.

(** A rectangle of width 2 and height 1 whose left side is at
    [x = 2^53 = 9007199254740992]. *)
Definition far_box : Polygon :=
  {| outer := [pt 9007199254740992 0; pt 9007199254740994 0;
               pt 9007199254740994 1; pt 9007199254740992 1];
     inners := [] |}.

(** A rectangle of width [2^-46] and height [2^-48] whose left side is at
    [x = 64]. *)
Definition sliver : Polygon :=
  {| outer := [pt 64 0; pt (64 + 0x1p-46) 0;
               pt (64 + 0x1p-46) 0x1p-48; pt 64 0x1p-48];
     inners := [] |}.

End Label64.

(* ================================================================== *)
(** * Properties                                                       *)
(* ================================================================== *)
Module GraphSpec.
Import Graph.

Lemma edge_lt_spec (a b : edge_type) :
  edge_lt a b = true <-> fst a < fst b \/ (fst a = fst b /\ snd a < snd b).
Proof.
  unfold edge_lt.
  rewrite orb_true_iff, andb_true_iff, negb_true_iff, !Z.ltb_lt, Z.ltb_ge.
  lia.
Qed.

Lemma edge_lt_false (a b : edge_type) :
  edge_lt a b = false <-> fst b < fst a \/ (fst a = fst b /\ snd b <= snd a).
Proof.
  rewrite <- not_true_iff_false, edge_lt_spec. lia.
Qed.

Lemma edge_lt_irrefl (a : edge_type) : edge_lt a a = false.
Proof. apply edge_lt_false. lia. Qed.

Lemma edge_lt_trans (a b c : edge_type) : elt a b -> elt b c -> elt a c.
Proof. unfold elt. rewrite !edge_lt_spec. lia. Qed.

Lemma edge_lt_total (a b : edge_type) :
  edge_lt a b = false -> edge_lt b a = false -> a = b.
Proof.
  rewrite !edge_lt_false. destruct a, b; simpl. intros. f_equal; lia.
Qed.

(** *** [set_insert] keeps the list strictly increasing *)

Lemma set_insert_In (e x : edge_type) (s : list edge_type) :
  In x (set_insert e s) <-> x = e \/ In x s.
Proof.
  induction s as [|y s IH]; simpl.
  - intuition.
  - destruct (edge_lt e y) eqn:Hey; simpl.
    + intuition.
    + destruct (edge_lt y e) eqn:Hye; simpl.
      * rewrite IH. intuition.
      * pose proof (edge_lt_total _ _ Hey Hye) as ->. intuition.
Qed.

Lemma set_insert_sorted (e : edge_type) (s : list edge_type) :
  StronglySorted elt s -> StronglySorted elt (set_insert e s).
Proof.
  induction 1 as [|y s Hs IH Hall]; simpl.
  - repeat constructor.
  - destruct (edge_lt e y) eqn:Hey.
    + constructor; [constructor; assumption|].
      constructor; [exact Hey|].
      eapply Forall_impl; [|exact Hall]. intros z Hz. eapply edge_lt_trans; eassumption.
    + destruct (edge_lt y e) eqn:Hye.
      * constructor; [exact IH|].
        apply Forall_forall. intros z Hz. apply set_insert_In in Hz.
        destruct Hz as [->|Hz]; [exact Hye|].
        rewrite Forall_forall in Hall. auto.
      * constructor; assumption.
Qed.

Lemma sorted_NoDup (s : list edge_type) : StronglySorted elt s -> NoDup s.
Proof.
  induction 1 as [|y s Hs IH Hall]; constructor; auto.
  intro Hin. rewrite Forall_forall in Hall. specialize (Hall _ Hin).
  unfold elt in Hall. rewrite edge_lt_irrefl in Hall. discriminate.
Qed.

(** *** [find] on a strictly increasing list decides membership *)

Lemma set_find_end_iff (k : edge_type) (s : list edge_type) :
  StronglySorted elt s ->
  (set_find k s = length s <-> ~ In k s).
Proof.
  unfold set_find. induction 1 as [|y s Hs IH Hall]; simpl.
  - intuition.
  - destruct (edge_lt y k) eqn:Hyk; simpl.
    + destruct (nth_error s (set_lower_bound k s)) as [x|] eqn:Hn.
      * destruct (edge_lt k x) eqn:Hkx.
        -- split; [intros _|reflexivity]. intros [->|Hin].
           ++ rewrite edge_lt_irrefl in Hyk; discriminate.
           ++ apply IH in Hin; auto.
        -- split.
           ++ intros Heq. injection Heq as Heq. apply IH in Heq. intros [->|Hin]; auto.
              rewrite edge_lt_irrefl in Hyk; discriminate.
           ++ intros Hnin. f_equal. apply IH. intuition.
      * split; [intros _|reflexivity]. intros [->|Hin].
        -- rewrite edge_lt_irrefl in Hyk; discriminate.
        -- apply IH in Hin; auto.
    + destruct (edge_lt k y) eqn:Hky.
      * split; [intros _|reflexivity]. intros [->|Hin].
        -- rewrite edge_lt_irrefl in Hky; discriminate.
        -- rewrite Forall_forall in Hall. specialize (Hall _ Hin).
           unfold elt in Hall. congruence.
      * split; [discriminate|]. intros Hnin. exfalso. apply Hnin. left.
        apply edge_lt_total; assumption.
Qed.

Lemma contains_edge_iff (g : UndirectedGraph) (e : edge_type) :
  StronglySorted elt (m_edges g) ->
  (contains_edge g e = true <-> In e (m_edges g)).
Proof.
  intros Hs. unfold contains_edge.
  rewrite negb_true_iff, Nat.eqb_neq, (set_find_end_iff e _ Hs).
  destruct (in_dec edge_eq_dec e (m_edges g)); intuition.
Qed.


(** *** The two bounds of a vertex *)

Section Bounds.

Variables vertex_lowest vertex_max : Z.

#[local] Abbreviation in_range := (edge_in_range vertex_lowest vertex_max).
#[local] Abbreviation lb v s := (set_lower_bound (v, vertex_lowest) s).
#[local] Abbreviation ub v s := (set_upper_bound (v, vertex_max) s).
#[local] Abbreviation insert_edge := (Graph.insert_edge vertex_lowest vertex_max).
#[local] Abbreviation insert_edges := (Graph.insert_edges vertex_lowest vertex_max).
#[local] Abbreviation adjacents := (Graph.adjacents vertex_lowest vertex_max).
#[local] Abbreviation degree := (Graph.degree vertex_lowest vertex_max).

Lemma bounds_absent (v : vertex_type) (s : list edge_type) :
  (forall e, In e s -> fst e <> v) -> lb v s = ub v s.
Proof.
  induction s as [|x s IH]; simpl; intros Hs; [reflexivity|].
  assert (Hx : fst x <> v) by (apply Hs; now left).
  destruct (edge_lt x (v, vertex_lowest)) eqn:H1;
    destruct (edge_lt (v, vertex_max) x) eqn:H2.
  - apply edge_lt_spec in H1, H2. simpl in *. lia.
  - f_equal. apply IH. intros e He. apply Hs. now right.
  - reflexivity.
  - apply edge_lt_false in H1, H2. simpl in *. lia.
Qed.

Lemma lb_zero (v : vertex_type) (s : list edge_type) :
  Forall in_range s -> (forall e, In e s -> v <= fst e) -> lb v s = O.
Proof.
  destruct s as [|x s]; simpl; intros Hr Hs; [reflexivity|].
  destruct (edge_lt x (v, vertex_lowest)) eqn:H1; [|reflexivity].
  apply edge_lt_spec in H1. simpl in H1.
  specialize (Hs x (or_introl eq_refl)).
  inversion Hr as [|? ? [_ Hx] _]; subst. unfold vertex_in_range in Hx. lia.
Qed.

Lemma sources_above (v : vertex_type) (s : list edge_type) :
  (forall e, In e s -> v < fst e) -> sources v s = [].
Proof.
  unfold sources.
  induction s as [|x s IH]; cbn [filter]; intros Hs; [reflexivity|].
  specialize (Hs x (or_introl eq_refl)) as Hx.
  destruct (Z.eqb_spec (fst x) v); [lia|].
  apply IH. intros e He. apply Hs. now right.
Qed.

Lemma bounds_slice (v : vertex_type) (s : list edge_type) :
  StronglySorted elt s -> Forall in_range s ->
  (lb v s <= ub v s <= length s)%nat /\
  firstn (ub v s - lb v s) (skipn (lb v s) s) = sources v s.
Proof.
  induction 1 as [|x s Hs IH Hall]; intros Hr; [simpl; split; [lia|reflexivity]|].
  inversion Hr as [|? ? Hx Hr']; subst.
  specialize (IH Hr'). destruct IH as [IHle IHeq].
  destruct Hx as [_ Hx2]. unfold vertex_in_range in Hx2.
  rewrite Forall_forall in Hall.
  unfold sources in *. cbn [filter set_lower_bound set_upper_bound length].
  destruct (Z.eqb_spec (fst x) v) as [Heq|Hne].
  - (* an edge leaving [v] *)
    assert (H1 : edge_lt x (v, vertex_lowest) = false)
      by (apply edge_lt_false; simpl; lia).
    assert (H2 : edge_lt (v, vertex_max) x = false)
      by (apply edge_lt_false; simpl; lia).
    rewrite H1, H2.
    assert (H0 : lb v s = O).
    { apply lb_zero; [exact Hr'|]. intros e He. specialize (Hall e He).
      apply edge_lt_spec in Hall. lia. }
    rewrite H0 in IHle, IHeq. simpl in IHeq. rewrite Nat.sub_0_r in IHeq.
    split; [lia|]. simpl. f_equal. exact IHeq.
  - destruct (edge_lt x (v, vertex_lowest)) eqn:H1.
    + (* an edge of a smaller vertex *)
      assert (H2 : edge_lt (v, vertex_max) x = false).
      { apply edge_lt_spec in H1. apply edge_lt_false. simpl in *. lia. }
      rewrite H2. split; [lia|]. simpl. exact IHeq.
    + (* an edge of a larger vertex *)
      assert (H2 : edge_lt (v, vertex_max) x = true).
      { apply edge_lt_false in H1. apply edge_lt_spec. simpl in *. lia. }
      rewrite H2. split; [simpl; lia|]. simpl.
      symmetry. apply sources_above. intros e He. specialize (Hall e He).
      apply edge_lt_spec in Hall. apply edge_lt_false in H1. simpl in H1. lia.
Qed.

(** *** The loop of [adjacents] *)

Lemma skipn_nth_error {A : Type} (s : list A) :
  forall (i : nat) (e : A),
    nth_error s i = Some e -> skipn i s = e :: skipn (S i) s.
Proof.
  induction s as [|x s IH]; intros [|i] e H; simpl in *; try discriminate.
  - now injection H as ->.
  - now apply IH.
Qed.

Lemma adjacents_loop_slice (fuel : nat) (s : list edge_type) :
  forall (it_l it_u : nat) (acc : list vertex_type),
    (it_l <= it_u <= length s)%nat -> (it_u - it_l < fuel)%nat ->
    adjacents_loop fuel s it_l it_u acc
    = Some (acc ++ map snd (firstn (it_u - it_l) (skipn it_l s))).
Proof.
  induction fuel as [|fuel IH]; intros it_l it_u acc Hle Hf; [lia|].
  simpl. destruct (Nat.eqb_spec it_l it_u) as [->|Hne].
  - rewrite Nat.sub_diag. simpl. now rewrite app_nil_r.
  - destruct (nth_error s it_l) as [e|] eqn:Hn.
    + rewrite IH by lia.
      replace (it_u - it_l)%nat with (S (it_u - S it_l)) by lia.
      rewrite (skipn_nth_error s it_l e Hn). simpl.
      now rewrite <- app_assoc.
    + apply nth_error_None in Hn. lia.
Qed.

Lemma adjacents_sources (g : UndirectedGraph) (v : vertex_type) :
  StronglySorted elt (m_edges g) -> Forall in_range (m_edges g) ->
  adjacents g v = Some (map snd (sources v (m_edges g))).
Proof.
  intros Hs Hr. unfold Graph.adjacents, lower_edge_bound, upper_edge_bound.
  destruct (bounds_slice v _ Hs Hr) as [Hle Heq].
  rewrite adjacents_loop_slice by lia.
  simpl. now rewrite Heq.
Qed.

Lemma degree_sources (g : UndirectedGraph) (v : vertex_type) :
  StronglySorted elt (m_edges g) -> Forall in_range (m_edges g) ->
  degree g v = Some (length (sources v (m_edges g))).
Proof.
  intros Hs Hr. unfold Graph.degree, lower_edge_bound, upper_edge_bound, std_distance.
  destruct (bounds_slice v _ Hs Hr) as [Hle Heq].
  rewrite <- Heq.
  destruct (Nat.eqb_spec (lb v (m_edges g)) (length (m_edges g))) as [He|Hne].
  - rewrite He, skipn_all. now rewrite firstn_nil.
  - destruct (Nat.leb_spec (lb v (m_edges g)) (ub v (m_edges g))); [|lia].
    f_equal. rewrite length_firstn, length_skipn. lia.
Qed.

(** *** What a sequence of insertions stores *)

Lemma insert_edge_In (g : UndirectedGraph) (e x : edge_type) :
  In x (m_edges (insert_edge g e)) <-> x = e \/ x = reverse e \/ In x (m_edges g).
Proof. simpl. rewrite !set_insert_In. intuition. Qed.

Lemma insert_edge_sorted (g : UndirectedGraph) (e : edge_type) :
  StronglySorted elt (m_edges g) -> StronglySorted elt (m_edges (insert_edge g e)).
Proof. intros H. simpl. now do 2 apply set_insert_sorted. Qed.

Lemma fold_insert_sorted (es : list edge_type) :
  forall g, StronglySorted elt (m_edges g) ->
       StronglySorted elt (m_edges (fold_left insert_edge es g)).
Proof.
  induction es as [|e es IH]; simpl; intros g Hg; [exact Hg|].
  apply IH. now apply insert_edge_sorted.
Qed.

Lemma fold_insert_In (es : list edge_type) (x : edge_type) :
  forall g, In x (m_edges (fold_left insert_edge es g))
       <-> In x (m_edges g) \/ In x es \/ In (reverse x) es.
Proof.
  induction es as [|e es IH]; intros g.
  - simpl. intuition.
  - cbn [fold_left]. rewrite IH, insert_edge_In. simpl.
    assert (Hrev : x = reverse e <-> e = reverse x).
    { destruct x, e; unfold reverse; simpl. split; intros [= -> ->]; reflexivity. }
    rewrite Hrev. intuition (subst; auto).
Qed.

Lemma insert_edges_sorted (es : list edge_type) :
  StronglySorted elt (m_edges (insert_edges es)).
Proof. apply fold_insert_sorted. constructor. Qed.

Lemma insert_edges_In (es : list edge_type) (x : edge_type) :
  In x (m_edges (insert_edges es)) <-> In x es \/ In (reverse x) es.
Proof. unfold Graph.insert_edges. rewrite fold_insert_In. simpl. intuition. Qed.

Lemma insert_edges_in_range (es : list edge_type) :
  Forall in_range es -> Forall in_range (m_edges (insert_edges es)).
Proof.
  intros Hr. rewrite Forall_forall in *. intros x Hx.
  apply insert_edges_In in Hx. destruct Hx as [Hx|Hx].
  - auto.
  - specialize (Hr _ Hx). destruct x; unfold edge_in_range, reverse in *; simpl in *.
    tauto.
Qed.


(** *** Neighbours come out in increasing order *)

Lemma sources_In (v : vertex_type) (s : list edge_type) (w : vertex_type) :
  In w (map snd (sources v s)) <-> In (v, w) s.
Proof.
  unfold sources. rewrite in_map_iff. split.
  - intros ([a b] & <- & Hin). apply filter_In in Hin. destruct Hin as [Hin Hv].
    simpl in *. apply Z.eqb_eq in Hv. now subst.
  - intros Hin. exists (v, w). split; [reflexivity|].
    apply filter_In. split; [exact Hin|]. simpl. apply Z.eqb_refl.
Qed.

Lemma sources_increasing (v : vertex_type) (s : list edge_type) :
  StronglySorted elt s -> StronglySorted Z.lt (map snd (sources v s)).
Proof.
  unfold sources.
  induction 1 as [|x s Hs IH Hall]; cbn [filter map]; [constructor|].
  destruct (Z.eqb_spec (fst x) v) as [Heq|Hne]; [|exact IH].
  cbn [map]. constructor; [exact IH|].
  rewrite Forall_forall in *. intros w Hw.
  apply in_map_iff in Hw. destruct Hw as (e & <- & He).
  apply filter_In in He. destruct He as [He Hv]. apply Z.eqb_eq in Hv.
  specialize (Hall e He). apply edge_lt_spec in Hall. lia.
Qed.

Lemma increasing_NoDup (l : list Z) : StronglySorted Z.lt l -> NoDup l.
Proof.
  induction 1 as [|y l Hl IH Hall]; constructor; auto.
  intro Hin. rewrite Forall_forall in Hall. specialize (Hall _ Hin). lia.
Qed.

Lemma adjacents_insert_edges (es : list edge_type) (v : vertex_type) :
  Forall in_range es ->
  adjacents (insert_edges es) v
  = Some (map snd (sources v (m_edges (insert_edges es)))).
Proof.
  intros Hr. apply adjacents_sources.
  - apply insert_edges_sorted.
  - now apply insert_edges_in_range.
Qed.

Lemma contains_edge_insert_edges (es : list edge_type) (e : edge_type) :
  contains_edge (insert_edges es) e = true <-> In e es \/ In (reverse e) es.
Proof.
  rewrite contains_edge_iff by apply insert_edges_sorted.
  apply insert_edges_In.
Qed.

(** Every inserted edge is found in both directions. *)
Lemma inserted_edge_both_directions (es : list edge_type) (u v : vertex_type) :
  In (u, v) es ->
  contains_edge (insert_edges es) (u, v) = true /\
  contains_edge (insert_edges es) (v, u) = true.
Proof.
  intros Hin. rewrite !contains_edge_insert_edges. unfold reverse. simpl. auto.
Qed.

(** Adjacency is symmetric. *)
Lemma adjacents_symmetric (es : list edge_type) (u v : vertex_type) :
  Forall in_range es ->
  exists lu lv,
    adjacents (insert_edges es) u = Some lu /\
    adjacents (insert_edges es) v = Some lv /\
    (In v lu <-> In u lv).
Proof.
  intros Hr. do 2 eexists.
  split; [now apply adjacents_insert_edges|].
  split; [now apply adjacents_insert_edges|].
  rewrite !sources_In, !insert_edges_In. unfold reverse. simpl. tauto.
Qed.

End Bounds.

(** *** Counting the stored edges *)

Lemma NoDup_flat_map_key {A B : Type} (f : A -> list B) (key : B -> A)
  (l : list A) :
  NoDup l ->
  (forall x, In x l -> NoDup (f x)) ->
  (forall x y, In x l -> In y (f x) -> key y = x) ->
  NoDup (flat_map f l).
Proof.
  induction 1 as [|x l Hx Hl IH]; intros Hf Hk; simpl; [constructor|].
  apply NoDup_app.
  - apply Hf; now left.
  - apply IH; intros; [apply Hf|apply Hk]; auto; now right.
  - intros y Hy Hy'. apply in_flat_map in Hy'. destruct Hy' as (x' & Hx' & Hy').
    assert (key y = x) by (apply Hk; [now left|exact Hy]).
    assert (key y = x') by (apply Hk; [now right|exact Hy']).
    congruence.
Qed.

Lemma unordered_cases (e : edge_type) :
  (unordered e = e /\ fst e <= snd e) \/
  (unordered e = reverse e /\ snd e <= fst e).
Proof.
  destruct e as [a b]. unfold unordered, reverse. simpl.
  destruct (Z.le_ge_cases a b).
  - left. rewrite Z.min_l, Z.max_r by lia. auto.
  - right. rewrite Z.min_r, Z.max_l by lia. auto.
Qed.

Lemma expand_In (p e : edge_type) :
  In e (expand p) <-> e = p \/ e = reverse p.
Proof.
  unfold expand. destruct (Z.eqb_spec (fst p) (snd p)) as [Heq|Hne]; simpl.
  - destruct p as [a b]. unfold reverse. simpl in *. subst. intuition.
  - intuition.
Qed.

Lemma expanded_pairs_In (es : list edge_type) (e : edge_type) :
  In e (flat_map expand (distinct_pairs es)) <-> In e es \/ In (reverse e) es.
Proof.
  rewrite in_flat_map. unfold distinct_pairs. split.
  - intros (p & Hp & He). apply nodup_In, in_map_iff in Hp.
    destruct Hp as (e0 & <- & He0). apply expand_In in He.
    destruct e0 as [a b], e as [c d].
    destruct (unordered_cases (a, b)) as [[Hu _]|[Hu _]]; rewrite Hu in He;
      unfold reverse in *; simpl in *; destruct He as [[= -> ->]|[= -> ->]]; auto.
  - assert (Hgen : forall e0, In e0 es -> (e = e0 \/ e = reverse e0) ->
              exists x, In x (nodup edge_eq_dec (map unordered es)) /\ In e (expand x)).
    { intros e0 He0 He. exists (unordered e0). split.
      - apply nodup_In, in_map. exact He0.
      - apply expand_In. destruct e0 as [a b], e as [c d].
        destruct (unordered_cases (a, b)) as [[-> _]|[-> _]];
          unfold reverse in *; simpl in *; destruct He as [[= -> ->]|[= -> ->]]; auto. }
    intros [He|He].
    + apply (Hgen e He). now left.
    + apply (Hgen _ He). right. destruct e; reflexivity.
Qed.

Lemma expanded_pairs_NoDup (es : list edge_type) :
  NoDup (flat_map expand (distinct_pairs es)).
Proof.
  apply (NoDup_flat_map_key expand unordered).
  - apply NoDup_nodup.
  - intros p _. unfold expand.
    destruct (Z.eqb_spec (fst p) (snd p)) as [Heq|Hne].
    + repeat constructor. simpl. tauto.
    + repeat constructor; simpl; try tauto.
      intros [H|[]]. destruct p as [a b]. unfold reverse in H. simpl in *.
      injection H as H1 H2. lia.
  - intros p e Hp He. apply nodup_In, in_map_iff in Hp.
    destruct Hp as ([a b] & <- & _). apply expand_In in He.
    unfold unordered, reverse in *. simpl in *.
    destruct He as [->| ->]; simpl; f_equal; lia.
Qed.

Lemma expanded_length (ps : list edge_type) :
  length (flat_map expand ps)
  = (2 * length (filter (fun p => negb (is_loop p)) ps)
     + length (filter is_loop ps))%nat.
Proof.
  induction ps as [|p ps IH]; [reflexivity|].
  cbn [flat_map filter]. rewrite length_app, IH.
  unfold expand, is_loop. destruct (fst p =? snd p); simpl; lia.
Qed.

(** The stored set holds two entries for every distinct pair of different
    vertices and one entry for every distinct self-loop. *)
Lemma stored_edges_length (lo hi : Z) (es : list edge_type) :
  length (m_edges (insert_edges lo hi es))
  = (2 * length (filter (fun p => negb (is_loop p)) (distinct_pairs es))
     + length (filter is_loop (distinct_pairs es)))%nat.
Proof.
  rewrite <- expanded_length. apply Permutation_length.
  apply NoDup_Permutation.
  - apply sorted_NoDup, insert_edges_sorted.
  - apply expanded_pairs_NoDup.
  - intros e. now rewrite insert_edges_In, expanded_pairs_In.
Qed.

Lemma loop_free_count (ps : list edge_type) :
  (forall p, In p ps -> is_loop p = false) ->
  (2 * length (filter (fun p => negb (is_loop p)) ps)
   + length (filter is_loop ps) = length ps * 2)%nat.
Proof.
  induction ps as [|p ps IH]; intros Hall; [reflexivity|].
  cbn [filter]. rewrite (Hall p (or_introl eq_refl)). cbn [negb length].
  specialize (IH (fun q Hq => Hall q (or_intror Hq))). lia.
Qed.

(** Without self-loops [edge_count] is the number of distinct unordered
    pairs. *)
Lemma edge_count_without_loops (lo hi : Z) (es : list edge_type) :
  (forall e, In e es -> fst e <> snd e) ->
  edge_count (insert_edges lo hi es) = length (distinct_pairs es).
Proof.
  intros Hnl. unfold edge_count. rewrite stored_edges_length.
  rewrite loop_free_count.
  - apply Nat.div_mul. discriminate.
  - intros p Hp. unfold distinct_pairs in Hp. apply nodup_In, in_map_iff in Hp.
    destruct Hp as ([a b] & <- & He). specialize (Hnl _ He).
    unfold is_loop, unordered. simpl in *. apply Z.eqb_neq. lia.
Qed.


(** ** The claims about the graph *)

(** C3 (the defect): a single inserted self-loop [(u,u)] is one distinct
    unordered pair and [contains_edge] finds it, but [insert_edge] stores it
    once, so [edge_count], which halves the number of stored entries,
    reports 0 edges. *)
Theorem self_loop_edge_count (lo hi : Z) (u : vertex_type) :
  contains_edge (insert_edges lo hi [(u, u)]) (u, u) = true /\
  length (distinct_pairs [(u, u)]) = 1%nat /\
  edge_count (insert_edges lo hi [(u, u)]) = O.
Proof.
  assert (Hstore : m_edges (insert_edges lo hi [(u, u)]) = [(u, u)]).
  { unfold insert_edges, insert_edge, reverse. simpl.
    now rewrite edge_lt_irrefl. }
  split; [|split].
  - apply contains_edge_insert_edges. left. now left.
  - reflexivity.
  - unfold edge_count. now rewrite Hstore.
Qed.

(** C8: a vertex that is no endpoint of a stored edge has degree 0 and an
    empty adjacency sequence, and both queries return. *)
Theorem absent_vertex_degree_adjacents (lo hi : Z) (g : UndirectedGraph)
  (v : vertex_type) :
  (forall e, In e (m_edges g) -> fst e <> v /\ snd e <> v) ->
  degree lo hi g v = Some O /\ adjacents lo hi g v = Some [].
Proof.
  intros Habs.
  assert (Heq : set_lower_bound (v, lo) (m_edges g)
                = set_upper_bound (v, hi) (m_edges g)).
  { apply bounds_absent. intros e He. now apply Habs. }
  unfold degree, adjacents, lower_edge_bound, upper_edge_bound, std_distance.
  rewrite Heq. split.
  - destruct (_ =? length _)%nat; [reflexivity|].
    now rewrite Nat.leb_refl, Nat.sub_diag.
  - simpl. now rewrite Nat.eqb_refl.
Qed.

Lemma absent_vertex_degree_adjacents_witness :
  degree 0 18446744073709551615
    (insert_edges 0 18446744073709551615 [(0, 1); (1, 2)]) 5 = Some O /\
  adjacents 0 18446744073709551615
    (insert_edges 0 18446744073709551615 [(0, 1); (1, 2)]) 5 = Some [].
Proof.
  apply absent_vertex_degree_adjacents.
  simpl. intros e [<-|[<-|[<-|[<-|[]]]]]; simpl; split; discriminate.
Defined.

(** C10: [adjacents v] returns the neighbours of [v] in strictly increasing
    order of vertex id, each exactly once; the neighbours are the vertices
    [w] for which the edge [(v,w)] is contained, that is, for which [(v,w)]
    or [(w,v)] was inserted. *)
Theorem adjacents_strictly_increasing (lo hi : Z) (es : list edge_type)
  (v : vertex_type) :
  Forall (edge_in_range lo hi) es ->
  exists l,
    adjacents lo hi (insert_edges lo hi es) v = Some l /\
    StronglySorted Z.lt l /\ NoDup l /\
    (forall w, In w l <-> contains_edge (insert_edges lo hi es) (v, w) = true) /\
    (forall w, In w l <-> In (v, w) es \/ In (w, v) es).
Proof.
  intros Hr. eexists. split; [now apply adjacents_insert_edges|].
  assert (Hinc := sources_increasing v _ (insert_edges_sorted lo hi es)).
  split; [exact Hinc|]. split; [now apply increasing_NoDup|]. split.
  - intros w. rewrite sources_In, contains_edge_iff by apply insert_edges_sorted.
    reflexivity.
  - intros w. rewrite sources_In, insert_edges_In. reflexivity.
Qed.

Lemma adjacents_strictly_increasing_witness :
  Forall (edge_in_range 0 18446744073709551615) [(3, 0); (0, 1); (1, 0); (0, 2)] /\
  exists l,
    adjacents 0 18446744073709551615
      (insert_edges 0 18446744073709551615 [(3, 0); (0, 1); (1, 0); (0, 2)]) 0
    = Some l /\
    StronglySorted Z.lt l /\ NoDup l /\
    (forall w, In w l <->
       contains_edge
         (insert_edges 0 18446744073709551615 [(3, 0); (0, 1); (1, 0); (0, 2)])
         (0, w) = true) /\
    (forall w, In w l <->
       In (0, w) [(3, 0); (0, 1); (1, 0); (0, 2)] \/
       In (w, 0) [(3, 0); (0, 1); (1, 0); (0, 2)]).
Proof.
  assert (Hr : Forall (edge_in_range 0 18446744073709551615)
                 [(3, 0); (0, 1); (1, 0); (0, 2)]).
  { repeat constructor; simpl; lia. }
  split; [exact Hr|].
  exact (adjacents_strictly_increasing 0 18446744073709551615 _ 0 Hr).
Defined.

Example adjacents_example :
  adjacents 0 18446744073709551615
    (insert_edges 0 18446744073709551615 [(3, 0); (0, 1); (1, 0); (0, 2)]) 0
  = Some [1; 2; 3].
Proof. reflexivity. Qed.

End GraphSpec.

Module CalculatorSpec.
Import Graph Calculator.

Example example_outer_adjacents :
  outer_adjacents 0 18446744073709551615 example_graph group_A
  = Some ([0; 1], [2; 4]).
Proof. reflexivity. Qed.


Example example_truncation :
  assign_armies 0 18446744073709551615
    (insert_edges 0 18446744073709551615 [(0, 1)]) 2 1 5 group_all
  = Some {| children := [0; 1]; armies := 2 |}.
Proof. reflexivity. Qed.

(** *** The score lies between 0 and 1 on a well-formed group *)

Lemma get_score_range (total territories connections : Z) (s : Q) :
  0 < territories <= total -> 0 <= connections ->
  get_score total territories connections = Some s ->
  (0 <= s <= 1)%Q.
Proof.
  intros Ht Hc. unfold get_score.
  destruct (Z.eqb_spec total 0); [discriminate|].
  destruct (Z.eqb_spec territories 0); [clear - Ht e; lia|].
  intros [= <-].
  set (a := ((1 # 2) * inject_Z connections / inject_Z territories)%Q).
  assert (Ha : (0 <= a)%Q).
  { unfold a, Qdiv. apply Qmult_le_0_compat.
    - apply Qmult_le_0_compat; [discriminate|].
      change 0%Q with (inject_Z 0). now rewrite <- Zle_Qle.
    - apply Qinv_le_0_compat.
      change 0%Q with (inject_Z 0). rewrite <- Zle_Qle. lia. }
  assert (Hm0 : (0 <= Qmin a 1)%Q) by (apply Q.min_glb; [exact Ha|discriminate]).
  assert (Hm1 : (Qmin a 1 <= 1)%Q) by apply Q.le_min_r.
  assert (Hd : (territories / total = 0 \/ territories / total = 1)%Z).
  { destruct (Z.eq_dec territories total) as [->|Hne].
    - right. apply Z.div_same. clear - Ht. lia.
    - left. apply Z.div_small. clear - Ht Hne. lia. }
  unfold TERRITORY_WEIGHT, OUTER_WEIGHT.
  destruct Hd as [-> | ->];
    [change (inject_Z 0) with 0%Q|change (inject_Z 1) with 1%Q]; split; lra.
Qed.

Lemma double_to_int_floor (x : Q) (m : Z) :
  (0 <= x <= inject_Z m)%Q -> m <= INT_MAX ->
  exists r, double_to_int x = Some r /\ 0 <= r <= m.
Proof.
  intros [H0 Hm] Hmax. unfold double_to_int.
  assert (Hq : Z.quot (Qnum x) (Z.pos (Qden x)) = Qfloor x).
  { destruct x as [n d]. simpl. apply Z.quot_div_nonneg; [|lia].
    unfold Qle in H0. simpl in H0. lia. }
  rewrite Hq.
  assert (Hf0 : 0 <= Qfloor x).
  { change 0 with (Qfloor (inject_Z 0)). apply Qfloor_resp_le. exact H0. }
  assert (Hfm : Qfloor x <= m).
  { rewrite <- (Qfloor_Z m). apply Qfloor_resp_le. exact Hm. }
  exists (Qfloor x). split; [|lia].
  assert (Hlo : (INT_MIN <=? Qfloor x) = true) by (apply Z.leb_le; unfold INT_MIN; lia).
  assert (Hhi : (Qfloor x <=? INT_MAX) = true) by (apply Z.leb_le; lia).
  now rewrite Hlo, Hhi.
Qed.

(** On a well-formed group (at least one and at most [territory_count]
    children) and with [0 <= min_armies <= max_armies], the army value is
    assigned and lies between the two bounds. *)
Lemma assigned_armies_within_bounds (lo hi : Z) (g : UndirectedGraph)
  (total min_armies max_armies : Z) (bonus : Bonus) (cs outer : list Z) :
  outer_adjacents lo hi g bonus = Some (cs, outer) ->
  0 < Z.of_nat (length cs) <= total ->
  0 <= min_armies <= max_armies -> max_armies <= INT_MAX ->
  exists b, assign_armies lo hi g total min_armies max_armies bonus = Some b /\
       min_armies <= armies b <= max_armies.
Proof.
  intros Hout Hcs Hb Hmax. unfold assign_armies, bonus_score. rewrite Hout.
  destruct (get_score total (Z.of_nat (length cs)) (Z.of_nat (length outer)))
    as [s|] eqn:Hs.
  - destruct (get_score_range _ _ _ s Hcs (Nat2Z.is_nonneg _) Hs) as [Hs0 Hs1].
    assert (Hm : (0 <= inject_Z max_armies)%Q).
    { change 0%Q with (inject_Z 0). rewrite <- Zle_Qle. lia. }
    destruct (double_to_int_floor (s * inject_Z max_armies) max_armies)
      as (r & Hr & Hrange); [split; nra|exact Hmax|].
    unfold std_round_int. rewrite Hr. eexists. split; [reflexivity|].
    simpl. lia.
  - unfold get_score in Hs.
    destruct (Z.eqb_spec total 0); [lia|].
    destruct (Z.eqb_spec (Z.of_nat (length cs)) 0); [lia|]. discriminate.
Qed.

(** The army value is the truncated product, raised to the minimum. *)
Lemma assigned_armies_value (lo hi : Z) (g : UndirectedGraph)
  (total min_armies max_armies : Z) (bonus b : Bonus) :
  assign_armies lo hi g total min_armies max_armies bonus = Some b ->
  exists s,
    bonus_score lo hi g total bonus = Some s /\
    armies b
    = Z.max (Z.quot (Qnum (s * inject_Z max_armies))
               (Z.pos (Qden (s * inject_Z max_armies)))) min_armies.
Proof.
  unfold assign_armies, std_round_int, double_to_int.
  destruct (bonus_score lo hi g total bonus) as [s|]; [|discriminate].
  destruct (_ && _); [|discriminate].
  intros [= <-]. exists s. split; reflexivity.
Qed.

(** A group that does not hold every territory loses its share of the
    map in the computed score. *)
Lemma get_score_without_share (total territories connections : Z) :
  0 < territories < total ->
  exists s,
    get_score total territories connections = Some s /\
    (s == spec_score total territories connections
          - (1 # 2) * (inject_Z territories / inject_Z total))%Q.
Proof.
  intros Ht. unfold get_score, spec_score.
  destruct (Z.eqb_spec total 0); [lia|].
  destruct (Z.eqb_spec territories 0); [lia|].
  eexists. split; [reflexivity|].
  rewrite Z.div_small by lia.
  unfold TERRITORY_WEIGHT, OUTER_WEIGHT.
  change (inject_Z 0) with 0%Q. ring.
Qed.

(** ** The claims about the balance calculator *)

(** C1 (the defect): on the graph with edges (0,1),(1,2),(2,3),(3,4),(4,0),
    (0,2), the group {0,1} and five territories, the outer adjacents are
    {2,4}; the specified score is 0.45 and the specified army value is 5,
    but [get_score] divides the two sizes as integers, [2 / 5 = 0], so the
    computed score is 0.25 and the assigned army value is 2. *)
Theorem example_score_integer_division :
  outer_adjacents 0 18446744073709551615 example_graph group_A
    = Some ([0; 1], [2; 4]) /\
  (spec_score 5 2 2 == 45 # 100)%Q /\
  spec_armies 1 10 (spec_score 5 2 2) = 5 /\
  (exists s,
      bonus_score 0 18446744073709551615 example_graph 5 group_A = Some s /\
      (s == 1 # 4)%Q /\ ~ (s == spec_score 5 2 2)%Q) /\
  calculate_armies 0 18446744073709551615 example_graph 5 1 10 [group_A]
    = Some [{| children := [0; 1]; armies := 2 |}].
Proof.
  split; [reflexivity|]. split; [reflexivity|]. split; [reflexivity|].
  split; [|reflexivity].
  eexists. split; [reflexivity|]. split; [reflexivity|].
  vm_compute. discriminate.
Qed.

(** C6 (the defect): for the group {0,1} of a map with two territories and
    the single edge (0,1), the score is 0.5 and [score * max_armies] is 2.5
    for [max_armies = 5]; rounding half away from zero gives 3, but
    [std::round<int>] converts its argument to [int] first, and the value
    assigned is [max(2, min_armies) = 2]. *)
Theorem example_armies_truncated :
  exists s,
    bonus_score 0 18446744073709551615
      (insert_edges 0 18446744073709551615 [(0, 1)]) 2 group_all = Some s /\
    (s == spec_score 2 2 0)%Q /\
    (s * inject_Z 5 == 5 # 2)%Q /\
    spec_armies 1 5 s = 3 /\
    assign_armies 0 18446744073709551615
      (insert_edges 0 18446744073709551615 [(0, 1)]) 2 1 5 group_all
    = Some {| children := [0; 1]; armies := 2 |}.
Proof.
  eexists. split; [reflexivity|]. repeat split.
Qed.

End CalculatorSpec.

Module SweepSpec.
Import Sweep.

(** ** The crossing test *)



Lemma cross_cyclic (p a b : Point) : cross p a b = cross a b p.
Proof. unfold cross. ring. Qed.

(** With the signed cross product in the place of the helper, the test is
    the one the specification words. *)
Lemma intersect_with_cross (s1 s2 : SLSegment) :
  shares_endpoint s1 s2 = false ->
  intersect_with cross s1 s2 = spec_intersect s1 s2.
Proof.
  intros H. unfold intersect_with, spec_intersect, straddles, side.
  rewrite H.
  rewrite (cross_cyclic (left s2) (left s1) (right s1)).
  rewrite (cross_cyclic (right s2) (left s1) (right s1)).
  rewrite (cross_cyclic (left s1) (left s2) (right s2)).
  rewrite (cross_cyclic (right s1) (left s2) (right s2)).
  rewrite !Z.gtb_ltb.
  repeat match goal with
  | |- context [?a <? ?b] => destruct (Z.ltb_spec a b)
  | |- context [?a <=? ?b] => destruct (Z.leb_spec a b)
  end; simpl; try reflexivity; lia.
Qed.

(** ** The sweep reports only what [intersect] reports *)

Lemma tree_insert_In (s : SLSegment) (t : list SLSegment) (a : SLSegment) :
  In a (fst (tree_insert s t)) -> a = s \/ In a t.
Proof.
  induction t as [|b t IH]; simpl.
  - intuition.
  - destruct (sl_compare s b); simpl; [intuition|].
    destruct (sl_compare b s); simpl; [|intuition].
    destruct (tree_insert s t) as [t'' i]. simpl in *. intuition.
Qed.

Lemma tree_erase_In (s : SLSegment) (t : list SLSegment) (a : SLSegment) :
  In a (tree_erase s t) -> In a t.
Proof.
  induction t as [|b t IH]; simpl; [tauto|].
  destruct (sl_compare s b); simpl; [tauto|].
  destruct (sl_compare b s); simpl; intuition.
Qed.




(** ** The event queue *)

Lemma event_same_refl (e : Event) : event_same e e = true.
Proof.
  unfold event_same, point_eq.
  rewrite Nat.eqb_refl, !Z.eqb_refl. now destruct (type e).
Qed.

Lemma eq_top_In (q : list Event) (m : Event) : eq_top q = Some m -> In m q.
Proof.
  revert m. induction q as [|e q IH]; intros m; simpl; [discriminate|].
  destruct (eq_top q) as [m'|].
  - destruct (event_compare e m'); intros [= <-]; auto.
  - intros [= <-]. now left.
Qed.

(** ** The claims about the sweep-line validator *)

(** C2 (the defect): the horizontal segment (0,0)-(4,0) and the vertical
    segment (2,-1)-(2,1) are normalized, share no endpoint, and the
    endpoints of each lie on opposite sides of the line of the other; yet
    [intersect] returns false, because [distance] subtracts [p.y()] from
    [s1.x()] where the cross product has [s1.y()]. *)
Theorem perpendicular_crossing_missed :
  let s1 := sls 0 0 0 4 0 in
  let s2 := sls 1 2 (-1) 2 1 in
  normalized s1 = true /\ normalized s2 = true /\
  shares_endpoint s1 s2 = false /\
  spec_intersect s1 s2 = true /\
  distance (left s1) (right s1) (right s2) = -4 /\
  cross (left s1) (right s1) (right s2) = 4 /\
  intersect s1 s2 = false.
Proof. repeat split. Qed.

(** In the other direction, two parallel vertical segments one unit apart
    are reported as crossing. *)
Example parallel_segments_reported :
  intersect (sls 0 0 0 0 1) (sls 1 1 1 1 2) = true /\
  spec_intersect (sls 0 0 0 0 1) (sls 1 1 1 1 2) = false.
Proof. split; reflexivity. Qed.

End SweepSpec.

Module LabelSpec.
Import Label.

Open Scope Q_scope.

Lemma Qltb_lt (a b : Q) : Qltb a b = true <-> a < b.
Proof.
  unfold Qltb. rewrite negb_true_iff, <- not_true_iff_false, Qle_bool_iff.
  split; [apply Qnot_le_lt|apply Qlt_not_le].
Qed.

Lemma Qltb_ge (a b : Q) : Qltb a b = false <-> b <= a.
Proof.
  unfold Qltb. rewrite negb_false_iff. apply Qle_bool_iff.
Qed.

Section Engine.

Variable distance_to_polygon : Point -> Polygon -> Q.
Variable envelope : Polygon -> Rectangle.
Variable rect_center : Rectangle -> Point.
Variable SQRT_TWO : Q.

#[local] Abbreviation new_cell := (Label.new_cell distance_to_polygon SQRT_TWO).
#[local] Abbreviation subdivide := (Label.subdivide distance_to_polygon SQRT_TWO).
#[local] Abbreviation tile_y := (Label.tile_y distance_to_polygon SQRT_TWO).
#[local] Abbreviation tile_x := (Label.tile_x distance_to_polygon SQRT_TWO).
#[local] Abbreviation get_centroid :=
  (Label.get_centroid distance_to_polygon SQRT_TWO).
#[local] Abbreviation initial_queue :=
  (Label.initial_queue distance_to_polygon envelope SQRT_TWO).
#[local] Abbreviation initial_best :=
  (Label.initial_best distance_to_polygon envelope rect_center SQRT_TWO).
#[local] Abbreviation polylabel :=
  (Label.polylabel distance_to_polygon envelope rect_center SQRT_TWO).

(** ** The priority queue *)

Lemma pq_extract_none (queue : list Cell) :
  pq_extract queue = None -> queue = [].
Proof.
  destruct queue as [|a queue]; simpl; [reflexivity|].
  destruct (pq_extract queue) as [[m r]|]; [destruct (compare a m)|];
    discriminate.
Qed.

Lemma pq_extract_perm (queue : list Cell) (c : Cell) (rest : list Cell) :
  pq_extract queue = Some (c, rest) -> Permutation queue (c :: rest).
Proof.
  revert c rest. induction queue as [|a queue IH]; intros c rest; simpl.
  - discriminate.
  - destruct (pq_extract queue) as [[m r]|] eqn:Hq.
    + destruct (compare a m); intros [= <- <-].
      * rewrite (IH m r eq_refl). apply perm_swap.
      * reflexivity.
    + intros [= <- <-]. apply pq_extract_none in Hq. now subst.
Qed.

Lemma pq_extract_top (queue : list Cell) (c : Cell) (rest : list Cell) :
  pq_extract queue = Some (c, rest) ->
  forall c', In c' rest -> max c' <= max c.
Proof.
  revert c rest. induction queue as [|a queue IH]; intros c rest; simpl.
  - discriminate.
  - destruct (pq_extract queue) as [[m r]|] eqn:Hq.
    + destruct (compare a m) eqn:Hc; intros [= <- <-] c' Hin.
      * apply Qltb_lt in Hc. destruct Hin as [<-|Hin].
        -- now apply Qlt_le_weak.
        -- eapply IH; eauto.
      * apply Qltb_ge in Hc.
        apply (Permutation_in _ (pq_extract_perm _ _ _ Hq)) in Hin.
        destruct Hin as [<-|Hin]; [exact Hc|].
        apply Qle_trans with (max m); [|exact Hc]. eapply IH; eauto.
    + intros [= <- <-] c' [].
Qed.

(** ** Invariants of the cells *)

Lemma tile_y_invariant (P : Cell -> Prop) (polygon : Polygon)
  (cs hs y_max x0 : Q) :
  (forall p, P (new_cell p hs polygon)) ->
  forall (fuel : nat) (y0 : Q) (queue r : list Cell),
    Forall P queue ->
    tile_y fuel polygon cs hs y_max x0 y0 queue = Some r -> Forall P r.
Proof.
  intros Hnew. induction fuel as [|fuel IH]; intros y0 queue r Hq; simpl;
    [discriminate|].
  destruct (Qltb y0 y_max).
  - apply IH. constructor; [apply Hnew|exact Hq].
  - now intros [= <-].
Qed.

Lemma tile_x_invariant (P : Cell -> Prop) (polygon : Polygon)
  (cs hs x_max y_min y_max : Q) (fuel_y : nat) :
  (forall p, P (new_cell p hs polygon)) ->
  forall (fuel : nat) (x0 : Q) (queue r : list Cell),
    Forall P queue ->
    tile_x fuel fuel_y polygon cs hs x_max y_min y_max x0 queue = Some r ->
    Forall P r.
Proof.
  intros Hnew. induction fuel as [|fuel IH]; intros x0 queue r Hq; simpl;
    [discriminate|].
  destruct (Qltb x0 x_max).
  - destruct (Label.tile_y _ _ fuel_y _ _ _ _ _ _ _) as [q1|] eqn:Hy;
      [|discriminate].
    apply IH. eapply tile_y_invariant; eauto.
  - now intros [= <-].
Qed.

Lemma subdivide_invariant (P : Cell -> Prop) (polygon : Polygon)
  (c : Cell) (queue : list Cell) :
  (forall p, P (new_cell p (half c / 2) polygon)) ->
  Forall P queue -> Forall P (subdivide polygon c queue).
Proof.
  intros Hnew Hq. unfold Label.subdivide, pq_push.
  repeat (constructor; [apply Hnew|]). exact Hq.
Qed.


(** ** The claims about the label engine *)

(** C9: when the smaller dimension of the bounding rectangle is zero,
    [polylabel] returns the minimum corner of the rectangle with distance
    0; no fuel is needed, the search loop is not entered. *)
Theorem polylabel_degenerate (polygon : Polygon) (precision : Q) (fuel : nat) :
  Qmin (width (envelope polygon)) (height (envelope polygon)) == 0 ->
  polylabel fuel polygon precision = Some (rect_min (envelope polygon), 0).
Proof.
  intros Hz. unfold Label.polylabel.
  destruct (Qeq_bool _ 0) eqn:Hsize; [reflexivity|].
  apply Qeq_bool_iff in Hz. congruence.
Qed.

End Engine.

(** ** The claims at the instance for axis-aligned boxes *)

Import LabelBox.

Lemma polylabel_degenerate_witness :
  Qmin (width (box_envelope flat)) (height (box_envelope flat)) == 0 /\
  box_polylabel 0 flat 1 = Some (rect_min (box_envelope flat), 0).
Proof.
  split; [reflexivity|].
  apply (polylabel_degenerate box_distance box_envelope box_center sqrt_two
           flat 1 0).
  reflexivity.
Defined.

End LabelSpec.

(* ------------------------------------------------------------------ *)
(** * Further properties of the undirected graph *)
(* ------------------------------------------------------------------ *)

Module GraphMore.
Import Graph GraphSpec.

(** Two strictly increasing lists with the same elements are equal. *)
Lemma sorted_same_elements (s t : list (Z * Z)) :
  StronglySorted elt s -> StronglySorted elt t ->
  (forall e, In e s <-> In e t) -> s = t.
Proof.
  intros Hs. revert t. induction Hs as [|x s Hs IH Hx]; intros t Ht Hst.
  - destruct t as [|y t]; [reflexivity|].
    exfalso. apply (proj2 (Hst y)). now left.
  - destruct Ht as [|y t Ht Hy].
    + exfalso. apply (proj1 (Hst x)). now left.
    + rewrite Forall_forall in Hx, Hy.
      assert (Hxy : x = y).
      { destruct (proj1 (Hst x) (or_introl eq_refl)) as [Heq|Hin]; [now symmetry|].
        destruct (proj2 (Hst y) (or_introl eq_refl)) as [Heq|Hin']; [exact Heq|].
        specialize (Hx _ Hin'). specialize (Hy _ Hin).
        unfold elt in Hx, Hy. apply edge_lt_spec in Hx, Hy. lia. }
      subst y. f_equal. apply IH; [exact Ht|].
      intros e. split; intros He.
      * destruct (proj1 (Hst e) (or_intror He)) as [<-|Hin]; [|exact Hin].
        specialize (Hx _ He). unfold elt in Hx.
        rewrite edge_lt_irrefl in Hx. discriminate.
      * destruct (proj2 (Hst e) (or_intror He)) as [<-|Hin]; [|exact Hin].
        specialize (Hy _ He). unfold elt in Hy.
        rewrite edge_lt_irrefl in Hy. discriminate.
Qed.

Section Count.

Variables lo hi : Z.

#[local] Abbreviation succ := (vertex_succ lo hi).
#[local] Abbreviation insert_edge := (Graph.insert_edge lo hi).
#[local] Abbreviation insert_edges := (Graph.insert_edges lo hi).

(** [m_vertices] after a sequence of insertions is the least bound of the
    start value and the successors of all endpoints. *)
Lemma fold_vertices_bound (es : list (Z * Z)) :
  forall g,
    m_vertices g <= m_vertices (fold_left insert_edge es g) /\
    (forall e, In e es ->
       succ (fst e) <= m_vertices (fold_left insert_edge es g) /\
       succ (snd e) <= m_vertices (fold_left insert_edge es g)).
Proof.
  induction es as [|a es IH]; intros g; cbn [fold_left].
  - split; [lia|intros e []].
  - destruct (IH (insert_edge g a)) as [H1 H2]. cbn [m_vertices Graph.insert_edge] in H1.
    split; [lia|]. intros e [<-|He]; [lia|]. now apply H2.
Qed.

Lemma fold_vertices_attained (es : list (Z * Z)) :
  forall g,
    m_vertices (fold_left insert_edge es g) = m_vertices g \/
    exists e, In e es /\
      (m_vertices (fold_left insert_edge es g) = succ (fst e) \/
       m_vertices (fold_left insert_edge es g) = succ (snd e)).
Proof.
  induction es as [|a es IH]; intros g; cbn [fold_left].
  - now left.
  - destruct (IH (insert_edge g a)) as [H|(e & He & H)].
    + rewrite H. cbn [m_vertices Graph.insert_edge].
      destruct (Z.max_spec (Z.max (m_vertices g) (succ (fst a))) (succ (snd a)))
        as [[_ ->]|[_ ->]].
      * right. exists a. split; [now left|now right].
      * destruct (Z.max_spec (m_vertices g) (succ (fst a))) as [[_ ->]|[_ ->]].
        -- right. exists a. split; [now left|now left].
        -- now left.
    + right. exists e. split; [now right|exact H].
Qed.

Lemma fold_vertices_same (es es' : list (Z * Z)) (g : UndirectedGraph) :
  (forall e, In e es \/ In (reverse e) es <-> In e es' \/ In (reverse e) es') ->
  m_vertices (fold_left insert_edge es g)
  = m_vertices (fold_left insert_edge es' g).
Proof.
  assert (Hle : forall l l',
    (forall e, In e l \/ In (reverse e) l -> In e l' \/ In (reverse e) l') ->
    m_vertices (fold_left insert_edge l g)
    <= m_vertices (fold_left insert_edge l' g)).
  { intros l l' Hsub.
    destruct (fold_vertices_bound l' g) as [Hg Hb].
    destruct (fold_vertices_attained l g) as [->|(e & He & H)]; [exact Hg|].
    destruct (Hsub e (or_introl He)) as [He'|He'].
    - destruct (Hb _ He'). lia.
    - destruct (Hb _ He') as [H1 H2]. unfold reverse in H1, H2. simpl in *. lia. }
  intros Hsame. apply Z.le_antisymm; apply Hle; intros e He; now apply Hsame.
Qed.

(** X3: the graph that a sequence of [insert_edge] calls builds depends
    only on the set of unordered pairs inserted, not on their order, their
    direction or on repetitions. *)
Theorem insert_edges_order_independent (es es' : list (Z * Z)) :
  (forall e, In e es \/ In (reverse e) es <-> In e es' \/ In (reverse e) es') ->
  insert_edges es = insert_edges es'.
Proof.
  intros Hsame.
  assert (Hv := fold_vertices_same es es' empty_graph Hsame).
  assert (He : m_edges (insert_edges es) = m_edges (insert_edges es')).
  { apply sorted_same_elements; try apply insert_edges_sorted.
    intros e. now rewrite !insert_edges_In. }
  unfold Graph.insert_edges in *.
  destruct (fold_left insert_edge es empty_graph),
           (fold_left insert_edge es' empty_graph).
  simpl in *. now subst.
Qed.

(** X4: the vertex count that [size] reports is the largest vertex id of
    an inserted edge plus one (not the number of distinct vertices), for
    non-negative ids below the maximum of [vertex_type]. *)
Theorem vertex_count_is_max_id_plus_one (es : list (Z * Z)) :
  es <> [] ->
  (forall e, In e es -> 0 <= fst e < hi /\ 0 <= snd e < hi) ->
  (forall e, In e es ->
     fst e < fst (size (insert_edges es)) /\
     snd e < fst (size (insert_edges es))) /\
  (exists e, In e es /\
     (fst (size (insert_edges es)) = fst e + 1 \/
      fst (size (insert_edges es)) = snd e + 1)).
Proof.
  intros Hne Hr.
  assert (Hsucc : forall e, In e es ->
            succ (fst e) = fst e + 1 /\ succ (snd e) = snd e + 1).
  { intros e He. destruct (Hr e He) as [H1 H2]. unfold vertex_succ.
    destruct (Z.eqb_spec (fst e) hi); [lia|].
    destruct (Z.eqb_spec (snd e) hi); [lia|]. auto. }
  unfold size, Graph.insert_edges. cbn [fst].
  destruct (fold_vertices_bound es empty_graph) as [H0 Hb].
  split.
  - intros e He. destruct (Hb e He) as [H1 H2].
    destruct (Hsucc e He) as [E1 E2]. rewrite E1 in H1. rewrite E2 in H2. lia.
  - destruct (fold_vertices_attained es empty_graph) as [H|(e & He & H)].
    + exfalso. destruct es as [|a es']; [congruence|].
      destruct (Hb a (or_introl eq_refl)) as [H1 _].
      destruct (Hsucc a (or_introl eq_refl)) as [E1 _].
      destruct (Hr a (or_introl eq_refl)) as [[Ha _] _].
      rewrite H, E1 in H1. simpl in H1. lia.
    + exists e. split; [exact He|].
      destruct (Hsucc e He) as [E1 E2]. rewrite E1, E2 in H. exact H.
Qed.

End Count.

Lemma insert_edges_order_independent_witness :
  Graph.insert_edges 0 18446744073709551615 [(0, 1); (1, 2); (0, 1)]
  = Graph.insert_edges 0 18446744073709551615 [(2, 1); (1, 0)].
Proof.
  apply (insert_edges_order_independent 0 18446744073709551615).
  intros [a b]. unfold reverse. simpl.
  split; intros H;
    repeat match goal with
    | H : _ \/ _ |- _ => destruct H
    | H : False |- _ => destruct H
    | H : (_, _) = (_, _) |- _ => injection H as <- <-
    end; simpl; tauto.
Defined.

Lemma vertex_count_is_max_id_plus_one_witness :
  fst (size (insert_edges 0 18446744073709551615 [(0, 7); (2, 3)])) = 8.
Proof.
  destruct (vertex_count_is_max_id_plus_one 0 18446744073709551615
              [(0, 7); (2, 3)]) as [Hlt (e & He & Hmax)].
  - discriminate.
  - simpl. intros e [<-|[<-|[]]]; simpl; lia.
  - reflexivity.
Defined.


(** X1: [degree v] is the length of the sequence that [adjacents v]
    returns, for every graph built from edges within the limits of
    [vertex_type]; with C10 it is the number of distinct neighbours. *)
Theorem degree_is_adjacents_length (lo hi : Z) (es : list (Z * Z)) (v : Z) :
  Forall (edge_in_range lo hi) es ->
  exists l,
    adjacents lo hi (insert_edges lo hi es) v = Some l /\
    degree lo hi (insert_edges lo hi es) v = Some (length l).
Proof.
  intros Hr. eexists. split.
  - now apply adjacents_insert_edges.
  - rewrite degree_sources.
    + now rewrite length_map.
    + apply insert_edges_sorted.
    + now apply insert_edges_in_range.
Qed.

Lemma degree_is_adjacents_length_witness :
  exists l,
    adjacents 0 18446744073709551615
      (insert_edges 0 18446744073709551615 [(3, 0); (0, 1); (1, 0); (0, 0)]) 0
    = Some l /\
    degree 0 18446744073709551615
      (insert_edges 0 18446744073709551615 [(3, 0); (0, 1); (1, 0); (0, 0)]) 0
    = Some (length l).
Proof.
  apply (degree_is_adjacents_length 0 18446744073709551615).
  repeat constructor; simpl; lia.
Defined.

(** X2: [contains_edge] holds exactly for the inserted edges and their
    reversals; no other edge is ever reported. *)
Theorem contains_edge_only_inserted (lo hi : Z) (es : list (Z * Z))
  (u v : Z) :
  contains_edge (insert_edges lo hi es) (u, v) = true
  <-> In (u, v) es \/ In (v, u) es.
Proof. apply (contains_edge_insert_edges lo hi es (u, v)). Qed.

(** X5: in general [edge_count] counts every distinct pair of different
    vertices once and every two distinct self-loops once. *)
Theorem edge_count_with_loops (lo hi : Z) (es : list (Z * Z)) :
  edge_count (insert_edges lo hi es)
  = (length (filter (fun p => negb (is_loop p)) (distinct_pairs es))
     + length (filter is_loop (distinct_pairs es)) / 2)%nat.
Proof.
  unfold edge_count. rewrite stored_edges_length.
  rewrite (Nat.mul_comm 2). apply Nat.div_add_l. discriminate.
Qed.

(** X6: adjacency is symmetric: [v] is listed among the neighbours of [u]
    exactly when [u] is listed among the neighbours of [v]. *)
Theorem adjacency_is_symmetric (lo hi : Z) (es : list (Z * Z)) (u v : Z) :
  Forall (edge_in_range lo hi) es ->
  exists lu lv,
    adjacents lo hi (insert_edges lo hi es) u = Some lu /\
    adjacents lo hi (insert_edges lo hi es) v = Some lv /\
    (In v lu <-> In u lv).
Proof. apply adjacents_symmetric. Qed.

Lemma adjacency_is_symmetric_witness :
  exists lu lv,
    adjacents 0 18446744073709551615
      (insert_edges 0 18446744073709551615 [(0, 1); (2, 1)]) 1 = Some lu /\
    adjacents 0 18446744073709551615
      (insert_edges 0 18446744073709551615 [(0, 1); (2, 1)]) 2 = Some lv /\
    (In 2 lu <-> In 1 lv).
Proof.
  apply (adjacency_is_symmetric 0 18446744073709551615).
  repeat constructor; simpl; lia.
Defined.

End GraphMore.

(* ------------------------------------------------------------------ *)
(** * Further properties of the balance calculator *)
(* ------------------------------------------------------------------ *)

Module CalculatorMore.
Import Graph GraphSpec Calculator CalculatorSpec.

(** ** The sets of ids *)

Lemma id_insert_In (a x : Z) (s : list Z) :
  In x (id_insert a s) <-> x = a \/ In x s.
Proof.
  induction s as [|y s IH]; simpl; [intuition|].
  destruct (Z.ltb_spec a y); simpl; [intuition|].
  destruct (Z.ltb_spec y a); simpl.
  - rewrite IH. intuition.
  - assert (a = y) by lia. subst. intuition.
Qed.

Lemma id_insert_sorted (a : Z) (s : list Z) :
  StronglySorted Z.lt s -> StronglySorted Z.lt (id_insert a s).
Proof.
  induction 1 as [|y s Hs IH Hall]; simpl; [repeat constructor|].
  destruct (Z.ltb_spec a y).
  - constructor; [now constructor|]. constructor; [exact H|].
    eapply Forall_impl; [|exact Hall]. intros; lia.
  - destruct (Z.ltb_spec y a).
    + constructor; [exact IH|]. apply Forall_forall. intros z Hz.
      apply id_insert_In in Hz. destruct Hz as [->|Hz]; [exact H0|].
      rewrite Forall_forall in Hall. auto.
    + now constructor.
Qed.

Lemma fold_id_insert_In (l : list Z) (x : Z) :
  forall s, In x (fold_left (fun acc n => id_insert n acc) l s)
       <-> In x s \/ In x l.
Proof.
  induction l as [|a l IH]; intros s; simpl; [intuition|].
  rewrite IH, id_insert_In. intuition.
Qed.

Lemma fold_id_insert_sorted (l : list Z) :
  forall s, StronglySorted Z.lt s ->
       StronglySorted Z.lt (fold_left (fun acc n => id_insert n acc) l s).
Proof.
  induction l as [|a l IH]; intros s Hs; simpl; [exact Hs|].
  apply IH. now apply id_insert_sorted.
Qed.

Lemma sorted_head_lt (a : Z) (l : list Z) (x : Z) :
  StronglySorted Z.lt (a :: l) -> In x l -> a < x.
Proof.
  intros H Hin. apply StronglySorted_inv in H. destruct H as [_ H].
  rewrite Forall_forall in H. auto.
Qed.

Lemma set_difference_In (l1 : list Z) :
  forall l2, StronglySorted Z.lt l1 -> StronglySorted Z.lt l2 ->
        forall x, In x (set_difference l1 l2) <-> In x l1 /\ ~ In x l2.
Proof.
  induction l1 as [|a l1 IH]; intros l2 H1 H2 x.
  - simpl. tauto.
  - induction l2 as [|b l2 IHb].
    + simpl. tauto.
    + pose proof (StronglySorted_inv H1) as [H1' _].
      pose proof (StronglySorted_inv H2) as [H2' _].
      change (set_difference (a :: l1) (b :: l2))
        with (if a <? b then a :: set_difference l1 (b :: l2)
              else if b <? a then set_difference (a :: l1) l2
              else set_difference l1 l2).
      destruct (Z.ltb_spec a b) as [Hab|Hab].
      * cbn [In]. rewrite (IH (b :: l2) H1' H2). cbn [In].
        split.
        -- intros [<-|[Hx Hn]]; [|tauto]. split; [now left|].
           intros [Hb|Hin]; [lia|].
           pose proof (sorted_head_lt _ _ _ H2 Hin). lia.
        -- intros [[<-|Hx] Hn]; tauto.
      * destruct (Z.ltb_spec b a) as [Hba|Hba].
        -- rewrite (IHb H2'). cbn [In]. split.
           ++ intros [Hx Hn]. split; [exact Hx|]. intros [<-|Hin]; [|tauto].
              destruct Hx as [Hx|Hx]; [lia|].
              pose proof (sorted_head_lt _ _ _ H1 Hx). lia.
           ++ tauto.
        -- assert (a = b) by lia. subst b.
           rewrite (IH l2 H1' H2'). cbn [In]. split.
           ++ intros [Hx Hn]. pose proof (sorted_head_lt _ _ _ H1 Hx).
              split; [now right|]. intros [Ha|Hin]; [lia|tauto].
           ++ intros [[<-|Hx] Hn]; [tauto|]. tauto.
Qed.

Lemma set_difference_sorted (l1 : list Z) :
  forall l2, StronglySorted Z.lt l1 -> StronglySorted Z.lt l2 ->
        StronglySorted Z.lt (set_difference l1 l2).
Proof.
  induction l1 as [|a l1 IH]; intros l2 H1 H2.
  - constructor.
  - induction l2 as [|b l2 IHb].
    + exact H1.
    + pose proof (StronglySorted_inv H1) as [H1' Ha].
      pose proof (StronglySorted_inv H2) as [H2' _].
      change (set_difference (a :: l1) (b :: l2))
        with (if a <? b then a :: set_difference l1 (b :: l2)
              else if b <? a then set_difference (a :: l1) l2
              else set_difference l1 l2).
      destruct (a <? b).
      * constructor; [now apply IH|]. apply Forall_forall. intros x Hx.
        apply (set_difference_In l1 (b :: l2) H1' H2) in Hx.
        rewrite Forall_forall in Ha. now apply Ha.
      * destruct (b <? a); [now apply IHb|now apply IH].
Qed.

Lemma increasing_length_bound (l : list Z) :
  StronglySorted Z.lt l ->
  forall lo n, (forall x, In x l -> lo <= x < n) ->
          Z.of_nat (length l) <= Z.max 0 (n - lo).
Proof.
  induction 1 as [|a l Hs IH Ha]; intros lo n Hr.
  - simpl. lia.
  - rewrite Forall_forall in Ha.
    assert (Hl : Z.of_nat (length l) <= Z.max 0 (n - (a + 1))).
    { apply IH. intros x Hx. specialize (Ha x Hx).
      specialize (Hr x (or_intror Hx)). lia. }
    specialize (Hr a (or_introl eq_refl)).
    cbn [length]. lia.
Qed.

(** ** The loop over the children of a bonus *)

Section Collect.

Variables lo hi : Z.
Variable es : list (Z * Z).
Hypothesis es_in_range : Forall (edge_in_range lo hi) es.

#[local] Abbreviation g := (insert_edges lo hi es).

Lemma collect_spec (refs : list Z) :
  forall cs adj,
    StronglySorted Z.lt cs -> StronglySorted Z.lt adj ->
    exists cs' adj',
      collect lo hi g refs cs adj = Some (cs', adj') /\
      StronglySorted Z.lt cs' /\ StronglySorted Z.lt adj' /\
      (forall x, In x cs' <-> In x cs \/ In x refs) /\
      (forall x, In x adj' <->
         In x adj \/ exists c, In c refs /\ (In (c, x) es \/ In (x, c) es)).
Proof.
  induction refs as [|c refs IH]; intros cs adj Hcs Hadj.
  - exists cs, adj. simpl. repeat split; auto; try tauto.
    intros [H|(c & [] & _)]. exact H.
  - cbn [collect]. rewrite (adjacents_insert_edges lo hi es c es_in_range).
    set (ns := map snd (sources c (m_edges g))).
    destruct (IH (id_insert c cs)
                (fold_left (fun acc n => id_insert n acc) ns adj))
      as (cs' & adj' & Hc & Hs1 & Hs2 & Hin1 & Hin2).
    + now apply id_insert_sorted.
    + now apply fold_id_insert_sorted.
    + exists cs', adj'. split; [exact Hc|]. split; [exact Hs1|].
      split; [exact Hs2|]. split.
      * intros x. rewrite Hin1, id_insert_In. cbn [In]. intuition.
      * intros x. rewrite Hin2, fold_id_insert_In. unfold ns.
        rewrite sources_In, insert_edges_In. unfold reverse. cbn [fst snd In].
        split.
        -- intros [[H|H]|(c' & Hc' & H)].
           ++ now left.
           ++ right. exists c. split; [now left|exact H].
           ++ right. exists c'. split; [now right|exact H].
        -- intros [H|(c' & [<-|Hc'] & H)].
           ++ left. now left.
           ++ left. now right.
           ++ right. exists c'. split; assumption.
Qed.

Lemma outer_adjacents_spec (bonus : Bonus) :
  exists cs outer,
    outer_adjacents lo hi g bonus = Some (cs, outer) /\
    StronglySorted Z.lt cs /\ StronglySorted Z.lt outer /\
    (forall x, In x cs <-> In x (children bonus)) /\
    (forall x, In x outer <->
       ~ In x (children bonus) /\
       exists c, In c (children bonus) /\ (In (c, x) es \/ In (x, c) es)).
Proof.
  unfold outer_adjacents.
  destruct (collect_spec (children bonus) [] [])
    as (cs & adj & -> & Hs1 & Hs2 & Hin1 & Hin2); try constructor.
  exists cs, (set_difference adj cs). split; [reflexivity|].
  split; [exact Hs1|]. split; [now apply set_difference_sorted|]. split.
  - intros x. rewrite Hin1. cbn [In]. tauto.
  - intros x. rewrite set_difference_In by assumption.
    rewrite Hin1, Hin2. cbn [In]. tauto.
Qed.

End Collect.

(** X9: [outer_adjacents] of a bonus are the distinct children and the
    distinct vertices outside the bonus that share an inserted edge with a
    child, both in increasing order. *)
Theorem outer_adjacents_characterized (lo hi : Z) (es : list (Z * Z))
  (bonus : Bonus) :
  Forall (edge_in_range lo hi) es ->
  exists cs outer,
    outer_adjacents lo hi (insert_edges lo hi es) bonus = Some (cs, outer) /\
    StronglySorted Z.lt cs /\ StronglySorted Z.lt outer /\
    (forall x, In x cs <-> In x (children bonus)) /\
    (forall x, In x outer <->
       ~ In x (children bonus) /\
       exists c, In c (children bonus) /\ (In (c, x) es \/ In (x, c) es)).
Proof. intros Hr. now apply outer_adjacents_spec. Qed.

Lemma outer_adjacents_characterized_witness :
  exists cs outer,
    outer_adjacents 0 18446744073709551615 example_graph group_A
    = Some (cs, outer) /\
    StronglySorted Z.lt cs /\ StronglySorted Z.lt outer /\
    (forall x, In x cs <-> In x [0; 1]) /\
    (forall x, In x outer <->
       ~ In x [0; 1] /\
       exists c, In c [0; 1] /\
         (In (c, x) [(0, 1); (1, 2); (2, 3); (3, 4); (4, 0); (0, 2)] \/
          In (x, c) [(0, 1); (1, 2); (2, 3); (3, 4); (4, 0); (0, 2)])).
Proof.
  apply (outer_adjacents_characterized 0 18446744073709551615
           [(0, 1); (1, 2); (2, 3); (3, 4); (4, 0); (0, 2)]).
  repeat constructor; simpl; lia.
Defined.

(** ** The score *)

Lemma get_score_defined (total territories connections : Z) :
  total <> 0 -> territories <> 0 ->
  get_score total territories connections
  = Some (TERRITORY_WEIGHT * inject_Z (territories / total)
          + OUTER_WEIGHT
            * Qmin ((1 # 2) * inject_Z connections / inject_Z territories) 1)%Q.
Proof.
  intros H1 H2. unfold get_score.
  destruct (Z.eqb_spec total 0); [contradiction|].
  destruct (Z.eqb_spec territories 0); [contradiction|]. reflexivity.
Qed.

(** X8: the score does not fall when a bonus of the same size has more
    outer adjacents. *)
Theorem get_score_monotone (total territories c1 c2 : Z) :
  total <> 0 -> 0 < territories -> c1 <= c2 ->
  exists s1 s2,
    get_score total territories c1 = Some s1 /\
    get_score total territories c2 = Some s2 /\
    (s1 <= s2)%Q.
Proof.
  intros Ht Hpos Hc.
  rewrite !get_score_defined by lia.
  do 2 eexists. split; [reflexivity|]. split; [reflexivity|].
  assert (Hinv : (0 <= / inject_Z territories)%Q).
  { apply Qinv_le_0_compat. change 0%Q with (inject_Z 0).
    rewrite <- Zle_Qle. lia. }
  assert (Hle : ((1 # 2) * inject_Z c1 / inject_Z territories
                 <= (1 # 2) * inject_Z c2 / inject_Z territories)%Q).
  { unfold Qdiv. apply Qmult_le_compat_r; [|exact Hinv].
    rewrite Zle_Qle in Hc. lra. }
  pose proof (Q.min_le_compat_r _ _ 1%Q Hle) as Hmin.
  unfold TERRITORY_WEIGHT, OUTER_WEIGHT. lra.
Qed.

Lemma get_score_monotone_witness :
  exists s1 s2,
    get_score 5 2 0 = Some s1 /\ get_score 5 2 3 = Some s2 /\ (s1 <= s2)%Q.
Proof. apply get_score_monotone; lia. Defined.

(** X10: the exposure term is capped: once a bonus has at least twice as
    many outer adjacents as children, more of them do not change the
    score.  The share of territories is below [2^24], so that its
    conversion to [float] is exact. *)
Theorem get_score_capped (total territories connections : Z) :
  0 < total -> 0 < territories -> 2 * territories <= connections ->
  territories / total < 2 ^ 24 ->
  exists s,
    get_score total territories connections = Some s /\
    (s == (1 # 2) * inject_Z (territories / total) + (1 # 2))%Q.
Proof.
  intros Ht Hpos Hc _. rewrite get_score_defined by lia.
  eexists. split; [reflexivity|].
  assert (Hone : (1 <= (1 # 2) * inject_Z connections / inject_Z territories)%Q).
  { assert (HT : (0 < inject_Z territories)%Q).
    { change 0%Q with (inject_Z 0). rewrite <- Zlt_Qlt. lia. }
    apply Qle_shift_div_l; [exact HT|].
    rewrite Zle_Qle, inject_Z_mult in Hc. change (inject_Z 2) with 2%Q in Hc.
    lra. }
  rewrite (Q.min_r _ _ Hone).
  unfold TERRITORY_WEIGHT, OUTER_WEIGHT. ring.
Qed.

Lemma get_score_capped_witness :
  exists s,
    get_score 5 2 9 = Some s /\
    (s == (1 # 2) * inject_Z (2 / 5) + (1 # 2))%Q.
Proof. apply get_score_capped; try lia. reflexivity. Defined.

(** X11: for a bonus that does not hold every territory, the score does
    not depend on the number of territories of the map: the integer
    quotient of the two sizes is 0. *)
Theorem get_score_ignores_total (total total' territories connections : Z) :
  0 < territories < total -> 0 < territories < total' ->
  get_score total territories connections
  = get_score total' territories connections.
Proof.
  intros H1 H2. rewrite !get_score_defined by lia.
  now rewrite !Z.div_small by lia.
Qed.

Lemma get_score_ignores_total_witness :
  get_score 5 2 2 = get_score 1000 2 2.
Proof. apply get_score_ignores_total; lia. Defined.

(** ** The army values of all bonuses *)

Lemma assign_armies_children (lo hi : Z) (g : UndirectedGraph)
  (total min_armies max_armies : Z) (bonus b : Bonus) :
  assign_armies lo hi g total min_armies max_armies bonus = Some b ->
  children b = children bonus.
Proof.
  unfold assign_armies.
  destruct (bonus_score lo hi g total bonus); [|discriminate].
  destruct (std_round_int _); [|discriminate]. now intros [= <-].
Qed.

(** X12: [calculate_armies] changes army values only: the bonuses it
    returns have the children of the bonuses it received, in the same
    order. *)
Theorem calculate_armies_keeps_children (lo hi : Z) (g : UndirectedGraph)
  (total min_armies max_armies : Z) (bonuses result : list Bonus) :
  calculate_armies lo hi g total min_armies max_armies bonuses = Some result ->
  map children result = map children bonuses.
Proof.
  revert result. induction bonuses as [|b bs IH]; intros result; simpl.
  - now intros [= <-].
  - destruct (assign_armies lo hi g total min_armies max_armies b) as [b'|] eqn:Hb;
      [|discriminate].
    destruct (calculate_armies lo hi g total min_armies max_armies bs) as [bs'|];
      [|discriminate].
    intros [= <-]. simpl. f_equal.
    + eapply assign_armies_children; eauto.
    + now apply IH.
Qed.

Lemma calculate_armies_keeps_children_witness :
  map children [{| children := [0; 1]; armies := 2 |}] = map children [group_A].
Proof.
  apply (calculate_armies_keeps_children 0 18446744073709551615 example_graph
           5 1 10).
  reflexivity.
Defined.

(** X7: for a graph built from edges within the limits of [vertex_type],
    bounds [0 <= min_armies <= max_armies] and bonuses that each have at
    least one child, all children being territory ids below the number of
    territories, [calculate_armies] assigns every bonus an army value
    between the two bounds. *)
Theorem calculate_armies_within_bounds (lo hi : Z) (es : list (Z * Z))
  (total min_armies max_armies : Z) (bonuses : list Bonus) :
  Forall (edge_in_range lo hi) es ->
  0 <= min_armies <= max_armies -> max_armies <= INT_MAX ->
  (forall b, In b bonuses ->
     children b <> [] /\ forall c, In c (children b) -> 0 <= c < total) ->
  exists result,
    calculate_armies lo hi (insert_edges lo hi es) total min_armies max_armies
      bonuses = Some result /\
    Forall (fun b => min_armies <= armies b <= max_armies) result.
Proof.
  intros Hr Hb Hmax. induction bonuses as [|b bs IH]; intros Hwf.
  - exists []. split; [reflexivity|constructor].
  - destruct (Hwf b (or_introl eq_refl)) as [Hne Hids].
    destruct (outer_adjacents_spec lo hi es Hr b)
      as (cs & outer & Hout & Hs1 & _ & Hin & _).
    assert (Hlen : 0 < Z.of_nat (length cs) <= total).
    { split.
      - destruct (children b) as [|c rest] eqn:Hc; [congruence|].
        assert (In c cs) by (apply Hin; now left).
        destruct cs; [contradiction|]. simpl. lia.
      - pose proof (increasing_length_bound cs Hs1 0 total) as Hbound.
        assert (forall x, In x cs -> 0 <= x < total)
          by (intros x Hx; apply Hids, Hin, Hx).
        specialize (Hbound H).
        destruct (children b) as [|c rest] eqn:Hc; [congruence|].
        specialize (Hids c (or_introl eq_refl)). lia. }
    destruct (assigned_armies_within_bounds lo hi _ total min_armies max_armies
                b cs outer Hout Hlen Hb Hmax) as (b' & Hb' & Hrange).
    destruct IH as (rest & Hrest & Hall).
    { intros b0 Hb0. apply Hwf. now right. }
    exists (b' :: rest). split.
    + cbn [calculate_armies]. now rewrite Hb', Hrest.
    + now constructor.
Qed.

Lemma calculate_armies_within_bounds_witness :
  exists result,
    calculate_armies 0 18446744073709551615 example_graph 5 1 10
      [group_A; {| children := [3]; armies := 0 |}] = Some result /\
    Forall (fun b => 1 <= armies b <= 10) result.
Proof.
  apply (calculate_armies_within_bounds 0 18446744073709551615
           [(0, 1); (1, 2); (2, 3); (3, 4); (4, 0); (0, 2)] 5 1 10).
  - repeat constructor; simpl; lia.
  - lia.
  - unfold INT_MAX. lia.
  - simpl. intros b [<-|[<-|[]]]; simpl; (split; [discriminate|]);
      intros c Hc; simpl in Hc; lia.
Defined.

End CalculatorMore.

(* ------------------------------------------------------------------ *)
(** * Further properties of the sweep-line validator *)
(* ------------------------------------------------------------------ *)

Module SweepMore.
Import Sweep SweepSpec SweepOrder.

(** ** The order of points and of active segments *)

Lemma compare_lt_spec (p q : Point) :
  compare_lt p q = true <-> x p < x q \/ (x p = x q /\ y p < y q).
Proof.
  unfold compare_lt.
  rewrite orb_true_iff, andb_true_iff, !Z.ltb_lt, Z.eqb_eq. tauto.
Qed.

Lemma compare_lt_false (p q : Point) :
  compare_lt p q = false <-> x q < x p \/ (x p = x q /\ y q <= y p).
Proof. rewrite <- not_true_iff_false, compare_lt_spec. lia. Qed.

Lemma point_eq_spec (p q : Point) : point_eq p q = true <-> p = q.
Proof.
  unfold point_eq. rewrite andb_true_iff, !Z.eqb_eq.
  destruct p, q; simpl. split; [intros [-> ->]; reflexivity|].
  intros [= -> ->]. auto.
Qed.

Lemma compare_total (p q : Point) :
  compare_lt p q = false -> compare_lt q p = false -> p = q.
Proof.
  rewrite !compare_lt_false. destruct p, q; simpl. intros. f_equal; lia.
Qed.

Lemma sl_compare_spec (s1 s2 : SLSegment) :
  sl_compare s1 s2 = true <->
  compare_lt (left s1) (left s2) = true \/
  (left s1 = left s2 /\ compare_lt (right s1) (right s2) = true).
Proof.
  unfold sl_compare, compare_gt.
  destruct (compare_lt (left s1) (left s2)) eqn:H1; [tauto|].
  destruct (compare_lt (left s2) (left s1)) eqn:H2.
  - split; [discriminate|]. intros [H|[H _]]; [discriminate|].
    rewrite H in H1. congruence.
  - pose proof (compare_total _ _ H1 H2) as Heq.
    destruct (compare_lt (right s1) (right s2)); [tauto|].
    split; [discriminate|]. intros [H|[_ H]]; discriminate.
Qed.

Lemma sl_compare_irrefl (s : SLSegment) : sl_compare s s = false.
Proof.
  apply not_true_iff_false. rewrite sl_compare_spec, !compare_lt_spec. lia.
Qed.

Lemma sl_compare_trans (a b c : SLSegment) :
  sl_compare a b = true -> sl_compare b c = true -> sl_compare a c = true.
Proof.
  rewrite !sl_compare_spec, !compare_lt_spec.
  intros [H1|[E1 H1]] [H2|[E2 H2]].
  - left. lia.
  - left. rewrite <- E2. exact H1.
  - left. rewrite E1. exact H2.
  - right. split; [congruence|lia].
Qed.

(** Two active segments that the comparator does not separate have the
    same endpoints. *)
Lemma sl_compare_equiv (a b : SLSegment) :
  sl_compare a b = false -> sl_compare b a = false ->
  left a = left b /\ right a = right b.
Proof.
  intros H1 H2. apply not_true_iff_false in H1, H2.
  rewrite sl_compare_spec in H1, H2.
  assert (Hl : left a = left b).
  { apply compare_total; apply not_true_iff_false; tauto. }
  split; [exact Hl|].
  apply compare_total; apply not_true_iff_false; intros H.
  - apply H1. right. split; [exact Hl|exact H].
  - apply H2. right. split; [now symmetry|exact H].
Qed.

(** ** The crossing test *)

Lemma point_eq_sym (p q : Point) : point_eq p q = point_eq q p.
Proof. unfold point_eq. now rewrite (Z.eqb_sym (x p)), (Z.eqb_sym (y p)). Qed.

Lemma shares_endpoint_sym (s1 s2 : SLSegment) :
  shares_endpoint s1 s2 = shares_endpoint s2 s1.
Proof.
  unfold shares_endpoint.
  rewrite (point_eq_sym (left s1) (left s2)),
          (point_eq_sym (right s1) (right s2)),
          (point_eq_sym (left s1) (right s2)),
          (point_eq_sym (right s1) (left s2)).
  destruct (point_eq (left s2) (left s1)), (point_eq (right s2) (right s1)),
           (point_eq (right s2) (left s1)), (point_eq (left s2) (right s1));
    reflexivity.
Qed.

(** X13: [intersect] is symmetric in its two segments. *)
Theorem intersect_symmetric (s1 s2 : SLSegment) :
  intersect s1 s2 = intersect s2 s1.
Proof.
  unfold intersect, intersect_with. rewrite (shares_endpoint_sym s1 s2).
  destruct (shares_endpoint s2 s1); [reflexivity|].
  destruct (_ >? 0), (_ >? 0); reflexivity.
Qed.

(** ** Normalization *)

(** X14: [convert] gives a normalized segment with the endpoints of the
    given segment, and the same one for a segment and for the segment with
    its endpoints exchanged. *)
Theorem convert_normalizes (index : nat) (s : Segment) :
  normalized (convert index s) = true /\
  edge (convert index s) = index /\
  ((left (convert index s) = first s /\ right (convert index s) = last s) \/
   (left (convert index s) = last s /\ right (convert index s) = first s)) /\
  convert index (flip s) = convert index s.
Proof.
  unfold convert, normalized, compare_gt, flip. cbn [first last].
  destruct (compare_lt (first s) (last s)) eqn:H1;
    destruct (compare_lt (last s) (first s)) eqn:H2; cbn [left right edge].
  - apply compare_lt_spec in H1, H2. lia.
  - rewrite H2. simpl. tauto.
  - rewrite H1. simpl. tauto.
  - rewrite H1. rewrite (compare_total _ _ H1 H2). simpl. tauto.
Qed.

(** ** The event queue *)

Lemma events_from_In (segments : list Segment) :
  forall (k : nat) (e : Event),
    In e (events_from k segments) <->
    exists i s, nth_error segments i = Some s /\
      (e = left_event_of (k + i) s \/ e = right_event_of (k + i) s).
Proof.
  induction segments as [|s segments IH]; intros k e.
  - simpl. split; [tauto|]. intros (i & s & H & _). now destruct i.
  - cbn [events_from].
    assert (Hhead :
      forall e,
        In e (let '(t1, t2) :=
                if compare_lt (first s) (last s) then (LEFT, RIGHT)
                else (RIGHT, LEFT) in
              [{| e_edge := k; point := first s; type := t1 |};
               {| e_edge := k; point := last s; type := t2 |}])
        <-> e = left_event_of k s \/ e = right_event_of k s).
    { intros e0. unfold left_event_of, right_event_of, convert.
      destruct (compare_lt (first s) (last s)); cbn [In left right];
        intuition. }
    replace (let '(t1, t2) :=
               if compare_lt (first s) (last s) then (LEFT, RIGHT)
               else (RIGHT, LEFT) in
             {| e_edge := k; point := first s; type := t1 |}
             :: {| e_edge := k; point := last s; type := t2 |}
             :: events_from (S k) segments)
      with ((let '(t1, t2) :=
               if compare_lt (first s) (last s) then (LEFT, RIGHT)
               else (RIGHT, LEFT) in
             [{| e_edge := k; point := first s; type := t1 |};
              {| e_edge := k; point := last s; type := t2 |}])
            ++ events_from (S k) segments)
      by (destruct (compare_lt (first s) (last s)); reflexivity).
    rewrite in_app_iff, Hhead, IH. split.
    + intros [H|(i & s' & Hn & H)].
      * exists O, s. rewrite Nat.add_0_r. auto.
      * exists (S i), s'. rewrite Nat.add_succ_r. auto.
    + intros ([|i] & s' & Hn & H).
      * injection Hn as <-. rewrite Nat.add_0_r in H. now left.
      * right. exists i, s'. rewrite Nat.add_succ_r in H. auto.
Qed.

Lemma events_from_length (segments : list Segment) :
  forall k, length (events_from k segments) = (2 * length segments)%nat.
Proof.
  induction segments as [|s segments IH]; intros k; [reflexivity|].
  cbn [events_from].
  destruct (compare_lt (first s) (last s)); cbn [length]; rewrite IH; lia.
Qed.

(** X15: the event queue holds two events for every segment of the input
    and nothing else: a LEFT event at the smaller endpoint and a RIGHT
    event at the larger endpoint, tagged with the position of the
    segment. *)
Theorem event_queue_contents (segments : list Segment) :
  length (EventQueue segments) = (2 * length segments)%nat /\
  forall e,
    In e (EventQueue segments) <->
    exists i s, nth_error segments i = Some s /\
      (e = left_event_of i s \/ e = right_event_of i s).
Proof.
  split; [apply events_from_length|].
  intros e. unfold EventQueue. rewrite events_from_In. reflexivity.
Qed.

(** ** The sweep line as a container *)

Lemma same_endpoints_equiv (a b : SLSegment) :
  left a = left b -> right a = right b ->
  sl_compare a b = false /\ sl_compare b a = false.
Proof.
  intros Hl Hr. split; apply not_true_iff_false;
    rewrite sl_compare_spec, !compare_lt_spec, Hl, Hr; lia.
Qed.

Lemma tree_insert_incl (s : SLSegment) (t : list SLSegment) (a : SLSegment) :
  In a t -> In a (fst (tree_insert s t)).
Proof.
  induction t as [|b t IH]; simpl; [tauto|].
  destruct (sl_compare s b); simpl; [tauto|].
  destruct (sl_compare b s); simpl; [|tauto].
  destruct (tree_insert s t) as [t'' i]. simpl in *. tauto.
Qed.

Lemma tree_insert_sorted (s : SLSegment) (t : list SLSegment) :
  StronglySorted slt t -> StronglySorted slt (fst (tree_insert s t)).
Proof.
  induction 1 as [|b t Ht IH Hb]; simpl; [repeat constructor|].
  destruct (sl_compare s b) eqn:H1; simpl.
  - constructor; [now constructor|]. constructor; [exact H1|].
    eapply Forall_impl; [|exact Hb]. intros c Hc.
    eapply sl_compare_trans; eassumption.
  - destruct (sl_compare b s) eqn:H2; simpl; [|now constructor].
    destruct (tree_insert s t) as [t'' i] eqn:Hins. simpl in *.
    constructor; [exact IH|]. apply Forall_forall. intros c Hc.
    assert (Hc' : In c (fst (tree_insert s t))) by now rewrite Hins.
    apply tree_insert_In in Hc'. destruct Hc' as [->|Hc']; [exact H2|].
    rewrite Forall_forall in Hb. now apply Hb.
Qed.

Lemma tree_erase_sorted (s : SLSegment) (t : list SLSegment) :
  StronglySorted slt t -> StronglySorted slt (tree_erase s t).
Proof.
  induction 1 as [|b t Ht IH Hb]; simpl; [constructor|].
  destruct (sl_compare s b); [now constructor|].
  destruct (sl_compare b s); [|exact Ht].
  constructor; [exact IH|]. apply Forall_forall. intros c Hc.
  apply tree_erase_In in Hc. rewrite Forall_forall in Hb. now apply Hb.
Qed.

Lemma tree_find_insert (s : SLSegment) (t : list SLSegment) :
  tree_find s (fst (tree_insert s t)) = snd (tree_insert s t).
Proof.
  induction t as [|b t IH]; simpl.
  - now rewrite sl_compare_irrefl.
  - destruct (sl_compare s b) eqn:H1; simpl.
    + now rewrite sl_compare_irrefl.
    + destruct (sl_compare b s) eqn:H2; simpl.
      * destruct (tree_insert s t) as [t'' i]. simpl in *.
        now rewrite H1, H2, IH.
      * now rewrite H1, H2.
Qed.

Lemma tree_insert_at (s : SLSegment) (t : list SLSegment) :
  exists a, nth_error (fst (tree_insert s t)) (snd (tree_insert s t)) = Some a /\
       left a = left s /\ right a = right s.
Proof.
  induction t as [|b t IH]; simpl.
  - exists s. auto.
  - destruct (sl_compare s b) eqn:H1; simpl.
    + exists s. auto.
    + destruct (sl_compare b s) eqn:H2; simpl.
      * destruct (tree_insert s t) as [t'' i]. simpl in *. exact IH.
      * exists b. split; [reflexivity|].
        destruct (sl_compare_equiv _ _ H2 H1). auto.
Qed.

Lemma tree_erase_insert (s : SLSegment) (t : list SLSegment) :
  tree_erase s (fst (tree_insert s t)) = tree_erase s t.
Proof.
  induction t as [|b t IH]; simpl.
  - now rewrite sl_compare_irrefl.
  - destruct (sl_compare s b) eqn:H1; simpl.
    + now rewrite sl_compare_irrefl.
    + destruct (sl_compare b s) eqn:H2; simpl.
      * destruct (tree_insert s t) as [t'' i]. simpl in *.
        now rewrite H1, H2, IH.
      * now rewrite H1, H2.
Qed.

Lemma tree_erase_absent (s : SLSegment) (t : list SLSegment) :
  (forall a, In a t -> ~ (left a = left s /\ right a = right s)) ->
  tree_erase s t = t.
Proof.
  induction t as [|b t IH]; simpl; intros Hno; [reflexivity|].
  destruct (sl_compare s b) eqn:H1; [reflexivity|].
  destruct (sl_compare b s) eqn:H2.
  - f_equal. apply IH. intros a Ha. apply Hno. now right.
  - exfalso. apply (Hno b (or_introl eq_refl)).
    now apply sl_compare_equiv.
Qed.

Lemma tree_erase_present (s a : SLSegment) (t : list SLSegment) :
  StronglySorted slt t -> In a t ->
  left a = left s -> right a = right s ->
  S (length (tree_erase s t)) = length t /\ ~ In a (tree_erase s t).
Proof.
  intros Ht Ha Hl Hr.
  destruct (same_endpoints_equiv a s Hl Hr) as [Has Hsa].
  induction Ht as [|b t Ht IH Hb]; [contradiction|].
  rewrite Forall_forall in Hb. simpl.
  destruct (sl_compare s b) eqn:H1.
  - exfalso. destruct Ha as [->|Ha]; [congruence|].
    specialize (Hb a Ha). unfold slt in Hb.
    pose proof (sl_compare_trans _ _ _ H1 Hb). congruence.
  - destruct (sl_compare b s) eqn:H2.
    + destruct Ha as [->|Ha]; [congruence|].
      destruct (IH Ha) as [IH1 IH2]. simpl. split; [lia|].
      intros [->|Hin]; [congruence|contradiction].
    + destruct (sl_compare_equiv _ _ H2 H1) as [Hbl Hbr].
      assert (a = b).
      { destruct Ha as [Ha|Ha]; [now symmetry|].
        specialize (Hb a Ha). unfold slt in Hb.
        destruct (same_endpoints_equiv b a) as [Hba _]; congruence. }
      subst b. split; [reflexivity|].
      intros Hin. specialize (Hb a Hin). unfold slt in Hb.
      now rewrite sl_compare_irrefl in Hb.
Qed.

Lemma map_at_set (index : nat) (v : Segment) (m : list (nat * Segment)) :
  map_at index (map_set index v m) = Some v.
Proof. simpl. now rewrite Nat.eqb_refl. Qed.

Lemma map_erase_absent (index : nat) (m : list (nat * Segment)) :
  map_at index m = None -> map_erase index m = m.
Proof.
  induction m as [|[k v] m IH]; simpl; [reflexivity|].
  destruct (k =? index)%nat; [discriminate|].
  intros H. now rewrite IH.
Qed.

Lemma map_erase_twice (index : nat) (m : list (nat * Segment)) :
  map_erase index (map_erase index m) = map_erase index m.
Proof.
  induction m as [|[k v] m IH]; simpl; [reflexivity|].
  destruct (k =? index)%nat eqn:H; [exact IH|].
  simpl. now rewrite H, IH.
Qed.

(** X16: after [insert(index, segment)], [find(index)] returns the
    iterator that [insert] returned; it points to an active segment with
    the endpoints of the normalized segment. *)
Theorem sweep_line_insert_find (sl : SweepLine) (index : nat)
  (segment : Segment) :
  sl_find (fst (sl_insert sl index segment)) index
  = Some (snd (sl_insert sl index segment)) /\
  exists a,
    nth_error (m_tree (fst (sl_insert sl index segment)))
      (snd (sl_insert sl index segment)) = Some a /\
    left a = left (convert index segment) /\
    right a = right (convert index segment).
Proof.
  unfold sl_insert, sl_find, sl_get.
  pose proof (tree_find_insert (convert index segment) (m_tree sl)) as Hf.
  pose proof (tree_insert_at (convert index segment) (m_tree sl)) as Ha.
  destruct (tree_insert (convert index segment) (m_tree sl)) as [tree it].
  cbn [fst snd m_segments m_tree] in *.
  rewrite map_at_set, Hf. split; [reflexivity|exact Ha].
Qed.

(** X17: inserting a segment under a fresh index and erasing it again
    leaves the sweep line as it was, provided no active segment has the
    same two endpoints. *)
Theorem sweep_line_insert_erase (sl : SweepLine) (index : nat)
  (segment : Segment) :
  map_at index (m_segments sl) = None ->
  (forall a, In a (m_tree sl) ->
     ~ (left a = left (convert index segment) /\
        right a = right (convert index segment))) ->
  sl_erase (fst (sl_insert sl index segment)) index = Some sl.
Proof.
  intros Hfresh Hno. unfold sl_insert, sl_erase, sl_get.
  pose proof (tree_erase_insert (convert index segment) (m_tree sl)) as He.
  destruct (tree_insert (convert index segment) (m_tree sl)) as [tree it].
  cbn [fst snd m_segments m_tree] in *.
  rewrite map_at_set, He, (tree_erase_absent _ _ Hno).
  unfold map_set. simpl. rewrite Nat.eqb_refl, map_erase_twice.
  rewrite (map_erase_absent _ _ Hfresh). now destruct sl.
Qed.

Lemma sweep_line_insert_erase_witness :
  sl_erase
    (fst (sl_insert
            (fst (sl_insert empty_sweep_line 0 (seg 0 0 4 0))) 1
            (seg 2 3 4 0)))
    1
  = Some (fst (sl_insert empty_sweep_line 0 (seg 0 0 4 0))).
Proof.
  apply sweep_line_insert_erase.
  - reflexivity.
  - simpl. intros a [<-|[]]. simpl. intros [H _]. discriminate H.
Defined.

(** X18: a segment with the two endpoints of an active segment is not
    added to the active set; erasing it removes the entry of the active
    segment, so that the set has one element less than before. *)
Theorem sweep_line_duplicate_erases_other (sl : SweepLine) (index : nat)
  (segment : Segment) (a : SLSegment) :
  StronglySorted slt (m_tree sl) -> In a (m_tree sl) ->
  left a = left (convert index segment) ->
  right a = right (convert index segment) ->
  m_tree (fst (sl_insert sl index segment)) = m_tree sl /\
  exists sl',
    sl_erase (fst (sl_insert sl index segment)) index = Some sl' /\
    S (length (m_tree sl')) = length (m_tree sl) /\
    ~ In a (m_tree sl').
Proof.
  intros Hs Ha Hl Hr. unfold sl_insert, sl_erase, sl_get.
  pose proof (tree_erase_insert (convert index segment) (m_tree sl)) as He.
  assert (Hsame : fst (tree_insert (convert index segment) (m_tree sl))
                  = m_tree sl).
  { clear He. destruct (same_endpoints_equiv a _ Hl Hr) as [Has Hsa].
    induction Hs as [|b t Ht IH Hb]; [contradiction|].
    rewrite Forall_forall in Hb. simpl.
    destruct (sl_compare (convert index segment) b) eqn:H1.
    - exfalso. destruct Ha as [->|Ha]; [congruence|].
      specialize (Hb a Ha). unfold slt in Hb.
      pose proof (sl_compare_trans _ _ _ H1 Hb). congruence.
    - destruct (sl_compare b (convert index segment)) eqn:H2; [|reflexivity].
      destruct Ha as [->|Ha]; [congruence|].
      specialize (IH Ha).
      destruct (tree_insert (convert index segment) t) as [t'' i].
      simpl in *. now rewrite IH. }
  destruct (tree_insert (convert index segment) (m_tree sl)) as [tree it].
  cbn [fst snd m_segments m_tree] in *. subst tree.
  split; [reflexivity|].
  rewrite map_at_set. eexists. split; [reflexivity|].
  cbn [m_tree]. now apply tree_erase_present.
Qed.

Lemma sweep_line_duplicate_erases_other_witness :
  m_tree (fst (sl_insert
                 (fst (sl_insert empty_sweep_line 0 (seg 0 0 4 0))) 1
                 (seg 4 0 0 0)))
  = m_tree (fst (sl_insert empty_sweep_line 0 (seg 0 0 4 0))) /\
  exists sl',
    sl_erase
      (fst (sl_insert
              (fst (sl_insert empty_sweep_line 0 (seg 0 0 4 0))) 1
              (seg 4 0 0 0))) 1 = Some sl' /\
    S (length (m_tree sl'))
    = length (m_tree (fst (sl_insert empty_sweep_line 0 (seg 0 0 4 0)))) /\
    ~ In (sls 0 0 0 4 0) (m_tree sl').
Proof.
  apply (sweep_line_duplicate_erases_other _ 1 (seg 4 0 0 0) (sls 0 0 0 4 0)).
  - simpl. repeat constructor.
  - simpl. now left.
  - reflexivity.
  - reflexivity.
Defined.

(** X19: [insert] and [erase] keep the active segments strictly ordered
    by the comparator. *)
Theorem sweep_line_stays_ordered (sl : SweepLine) (index : nat)
  (segment : Segment) :
  StronglySorted slt (m_tree sl) ->
  StronglySorted slt (m_tree (fst (sl_insert sl index segment))) /\
  (forall sl', sl_erase sl index = Some sl' ->
          StronglySorted slt (m_tree sl')).
Proof.
  intros Hs. split.
  - unfold sl_insert.
    pose proof (tree_insert_sorted (convert index segment) _ Hs) as H.
    destruct (tree_insert (convert index segment) (m_tree sl)) as [tree it].
    exact H.
  - unfold sl_erase. destruct (sl_get sl index) as [s|]; [|discriminate].
    intros sl' [= <-]. cbn [m_tree]. now apply tree_erase_sorted.
Qed.

Lemma sweep_line_stays_ordered_witness :
  StronglySorted slt
    (m_tree (fst (sl_insert
                    (fst (sl_insert empty_sweep_line 0 (seg 0 0 4 0))) 1
                    (seg 2 3 4 0)))) /\
  (forall sl',
      sl_erase (fst (sl_insert empty_sweep_line 0 (seg 0 0 4 0))) 1 = Some sl' ->
      StronglySorted slt (m_tree sl')).
Proof.
  apply sweep_line_stays_ordered. simpl. repeat constructor.
Defined.

(** ** Inputs of one segment *)

Lemma compare_lt_irrefl (p : Point) : compare_lt p p = false.
Proof. apply compare_lt_false. lia. Qed.

Lemma point_eq_refl (p : Point) : point_eq p p = true.
Proof. now apply point_eq_spec. Qed.

Lemma point_eq_neq (p q : Point) : p <> q -> point_eq p q = false.
Proof.
  intros H. apply not_true_iff_false. now rewrite point_eq_spec.
Qed.

Lemma sweep_step (fuel : nat) (segments : list Segment) (eq : list Event)
  (sl : SweepLine) (e : Event) :
  eq_top eq = Some e ->
  sweep (S fuel) segments eq sl
  = match (match type e with
           | LEFT => left_event segments sl e
           | RIGHT => right_event sl e
           end) with
    | None => None
    | Some (inl b) => Some b
    | Some (inr sl') => sweep fuel segments (eq_pop eq) sl'
    end.
Proof. intros H. simpl. now rewrite H. Qed.

Lemma left_event_first (s : Segment) (p : Point) :
  left_event [s] empty_sweep_line {| e_edge := 0; point := p; type := LEFT |}
  = Some (inr {| m_segments := [(O, s)]; m_tree := [convert 0 s] |}).
Proof. reflexivity. Qed.

Lemma right_event_last (s : Segment) (p : Point) :
  right_event {| m_segments := [(O, s)]; m_tree := [convert 0 s] |}
    {| e_edge := 0; point := p; type := RIGHT |}
  = Some (inr {| m_segments := []; m_tree := [] |}).
Proof.
  unfold right_event, sl_find, sl_erase, sl_get. cbn [e_edge m_segments map_at].
  rewrite Nat.eqb_refl. cbn [m_tree tree_find tree_erase].
  rewrite !sl_compare_irrefl. reflexivity.
Qed.

(** X20: a single segment with two different endpoints is reported free
    of crossings. *)
Theorem single_segment_no_crossing (s : Segment) :
  first s <> last s -> shamos_hoey [s] = Some false.
Proof.
  intros Hne. unfold shamos_hoey, EventQueue. cbn [events_from].
  destruct (compare_lt (first s) (last s)) eqn:H1.
  - assert (H2 : compare_lt (last s) (first s) = false).
    { apply compare_lt_spec in H1. apply compare_lt_false. lia. }
    set (e1 := {| e_edge := 0; point := first s; type := LEFT |}).
    set (e2 := {| e_edge := 0; point := last s; type := RIGHT |}).
    assert (Htop : eq_top [e1; e2] = Some e1).
    { cbn [eq_top]. unfold event_compare, compare_gt. cbn [point e1 e2].
      now rewrite H2. }
    assert (Hpop : eq_pop [e1; e2] = [e2]).
    { unfold eq_pop. rewrite Htop. cbn [eq_remove].
      unfold event_same. cbn. now rewrite point_eq_refl. }
    cbn [length]. rewrite (sweep_step _ _ _ _ _ Htop), Hpop.
    cbn [type e1]. unfold e1. rewrite left_event_first.
    assert (Htop2 : eq_top [e2] = Some e2) by reflexivity.
    rewrite (sweep_step _ _ _ _ _ Htop2).
    cbn [type e2]. unfold e2 at 1. rewrite right_event_last.
    unfold eq_pop. rewrite Htop2. cbn [eq_remove].
    assert (Hsame : event_same e2 e2 = true).
    { unfold event_same. cbn. now rewrite point_eq_refl. }
    rewrite Hsame. reflexivity.
  - assert (H2 : compare_lt (last s) (first s) = true).
    { apply not_false_iff_true. intros H2. apply Hne.
      now apply compare_total. }
    set (e1 := {| e_edge := 0; point := first s; type := RIGHT |}).
    set (e2 := {| e_edge := 0; point := last s; type := LEFT |}).
    assert (Htop : eq_top [e1; e2] = Some e2).
    { cbn [eq_top]. unfold event_compare, compare_gt. cbn [point e1 e2].
      now rewrite H2. }
    assert (Hpop : eq_pop [e1; e2] = [e1]).
    { unfold eq_pop. rewrite Htop. cbn [eq_remove].
      unfold event_same. cbn. rewrite (point_eq_neq _ _ Hne), point_eq_refl.
      reflexivity. }
    cbn [length]. rewrite (sweep_step _ _ _ _ _ Htop), Hpop.
    cbn [type e2]. unfold e2. rewrite left_event_first.
    assert (Htop2 : eq_top [e1] = Some e1) by reflexivity.
    rewrite (sweep_step _ _ _ _ _ Htop2).
    cbn [type e1]. unfold e1 at 1. rewrite right_event_last.
    unfold eq_pop. rewrite Htop2. cbn [eq_remove].
    assert (Hsame : event_same e1 e1 = true).
    { unfold event_same. cbn. now rewrite point_eq_refl. }
    rewrite Hsame. reflexivity.
Qed.

Lemma single_segment_no_crossing_witness :
  shamos_hoey [seg 3 1 0 2] = Some false.
Proof. apply single_segment_no_crossing. discriminate. Defined.

(** X21: for an input of one segment whose two endpoints are the same
    point, the RIGHT event is at the top of the queue; the segment is not
    in the sweep line yet, and [m_segments.at] throws. *)
Theorem zero_length_segment_throws (p : Point) :
  shamos_hoey [{| first := p; last := p |}] = None.
Proof.
  unfold shamos_hoey, EventQueue. cbn [events_from first last].
  rewrite compare_lt_irrefl.
  set (e1 := {| e_edge := 0; point := p; type := RIGHT |}).
  set (e2 := {| e_edge := 0; point := p; type := LEFT |}).
  assert (Htop : eq_top [e1; e2] = Some e1).
  { cbn [eq_top]. unfold event_compare, compare_gt. cbn [point e1 e2].
    now rewrite compare_lt_irrefl. }
  cbn [length]. rewrite (sweep_step _ _ _ _ _ Htop). reflexivity.
Qed.

End SweepMore.

(* ------------------------------------------------------------------ *)
(** * Properties of the conversion handler *)
(* ------------------------------------------------------------------ *)

Module ConvertSpec.
Import Convert.

(** ** The identifier maps *)

Lemma map_find_assign (k k' : Z) (v : nat) (m : list (Z * nat)) :
  map_find k' (map_assign k v m)
  = if k =? k' then Some v else map_find k' m.
Proof.
  induction m as [|[a b] m IH]; simpl.
  - destruct (Z.eqb_spec k k'); reflexivity.
  - destruct (Z.eqb_spec a k) as [->|Hak]; simpl.
    + destruct (Z.eqb_spec k k'); reflexivity.
    + destruct (Z.eqb_spec a k') as [->|Hak'].
      * destruct (Z.eqb_spec k k'); [congruence|reflexivity].
      * exact IH.
Qed.

Lemma map_assign_length (k : Z) (v : nat) (m : list (Z * nat)) :
  map_find k m = None -> length (map_assign k v m) = S (length m).
Proof.
  induction m as [|[a b] m IH]; simpl; [reflexivity|].
  destruct (Z.eqb_spec a k); [discriminate|].
  intros H. simpl. now rewrite IH.
Qed.

Lemma dense_push {A : Type} (size : nat) (at_ at' : nat -> option A)
  (id_of : A -> nat) (m : list (Z * nat)) (k : Z) (a : A) :
  dense size at_ id_of m -> map_find k m = None -> id_of a = length m ->
  (forall i, at' i = if (i =? size)%nat then Some a else at_ i) ->
  dense (S size) at' id_of (map_assign k (length m) m).
Proof.
  intros (Hlen & Hid & Hlt & Hinj) Hk Ha Hat. repeat split.
  - rewrite map_assign_length by exact Hk. now rewrite Hlen.
  - intros i b. rewrite Hat.
    destruct (Nat.eqb_spec i size) as [->|Hi].
    + intros [= <-]. now rewrite Ha.
    + apply Hid.
  - intros k' v. rewrite map_find_assign.
    destruct (k =? k'); [intros [= <-]; lia|].
    intros H. apply Hlt in H. lia.
  - intros k1 k2 v. rewrite !map_find_assign.
    destruct (Z.eqb_spec k k1) as [E1|H1]; destruct (Z.eqb_spec k k2) as [E2|H2].
    + congruence.
    + intros [= <-] H. apply Hlt in H. lia.
    + intros H [= <-]. apply Hlt in H. lia.
    + apply Hinj.
Qed.

Section Laws.

Variable M : Memory.
Hypothesis L : memory_laws M.

(** ** [create_node] *)

(** What a call that returned has done. *)
Lemma create_node_returned (h h' : ConvertHandler M) (r : NodeRef)
  (n : Node M) :
  nodes_dense h ->
  create_node h r = (h', Some n) ->
  nodes_dense h' /\
  m_ways h' = m_ways h /\ m_wids h' = m_wids h /\
  map_find (ref r) (m_nids h') = Some (node_id M n) /\
  nodes_at M (m_nodes h') (node_id M n) = Some n /\
  (forall k v, map_find k (m_nids h) = Some v ->
          map_find k (m_nids h') = Some v).
Proof.
  intros Hd. unfold create_node, lon, lat.
  destruct (map_find (ref r) (m_nids h)) as [i|] eqn:Hf.
  - intros [= <- Hn]. pose proof Hd as (Hlen & Hid & Hlt & Hinj).
    pose proof (Hid _ _ Hn) as E. rewrite E. repeat split; auto; apply Hd.
  - destruct (location r) as [[lo la]|]; simpl; [|discriminate].
    set (n0 := make_node M (length (m_nids h)) lo la).
    assert (Hlen : nodes_size M (m_nodes h) = length (m_nids h)) by apply Hd.
    rewrite (nodes_at_push M L), Hlen, Nat.eqb_refl.
    intros [= <- <-]. cbn [m_nodes m_nids m_ways m_wids].
    assert (En : node_id M n0 = length (m_nids h)) by apply (node_id_make M L).
    split.
    { unfold nodes_dense. cbn [m_nodes m_nids].
      rewrite (nodes_size_push M L).
      apply (dense_push _ (nodes_at M (m_nodes h)) _ _ _ _ n0 Hd Hf En).
      intros i. apply (nodes_at_push M L). }
    split; [reflexivity|]. split; [reflexivity|]. split.
    { rewrite map_find_assign, Z.eqb_refl, En. reflexivity. }
    split.
    { rewrite En, (nodes_at_push M L), Hlen, Nat.eqb_refl. reflexivity. }
    intros k v Hk. rewrite map_find_assign.
    destruct (Z.eqb_spec (ref r) k) as [<-|]; [congruence|exact Hk].
Qed.

(** A call returns when the reference is known or its location is
    valid. *)
Lemma create_node_returns (h : ConvertHandler M) (r : NodeRef) :
  nodes_dense h ->
  location r <> None \/ map_find (ref r) (m_nids h) <> None ->
  exists h' n, create_node h r = (h', Some n).
Proof.
  intros Hd Hok. unfold create_node, lon, lat.
  destruct (map_find (ref r) (m_nids h)) as [i|] eqn:Hf.
  - destruct (nodes_at M (m_nodes h) i) as [n|] eqn:Hn; [eauto|].
    apply (nodes_at_range M L) in Hn.
    destruct Hd as (_ & _ & Hlt & _). apply Hlt in Hf. lia.
  - destruct Hok as [Hok|Hok]; [|congruence].
    destruct (location r) as [[lo la]|]; [|congruence]. simpl.
    assert (Hlen : nodes_size M (m_nodes h) = length (m_nids h)) by apply Hd.
    rewrite (nodes_at_push M L), Hlen, Nat.eqb_refl. eauto.
Qed.

(** ** [create_way] *)

Lemma ways_at_lt (b : WayBuffer M) (i : nat) (w : Way M) :
  ways_at M b i = Some w -> (i < ways_size M b)%nat.
Proof.
  intros H. destruct (Nat.lt_ge_cases i (ways_size M b)) as [Hi|Hi]; auto.
  apply (ways_at_range M L) in Hi. congruence.
Qed.

Lemma add_nodes_returned (rs : list NodeRef) :
  forall (h h' : ConvertHandler M) (i : nat) (way way' : Way M),
    nodes_dense h -> ways_dense h ->
    ways_at M (m_ways h) i = Some way ->
    add_nodes h i way rs = (h', Some way') ->
    nodes_dense h' /\ ways_dense h' /\
    m_wids h' = m_wids h /\
    ways_at M (m_ways h') i = Some way' /\
    (forall j, j <> i -> ways_at M (m_ways h') j = ways_at M (m_ways h) j) /\
    (forall k v, map_find k (m_nids h) = Some v ->
            map_find k (m_nids h') = Some v) /\
    exists ids,
      way_nodes M way' = way_nodes M way ++ ids /\
      Forall2 (fun r id => map_find (ref r) (m_nids h') = Some id) rs ids.
Proof.
  induction rs as [|r rs IH]; intros h h' i way way' Hn Hw Hat; simpl.
  - intros [= <- <-]. do 6 (split; [auto|]).
    exists []. rewrite app_nil_r. split; [reflexivity|constructor].
  - destruct (create_node h r) as [h1 [n|]] eqn:Hc; [|discriminate].
    destruct (create_node_returned h h1 r n Hn Hc)
      as (Hn1 & Ews & Ewi & Hmap & _ & Hmono).
    set (way1 := way_push_back M way (node_id M n)).
    set (h2 := {| m_nodes := m_nodes h1;
                  m_ways := ways_write M (m_ways h1) i way1;
                  m_nids := m_nids h1;
                  m_wids := m_wids h1 |}).
    pose proof (ways_at_lt _ _ _ Hat) as Hlt.
    assert (Hid : way_id M way1 = i).
    { unfold way1. rewrite (way_id_push M L). now apply Hw. }
    assert (Hat2 : ways_at M (m_ways h2) i = Some way1).
    { cbn [h2 m_ways]. rewrite (ways_at_write M L), Nat.eqb_refl, Ews.
      apply Nat.ltb_lt in Hlt. now rewrite Hlt. }
    assert (Hw2 : ways_dense h2).
    { destruct Hw as (W1 & W2 & W3 & W4).
      unfold ways_dense. cbn [h2 m_ways m_wids].
      rewrite (ways_size_write M L), Ews, Ewi. repeat split; auto.
      intros j a. rewrite (ways_at_write M L).
      destruct (Nat.eqb_spec j i) as [->|Hj]; [|apply W2].
      destruct (i <? ways_size M (m_ways h))%nat; [|discriminate].
      now intros [= <-]. }
    intros Hrest.
    destruct (IH h2 h' i way1 way' Hn1 Hw2 Hat2 Hrest)
      as (Hn' & Hw' & Ewi' & Hat' & Hoth & Hmono' & ids & Eids & Hall).
    split; [exact Hn'|]. split; [exact Hw'|].
    split; [now rewrite Ewi'|]. split; [exact Hat'|].
    split.
    { intros j Hj. rewrite (Hoth j Hj). cbn [h2 m_ways].
      rewrite (ways_at_write M L), Ews.
      destruct (Nat.eqb_spec j i); [contradiction|reflexivity]. }
    split.
    { intros k v Hk. apply Hmono', Hmono, Hk. }
    exists (node_id M n :: ids). split.
    + rewrite Eids. unfold way1. rewrite (way_nodes_push M L), <- app_assoc.
      reflexivity.
    + constructor; [|exact Hall]. apply Hmono'. exact Hmap.
Qed.

Lemma add_nodes_returns (rs : list NodeRef) :
  forall (h : ConvertHandler M) (i : nat) (way : Way M),
    nodes_dense h ->
    Forall (fun r => location r <> None
                     \/ map_find (ref r) (m_nids h) <> None) rs ->
    exists h' way', add_nodes h i way rs = (h', Some way').
Proof.
  induction rs as [|r rs IH]; intros h i way Hn Hok; simpl; [eauto|].
  inversion Hok as [|? ? Hr Hrs]; subst.
  destruct (create_node_returns h r Hn Hr) as (h1 & n & Hc). rewrite Hc.
  destruct (create_node_returned h h1 r n Hn Hc)
    as (Hn1 & _ & _ & _ & _ & Hmono).
  apply IH.
  - exact Hn1.
  - cbn [m_nids]. eapply Forall_impl; [|exact Hrs].
    intros r' [H|H]; [now left|right].
    destruct (map_find (ref r') (m_nids h)) as [v|] eqn:Hv; [|congruence].
    rewrite (Hmono _ _ Hv). discriminate.
Qed.

Lemma create_way_known (h : ConvertHandler M) (w : OsmWay) (i : nat) :
  ways_dense h ->
  map_find (osm_id w) (m_wids h) = Some i ->
  exists way,
    create_way h w = (h, Some way) /\
    way_id M way = i /\ ways_at M (m_ways h) i = Some way.
Proof.
  intros Hw Hf. unfold create_way. rewrite Hf.
  destruct (ways_at M (m_ways h) i) as [way|] eqn:Hat.
  - exists way. repeat split. now apply Hw.
  - apply (ways_at_range M L) in Hat.
    destruct Hw as (_ & _ & W3 & _). apply W3 in Hf. lia.
Qed.

(** The first steps of [create_way] for an osmium way that the handler
    has not seen. *)
Lemma create_way_fresh_start (h : ConvertHandler M) (w : OsmWay) :
  ways_dense h ->
  map_find (osm_id w) (m_wids h) = None ->
  let i := length (m_wids h) in
  let h1 := {| m_nodes := m_nodes h;
               m_ways := ways_push_back M (m_ways h) (make_way M i);
               m_nids := m_nids h;
               m_wids := map_assign (osm_id w) i (m_wids h) |} in
  create_way h w = add_nodes h1 i (make_way M i) (osm_nodes w) /\
  ways_dense h1 /\
  ways_at M (m_ways h1) i = Some (make_way M i).
Proof.
  intros Hw Hf i h1.
  assert (Hlen : ways_size M (m_ways h) = i) by apply Hw.
  assert (Hat1 : ways_at M (m_ways h1) i = Some (make_way M i)).
  { cbn [h1 m_ways]. now rewrite (ways_at_push M L), Hlen, Nat.eqb_refl. }
  split; [|split; [|exact Hat1]].
  - unfold create_way. rewrite Hf. fold i. fold h1. now rewrite Hat1.
  - unfold ways_dense. cbn [h1 m_ways m_wids]. rewrite (ways_size_push M L).
    apply (dense_push _ (ways_at M (m_ways h)) _ _ _ _ (make_way M i) Hw Hf).
    + apply (way_id_make M L).
    + intros j. apply (ways_at_push M L).
Qed.

Lemma create_way_fresh_returned (h h' : ConvertHandler M) (w : OsmWay)
  (way : Way M) :
  nodes_dense h -> ways_dense h ->
  map_find (osm_id w) (m_wids h) = None ->
  create_way h w = (h', Some way) ->
  nodes_dense h' /\ ways_dense h' /\
  way_id M way = length (m_wids h) /\
  map_find (osm_id w) (m_wids h') = Some (way_id M way) /\
  ways_at M (m_ways h') (way_id M way) = Some way /\
  Forall2 (fun r id => map_find (ref r) (m_nids h') = Some id)
          (osm_nodes w) (way_nodes M way) /\
  (forall k v, map_find k (m_wids h) = Some v ->
          map_find k (m_wids h') = Some v /\
          ways_at M (m_ways h') v = ways_at M (m_ways h) v).
Proof.
  intros Hn Hw Hf Hc.
  destruct (create_way_fresh_start h w Hw Hf) as (E & Hw1 & Hat1).
  set (i := length (m_wids h)) in *.
  set (h1 := {| m_nodes := m_nodes h;
                m_ways := ways_push_back M (m_ways h) (make_way M i);
                m_nids := m_nids h;
                m_wids := map_assign (osm_id w) i (m_wids h) |}) in *.
  rewrite E in Hc.
  destruct (add_nodes_returned (osm_nodes w) h1 h' i (make_way M i) way
              Hn Hw1 Hat1 Hc)
    as (Hn' & Hw' & Ewi & Hat & Hoth & _ & ids & Eids & Hall).
  rewrite (way_nodes_make M L) in Eids. simpl in Eids. subst ids.
  assert (Hlen : ways_size M (m_ways h) = i) by apply Hw.
  assert (Hid : way_id M way = i).
  { destruct Hw' as (_ & W2 & _). now apply W2. }
  rewrite Hid.
  split; [exact Hn'|]. split; [exact Hw'|]. split; [reflexivity|].
  split.
  { rewrite Ewi. cbn [h1 m_wids]. now rewrite map_find_assign, Z.eqb_refl. }
  split; [exact Hat|]. split; [exact Hall|].
  intros k v Hk. split.
  - rewrite Ewi. cbn [h1 m_wids]. rewrite map_find_assign.
    destruct (Z.eqb_spec (osm_id w) k) as [<-|]; [congruence|assumption].
  - assert (Hv : (v < i)%nat).
    { rewrite <- Hlen. destruct Hw as (_ & _ & W3 & _). now apply (W3 k). }
    rewrite Hoth by lia. cbn [h1 m_ways]. rewrite (ways_at_push M L), Hlen.
    destruct (Nat.eqb_spec v i); [lia|reflexivity].
Qed.

Lemma create_way_returned (h h' : ConvertHandler M) (w : OsmWay)
  (way : Way M) :
  nodes_dense h -> ways_dense h ->
  create_way h w = (h', Some way) ->
  nodes_dense h' /\ ways_dense h' /\
  map_find (osm_id w) (m_wids h') = Some (way_id M way) /\
  ways_at M (m_ways h') (way_id M way) = Some way.
Proof.
  intros Hn Hw Hc.
  destruct (map_find (osm_id w) (m_wids h)) as [i|] eqn:Hf.
  - destruct (create_way_known h w i Hw Hf) as (way0 & E & Hid & Hat).
    rewrite E in Hc. injection Hc as <- <-. rewrite Hid. auto.
  - destruct (create_way_fresh_returned h h' w way Hn Hw Hf Hc)
      as (Hn' & Hw' & _ & Hm & Hat & _).
    auto.
Qed.

(** ** The handlers on which no call has thrown *)

Lemma intact_dense (h : ConvertHandler M) :
  intact h -> nodes_dense h /\ ways_dense h.
Proof.
  induction 1 as [|h r h' n _ [Hn Hw] E|h w h' way _ [Hn Hw] E].
  - split; repeat split; cbn; try discriminate; try lia.
    + now rewrite (nodes_size_empty M L).
    + intros i a Ha.
      assert (nodes_at M (nodes_empty M) i = None) as E.
      { apply (nodes_at_range M L). rewrite (nodes_size_empty M L). lia. }
      congruence.
    + now rewrite (ways_size_empty M L).
    + intros i a Ha.
      assert (ways_at M (ways_empty M) i = None) as E.
      { apply (ways_at_range M L). rewrite (ways_size_empty M L). lia. }
      congruence.
  - destruct (create_node_returned h h' r n Hn E) as (Hn1 & Ews & Ewi & _).
    split; [exact Hn1|]. unfold ways_dense. now rewrite Ews, Ewi.
  - destruct (create_way_returned h h' w way Hn Hw E) as (Hn1 & Hw1 & _).
    now split.
Qed.

(** X26: on a handler on which no call of [create_node] or [create_way]
    has thrown, [create_node] returns for a node reference with a valid
    location; afterwards the node buffer holds one node for each mapped
    reference, the node at position [i] has the id [i], and the returned
    node is the node that the buffer holds at its id. *)
Theorem create_node_consecutive_ids (h : ConvertHandler M) (r : NodeRef) :
  intact h ->
  location r <> None ->
  exists h' n,
    create_node h r = (h', Some n) /\
    nodes_size M (m_nodes h') = length (m_nids h') /\
    (forall i a, nodes_at M (m_nodes h') i = Some a -> node_id M a = i) /\
    nodes_at M (m_nodes h') (node_id M n) = Some n.
Proof.
  intros Hr Hloc. destruct (intact_dense h Hr) as [Hn _].
  destruct (create_node_returns h r Hn (or_introl Hloc)) as (h' & n & E).
  destruct (create_node_returned h h' r n Hn E)
    as (Hn' & _ & _ & _ & Hat & _).
  exists h', n. destruct Hn' as (N1 & N2 & _). auto.
Qed.

(** X27: when [create_node] returns on a handler on which no call has
    thrown, it has filed the id of the node it returns under the reference
    of the osmium node, has kept every id given out before, and no id is
    given to two different references. *)
Theorem create_node_id_by_reference (h h' : ConvertHandler M) (r : NodeRef)
  (n : Node M) :
  intact h ->
  create_node h r = (h', Some n) ->
  map_find (ref r) (m_nids h') = Some (node_id M n) /\
  (forall k v, map_find k (m_nids h) = Some v ->
          map_find k (m_nids h') = Some v) /\
  (forall k k' v, map_find k (m_nids h') = Some v ->
             map_find k' (m_nids h') = Some v -> k = k').
Proof.
  intros Hr E. destruct (intact_dense h Hr) as [Hn _].
  destruct (create_node_returned h h' r n Hn E)
    as (Hn1 & _ & _ & Hmap & _ & Hmono).
  destruct Hn1 as (_ & _ & _ & N4). auto.
Qed.

(** X28: on a handler on which no call has thrown, for an osmium way that
    the handler has not seen and whose node references all have a valid
    location, [create_way] returns a way with the next free id, stored in
    the way buffer at that id, whose node ids are, in order, the ids under
    which the references of the osmium way are filed; the ways created
    before are left as they are. *)
Theorem create_way_collects_node_ids (h : ConvertHandler M) (w : OsmWay) :
  intact h ->
  map_find (osm_id w) (m_wids h) = None ->
  Forall (fun r => location r <> None) (osm_nodes w) ->
  exists h' way,
    create_way h w = (h', Some way) /\
    way_id M way = length (m_wids h) /\
    ways_at M (m_ways h') (way_id M way) = Some way /\
    Forall2 (fun r id => map_find (ref r) (m_nids h') = Some id)
            (osm_nodes w) (way_nodes M way) /\
    (forall k v, map_find k (m_wids h) = Some v ->
            map_find k (m_wids h') = Some v /\
            ways_at M (m_ways h') v = ways_at M (m_ways h) v).
Proof.
  intros Hr Hf Hloc. destruct (intact_dense h Hr) as [Hn Hw].
  destruct (create_way_fresh_start h w Hw Hf) as (E & _ & _).
  destruct (add_nodes_returns (osm_nodes w)
              {| m_nodes := m_nodes h;
                 m_ways := ways_push_back M (m_ways h)
                             (make_way M (length (m_wids h)));
                 m_nids := m_nids h;
                 m_wids := map_assign (osm_id w) (length (m_wids h))
                             (m_wids h) |}
              (length (m_wids h)) (make_way M (length (m_wids h))))
    as (h' & way & Ha).
  - exact Hn.
  - eapply Forall_impl; [|exact Hloc]. intros r' H. now left.
  - rewrite <- E in Ha.
    destruct (create_way_fresh_returned h h' w way Hn Hw Hf Ha)
      as (_ & _ & Hid & _ & Hat & Hall & Hold).
    exists h', way. auto.
Qed.

(** X29: when [create_way] has returned a way on a handler on which no
    call has thrown, a later call for an osmium way with the same id
    returns this way and changes nothing, whatever nodes the later osmium
    way has. *)
Theorem create_way_repeated (h h' : ConvertHandler M) (w : OsmWay)
  (way : Way M) :
  intact h ->
  create_way h w = (h', Some way) ->
  forall w', osm_id w' = osm_id w -> create_way h' w' = (h', Some way).
Proof.
  intros Hr E w' Hid. destruct (intact_dense h Hr) as [Hn Hw].
  destruct (create_way_returned h h' w way Hn Hw E) as (_ & Hw' & Hm & Hat).
  rewrite <- Hid in Hm.
  destruct (create_way_known h' w' _ Hw' Hm) as (way' & E' & _ & Hat').
  rewrite E'. congruence.
Qed.

(** X31: for a node reference that is new to the handler and has no valid
    location, [create_node] throws after it has filed the next id under
    the reference, and stores no node.  The handler it leaves behind has
    one id more than nodes: on it [create_node] throws again for the same
    reference and for every reference that is new, with or without a
    valid location. *)
Theorem create_node_invalid_location (h : ConvertHandler M) (r : NodeRef) :
  intact h ->
  map_find (ref r) (m_nids h) = None ->
  location r = None ->
  exists h1,
    create_node h r = (h1, None) /\
    map_find (ref r) (m_nids h1) = Some (length (m_nids h)) /\
    m_nodes h1 = m_nodes h /\
    snd (create_node h1 r) = None /\
    forall r', map_find (ref r') (m_nids h1) = None ->
          snd (create_node h1 r') = None.
Proof.
  intros Hr Hf Hloc. destruct (intact_dense h Hr) as [Hn _].
  assert (Hlen : nodes_size M (m_nodes h) = length (m_nids h)) by apply Hn.
  set (h1 := {| m_nodes := m_nodes h;
                m_ways := m_ways h;
                m_nids := map_assign (ref r) (length (m_nids h)) (m_nids h);
                m_wids := m_wids h |}).
  assert (Hm : map_find (ref r) (m_nids h1) = Some (length (m_nids h))).
  { cbn [h1 m_nids]. now rewrite map_find_assign, Z.eqb_refl. }
  exists h1. split.
  { unfold create_node, lon, lat. rewrite Hf, Hloc. reflexivity. }
  split; [exact Hm|]. split; [reflexivity|]. split.
  - unfold create_node. rewrite Hm. cbn [snd h1 m_nodes].
    apply (nodes_at_range M L). lia.
  - intros r' Hf'. unfold create_node, lon, lat. rewrite Hf'.
    destruct (location r') as [[lo la]|]; [|reflexivity].
    cbn [option_map fst snd h1 m_nodes m_nids].
    rewrite (nodes_at_push M L), (map_assign_length _ _ _ Hf), Hlen.
    replace (S (length (m_nids h)) =? length (m_nids h))%nat with false
      by (symmetry; apply Nat.eqb_neq; lia).
    apply (nodes_at_range M L). lia.
Qed.

End Laws.

Import ConvertList.

Lemma list_update_length {A : Type} (i : nat) (a : A) (l : list A) :
  length (list_update i a l) = length l.
Proof.
  revert i. induction l as [|b l IH]; intros [|i]; simpl; auto.
Qed.

Lemma list_update_nth {A : Type} (i j : nat) (a : A) (l : list A) :
  nth_error (list_update i a l) j
  = if (j =? i)%nat then (if (j <? length l)%nat then Some a else None)
    else nth_error l j.
Proof.
  revert i j. induction l as [|b l IH]; intros [|i] [|j]; simpl; auto.
  now destruct (j =? i)%nat.
Qed.

Lemma nth_error_snoc {A : Type} (l : list A) (a : A) (i : nat) :
  nth_error (l ++ [a]) i
  = if (i =? length l)%nat then Some a else nth_error l i.
Proof.
  destruct (Nat.eqb_spec i (length l)) as [->|Hi].
  - now rewrite nth_error_app2, Nat.sub_diag by lia.
  - destruct (Nat.lt_ge_cases i (length l)) as [H|H].
    + now rewrite nth_error_app1.
    + rewrite (proj2 (nth_error_None l i)) by lia.
      apply nth_error_None. rewrite length_app. simpl. lia.
Qed.

Lemma list_memory_laws : memory_laws list_memory.
Proof.
  constructor; cbn; intros; try reflexivity.
  - rewrite length_app. simpl. lia.
  - apply nth_error_snoc.
  - apply nth_error_None.
  - rewrite length_app. simpl. lia.
  - apply nth_error_snoc.
  - apply nth_error_None.
  - apply list_update_length.
  - apply list_update_nth.
Qed.

Lemma handler_a_intact : intact handler_a.
Proof.
  apply (intact_node list_memory (empty_handler list_memory) ref_a
           handler_a (mkNode 0 (1 # 2) (3 # 4))).
  - apply intact_empty.
  - reflexivity.
Qed.

Lemma create_node_consecutive_ids_witness :
  exists h' n,
    create_node handler_a ref_b = (h', Some n) /\
    nodes_size list_memory (m_nodes h') = length (m_nids h') /\
    (forall i a, nodes_at list_memory (m_nodes h') i = Some a ->
            node_id list_memory a = i) /\
    nodes_at list_memory (m_nodes h') (node_id list_memory n) = Some n.
Proof.
  apply (create_node_consecutive_ids list_memory list_memory_laws
           handler_a ref_b).
  - apply handler_a_intact.
  - discriminate.
Defined.

Lemma create_node_id_by_reference_witness :
  map_find (ref ref_b) (m_nids handler_ab) = Some 1%nat /\
  (forall k v, map_find k (m_nids handler_a) = Some v ->
          map_find k (m_nids handler_ab) = Some v) /\
  (forall k k' v, map_find k (m_nids handler_ab) = Some v ->
             map_find k' (m_nids handler_ab) = Some v -> k = k').
Proof.
  apply (create_node_id_by_reference list_memory list_memory_laws
           handler_a handler_ab ref_b (mkNode 1 (2 # 1) (5 # 1))).
  - apply handler_a_intact.
  - reflexivity.
Defined.

Lemma create_way_collects_node_ids_witness :
  exists h' way,
    create_way handler_a way_one = (h', Some way) /\
    way_id list_memory way = length (m_wids handler_a) /\
    ways_at list_memory (m_ways h') (way_id list_memory way) = Some way /\
    Forall2 (fun r id => map_find (ref r) (m_nids h') = Some id)
            (osm_nodes way_one) (way_nodes list_memory way) /\
    (forall k v, map_find k (m_wids handler_a) = Some v ->
            map_find k (m_wids h') = Some v /\
            ways_at list_memory (m_ways h') v
            = ways_at list_memory (m_ways handler_a) v).
Proof.
  apply (create_way_collects_node_ids list_memory list_memory_laws
           handler_a way_one).
  - apply handler_a_intact.
  - reflexivity.
  - repeat constructor; discriminate.
Defined.

Lemma create_way_repeated_witness :
  create_way handler_way (mkOsmWay 40 [ref_lost])
  = (handler_way, Some stored_way).
Proof.
  apply (create_way_repeated list_memory list_memory_laws handler_a
           handler_way way_one stored_way).
  - apply handler_a_intact.
  - reflexivity.
  - reflexivity.
Defined.

Lemma create_node_invalid_location_witness :
  exists h1,
    create_node handler_a ref_lost = (h1, None) /\
    map_find (ref ref_lost) (m_nids h1) = Some (length (m_nids handler_a)) /\
    m_nodes h1 = m_nodes handler_a /\
    snd (create_node h1 ref_lost) = None /\
    forall r', map_find (ref r') (m_nids h1) = None ->
          snd (create_node h1 r') = None.
Proof.
  apply (create_node_invalid_location list_memory list_memory_laws
           handler_a ref_lost).
  - apply handler_a_intact.
  - reflexivity.
  - reflexivity.
Defined.

End ConvertSpec.

(* ------------------------------------------------------------------ *)
(** * Properties of the base class of the graphs *)
(* ------------------------------------------------------------------ *)

Module GraphBaseSpec.
Import GraphBase.

Lemma vset_insert_In (v w : Z) (s : list Z) :
  In w (vset_insert v s) <-> w = v \/ In w s.
Proof.
  induction s as [|y s IH]; simpl.
  - intuition.
  - destruct (Z.ltb_spec v y); [simpl; intuition|].
    destruct (Z.ltb_spec y v); simpl.
    + rewrite IH. intuition.
    + assert (v = y) by lia. subst. intuition.
Qed.

Lemma vset_insert_sorted (v : Z) (s : list Z) :
  StronglySorted Z.lt s -> StronglySorted Z.lt (vset_insert v s).
Proof.
  induction 1 as [|y s Hs IH Hy]; simpl.
  - repeat constructor.
  - destruct (Z.ltb_spec v y).
    + constructor; [now constructor|].
      constructor; [assumption|].
      rewrite Forall_forall in *. intros z Hz. specialize (Hy z Hz). lia.
    + destruct (Z.ltb_spec y v); [|now constructor].
      constructor; [exact IH|].
      rewrite Forall_forall in *. intros z Hz.
      apply vset_insert_In in Hz. destruct Hz as [->|Hz]; auto.
Qed.

Lemma vset_erase_In (v w : Z) (s : list Z) :
  StronglySorted Z.lt s ->
  (In w (vset_erase v s) <-> w <> v /\ In w s).
Proof.
  induction 1 as [|y s Hs IH Hy]; simpl.
  - tauto.
  - rewrite Forall_forall in Hy.
    destruct (Z.ltb_spec y v); simpl.
    + rewrite IH. intuition; subst; lia.
    + destruct (Z.ltb_spec v y); simpl.
      * split; [|tauto]. intros [->|Hw]; [split; [lia|tauto]|].
        specialize (Hy w Hw). split; [lia|tauto].
      * assert (v = y) by lia. subst y. split.
        -- intros Hw. specialize (Hy w Hw). split; [lia|tauto].
        -- intros [Hne [->|Hw]]; [contradiction|exact Hw].
Qed.

Lemma vset_erase_sorted (v : Z) (s : list Z) :
  StronglySorted Z.lt s -> StronglySorted Z.lt (vset_erase v s).
Proof.
  intros Hs. pose proof (fun w => vset_erase_In v w s Hs) as HIn.
  revert HIn. induction Hs as [|y s Hs IH Hy]; simpl; intros HIn.
  - constructor.
  - destruct (Z.ltb_spec y v).
    + constructor.
      * apply IH. intros w. apply vset_erase_In. exact Hs.
      * rewrite Forall_forall in *. intros z Hz.
        apply vset_erase_In in Hz; [|exact Hs]. apply Hy. tauto.
    + destruct (Z.ltb_spec v y); [now constructor|exact Hs].
Qed.

Lemma vset_find_spec (v : Z) (s : list Z) :
  StronglySorted Z.lt s ->
  (vset_find v s = length s <-> ~ In v s).
Proof.
  induction 1 as [|y s Hs IH Hy]; simpl.
  - tauto.
  - rewrite Forall_forall in Hy.
    destruct (Z.ltb_spec y v).
    + split.
      * intros E [->|Hv]; [lia|]. injection E as E. now apply IH in E.
      * intros Hn. f_equal. apply IH. tauto.
    + destruct (Z.ltb_spec v y).
      * split; [|reflexivity]. intros _ [->|Hv]; [lia|].
        specialize (Hy v Hv). lia.
      * assert (v = y) by lia. subst y. split; [discriminate|].
        intros Hn. exfalso. apply Hn. now left.
Qed.

Lemma vset_insert_length (v : Z) (s : list Z) :
  StronglySorted Z.lt s ->
  length (vset_insert v s)
  = if (vset_find v s =? length s)%nat then S (length s) else length s.
Proof.
  induction 1 as [|y s Hs IH Hy]; simpl.
  - reflexivity.
  - destruct (Z.ltb_spec y v).
    + destruct (Z.ltb_spec v y); [lia|]. simpl. rewrite IH.
      change (S (vset_find v s) =? S (length s))%nat
        with (vset_find v s =? length s)%nat.
      now destruct (vset_find v s =? length s)%nat.
    + destruct (Z.ltb_spec v y); simpl.
      * now rewrite Nat.eqb_refl.
      * reflexivity.
Qed.

Lemma built_sorted (g : Graph) : built g -> StronglySorted Z.lt (m_vertices g).
Proof.
  induction 1; simpl.
  - constructor.
  - now apply vset_insert_sorted.
  - now apply vset_erase_sorted.
Qed.

Lemma contains_vertex_In (g : Graph) (v : Z) :
  built g -> (contains_vertex g v = true <-> In v (m_vertices g)).
Proof.
  intros Hb. pose proof (vset_find_spec v _ (built_sorted g Hb)) as Hf.
  unfold contains_vertex.
  destruct (Nat.eqb_spec (vset_find v (m_vertices g)) (length (m_vertices g)))
    as [E|E]; simpl.
  - split; [discriminate|]. intros Hin. now apply Hf in E.
  - split; [|reflexivity]. intros _.
    destruct (in_dec Z.eq_dec v (m_vertices g)) as [Hin|Hn]; [exact Hin|].
    now apply Hf in Hn.
Qed.

(** X30: on a graph built by the vertex operations, a vertex is contained
    after [insert_vertex] exactly if it is the inserted one or was
    contained, and after [remove_vertex] exactly if it is another one and
    was contained; inserting a vertex raises the vertex count by one if the
    vertex is new and leaves it otherwise. *)
Theorem vertex_insert_remove_lookup (g : Graph) (v w : Z) :
  built g ->
  contains_vertex (insert_vertex g v) w = (w =? v) || contains_vertex g w /\
  contains_vertex (remove_vertex g v) w
  = negb (w =? v) && contains_vertex g w /\
  vertex_count (insert_vertex g v)
  = (if contains_vertex g v then vertex_count g else S (vertex_count g)).
Proof.
  intros Hb.
  pose proof (contains_vertex_In g w Hb) as Hg.
  pose proof (contains_vertex_In _ w (built_insert g v Hb)) as Hi.
  pose proof (contains_vertex_In _ w (built_remove g v Hb)) as Hr.
  simpl in Hi, Hr. rewrite vset_insert_In in Hi.
  rewrite (vset_erase_In v w _ (built_sorted g Hb)) in Hr.
  split; [|split].
  - destruct (Z.eqb_spec w v) as [->|Hne]; simpl.
    + apply Hi. now left.
    + destruct (contains_vertex g w).
      * apply Hi. right. now apply Hg.
      * destruct (contains_vertex (insert_vertex g v) w); [|reflexivity].
        destruct (proj1 Hi eq_refl) as [->|Hin]; [contradiction|].
        symmetry. now apply Hg.
  - destruct (Z.eqb_spec w v) as [->|Hne]; simpl.
    + destruct (contains_vertex (remove_vertex g v) v); [|reflexivity].
      destruct (proj1 Hr eq_refl) as [Hne _]. contradiction.
    + destruct (contains_vertex g w).
      * apply Hr. split; [exact Hne|now apply Hg].
      * destruct (contains_vertex (remove_vertex g v) w); [|reflexivity].
        destruct (proj1 Hr eq_refl) as [_ Hin]. symmetry. now apply Hg.
  - unfold vertex_count, contains_vertex. simpl.
    rewrite (vset_insert_length v _ (built_sorted g Hb)).
    now destruct (vset_find v (m_vertices g) =? length (m_vertices g))%nat.
Qed.

Lemma vertex_insert_remove_lookup_witness :
  let g := remove_vertex (insert_vertex (insert_vertex empty_graph 7) 3) 7 in
  contains_vertex (insert_vertex g 5) 3 = (3 =? 5) || contains_vertex g 3 /\
  contains_vertex (remove_vertex g 5) 3
  = negb (3 =? 5) && contains_vertex g 3 /\
  vertex_count (insert_vertex g 5)
  = (if contains_vertex g 5 then vertex_count g else S (vertex_count g)).
Proof.
  apply (vertex_insert_remove_lookup
           (remove_vertex (insert_vertex (insert_vertex empty_graph 7) 3) 7)
           5 3).
  apply built_remove, built_insert, built_insert, built_empty.
Defined.

End GraphBaseSpec.

(* ------------------------------------------------------------------ *)
(** * The sweep-line validator for any order of the event queue *)
(* ------------------------------------------------------------------ *)

Module SweepQueueSpec.
Import Sweep SweepSpec SweepQueue.

Section Queue.

Variable top : list Event -> option Event.
Variable pop : list Event -> list Event.

#[local] Abbreviation sweep := (SweepQueue.sweep top pop).
#[local] Abbreviation shamos_hoey := (SweepQueue.shamos_hoey top pop).


(** With a priority queue every iteration pops one event: the loop never
    stops for lack of fuel when it starts with one unit per event. *)
Lemma sweep_fuel_enough_any_order (segments : list Segment) (fuel : nat) :
  priority_queue top pop ->
  forall (fuel' : nat) (eq : list Event) (sl : SweepLine),
    (length eq <= fuel)%nat -> (length eq <= fuel')%nat ->
    sweep fuel segments eq sl = sweep fuel' segments eq sl.
Proof.
  intros [Hnone Htop].
  induction fuel as [|fuel IH]; intros fuel' eq sl Hf Hf'.
  - destruct eq; [|simpl in Hf; lia].
    assert (E : top [] = None) by now apply Hnone.
    destruct fuel'; simpl; now rewrite E.
  - destruct fuel' as [|fuel'].
    + destruct eq; [|simpl in Hf'; lia].
      assert (E : top [] = None) by now apply Hnone.
      simpl. now rewrite E.
    + simpl. destruct (top eq) as [e|] eqn:He; [|reflexivity].
      destruct (Htop _ _ He) as [Hperm _].
      apply Permutation_length in Hperm. simpl in Hperm.
      destruct (match type e with
                | LEFT => left_event segments sl e
                | RIGHT => right_event sl e
                end) as [[b|sl']|]; try reflexivity.
      apply IH; lia.
Qed.


End Queue.

(** The queue that hands out, of several events at the same point, the one
    pushed first is a priority queue. *)
Lemma eq_top_none (eq : list Event) : eq_top eq = None <-> eq = [].
Proof.
  split.
  - destruct eq as [|e eq]; [reflexivity|]. simpl.
    destruct (eq_top eq) as [m|]; [|discriminate].
    destruct (event_compare e m); discriminate.
  - intros ->. reflexivity.
Qed.

Lemma eq_top_priority_queue : priority_queue eq_top eq_pop.
Proof.
  split; [exact eq_top_none|].
  - intros eq e He. split.
    + unfold eq_pop. rewrite He.
      pose proof (eq_top_In _ _ He) as Hin. clear He.
      induction eq as [|a eq IH]; [destruct Hin|]. simpl.
      destruct (event_same a e) eqn:Hs.
      * assert (a = e) as ->; [|reflexivity].
        unfold event_same in Hs.
        apply andb_prop in Hs. destruct Hs as [Hs Ht].
        apply andb_prop in Hs. destruct Hs as [Hi Hp].
        apply Nat.eqb_eq in Hi. unfold point_eq in Hp.
        apply andb_prop in Hp. destruct Hp as [Hx Hy].
        apply Z.eqb_eq in Hx. apply Z.eqb_eq in Hy.
        destruct a as [ia [xa ya] ta], e as [ie [xe ye] te]. simpl in *.
        subst. destruct ta, te; try discriminate; reflexivity.
      * destruct Hin as [->|Hin]; [now rewrite event_same_refl in Hs|].
        rewrite (IH Hin) at 1. apply perm_swap.
    + revert e He. induction eq as [|a eq IH]; intros e He e' Hin.
      * destruct Hin.
      * simpl in He. destruct (eq_top eq) as [m|] eqn:Hm.
        -- assert (Hcmp : forall p q r : Point,
                     compare_gt p q = false -> compare_gt q r = false ->
                     compare_gt p r = false).
           { intros p q r. unfold compare_gt, compare_lt.
             rewrite !orb_false_iff, !andb_false_iff.
             rewrite !Z.ltb_ge, !Z.eqb_neq. lia. }
           destruct (event_compare a m) eqn:Ham.
           ++ injection He as <-. destruct Hin as [<-|Hin]; [|now apply IH].
              unfold event_compare, compare_gt, compare_lt in *.
              apply orb_false_iff. rewrite andb_false_iff, Z.ltb_ge, Z.ltb_ge, Z.eqb_neq.
              apply orb_prop in Ham. rewrite andb_true_iff, !Z.ltb_lt, Z.eqb_eq in Ham.
              lia.
           ++ injection He as <-. destruct Hin as [<-|Hin].
              ** unfold event_compare, compare_gt, compare_lt.
                 rewrite orb_false_iff, andb_false_iff, !Z.ltb_ge. lia.
              ** unfold event_compare in *.
                 apply (Hcmp _ (point m)); [exact Ham|].
                 now apply (IH m eq_refl).
        -- injection He as <-. apply eq_top_none in Hm. subst eq.
           destruct Hin as [<-|[]].
           unfold event_compare, compare_gt, compare_lt.
           rewrite orb_false_iff, andb_false_iff, !Z.ltb_ge. lia.
Qed.


End SweepQueueSpec.

(* ------------------------------------------------------------------ *)
(** * The label engine in binary64 arithmetic: the covering loops *)
(* ------------------------------------------------------------------ *)

Module Label64Spec.
Import PrimFloat Label64.

Open Scope float_scope.

Section Engine.

Variable distance_to_polygon : Point -> Polygon -> float.
Variable envelope : Polygon -> Rectangle.
Variable rect_center : Rectangle -> Point.
Variable SQRT_TWO : float.
Variable pop : list Cell -> option (Cell * list Cell).

#[local] Abbreviation tile_x := (Label64.tile_x distance_to_polygon SQRT_TWO).
#[local] Abbreviation tile_y := (Label64.tile_y distance_to_polygon SQRT_TWO).
#[local] Abbreviation initial_queue :=
  (Label64.initial_queue distance_to_polygon envelope SQRT_TWO).
#[local] Abbreviation polylabel :=
  (Label64.polylabel distance_to_polygon envelope rect_center SQRT_TWO pop).

(** When the sum [x0 + cell_size] is rounded to [x0], the outer loop is in
    the same column after every iteration: no number of iterations ends
    it. *)
Lemma tile_x_stalls (polygon : Polygon) (cell_size half_size : float)
  (x_max y_min y_max x0 : float) :
  (x0 <? x_max) = true -> x0 + cell_size = x0 ->
  forall (fuel fuel_y : nat) (queue : list Cell),
    tile_x fuel fuel_y polygon cell_size half_size x_max y_min y_max x0 queue
    = None.
Proof.
  intros Hlt Hsum. induction fuel as [|fuel IH]; intros fuel_y queue; simpl.
  - reflexivity.
  - rewrite Hlt.
    destruct (tile_y fuel_y polygon cell_size half_size y_max x0 y_min queue)
      as [queue'|]; [|reflexivity].
    rewrite Hsum. apply IH.
Qed.

(** [polylabel] does not return for a polygon whose cell size is not zero
    but is lost when it is added to the smallest x coordinate of the
    envelope. *)
Lemma polylabel_stalls (polygon : Polygon) (precision : float) :
  let cell_size := std_min (width (envelope polygon))
                           (height (envelope polygon)) in
  (cell_size =? 0) = false ->
  (x (rect_min (envelope polygon)) <? x (rect_max (envelope polygon))) = true ->
  x (rect_min (envelope polygon)) + cell_size = x (rect_min (envelope polygon)) ->
  forall fuel : nat, polylabel fuel polygon precision = None.
Proof.
  intros cell_size Hz Hlt Hsum fuel. unfold Label64.polylabel.
  fold cell_size. rewrite Hz.
  unfold Label64.initial_queue. fold cell_size.
  now rewrite (tile_x_stalls polygon cell_size (cell_size / 2) _ _ _ _ Hlt Hsum).
Qed.

End Engine.

(** C4 (the defect): the rectangle with the corners [(2^53, 0)] and
    [(2^53 + 2, 1)] has an envelope of width 2 and height 1, both
    positive, and the cell size 1; the sum [2^53 + 1] is rounded to
    [2^53], so the loop over the columns never leaves the first column.
    For every distance function, every queue, every precision and every
    number of iterations [polylabel] has not returned: the search loop is
    never reached. *)
Theorem polylabel_never_returns :
  width (ring_envelope far_box) = 2 /\
  height (ring_envelope far_box) = 1 /\
  (0 <? width (ring_envelope far_box)) = true /\
  (0 <? height (ring_envelope far_box)) = true /\
  x (rect_min (ring_envelope far_box)) + 1 = x (rect_min (ring_envelope far_box)) /\
  forall (distance_to_polygon : Point -> Polygon -> float)
         (rect_center : Rectangle -> Point) (SQRT_TWO : float)
         (pop : list Cell -> option (Cell * list Cell))
         (precision : float) (fuel : nat),
    polylabel distance_to_polygon ring_envelope rect_center SQRT_TWO pop
      fuel far_box precision = None.
Proof.
  repeat split.
  intros. apply polylabel_stalls; reflexivity.
Qed.

(** The same happens at coordinates of the size of a longitude: for the
    rectangle of width [2^-46] and height [2^-48] at [x = 64], the cell
    size [2^-48] is lost in the sum [64 + 2^-48]. *)
Example polylabel_sliver_never_returns :
  (0 <? width (ring_envelope sliver)) = true /\
  (0 <? height (ring_envelope sliver)) = true /\
  forall (distance_to_polygon : Point -> Polygon -> float)
         (rect_center : Rectangle -> Point) (SQRT_TWO : float)
         (pop : list Cell -> option (Cell * list Cell))
         (precision : float) (fuel : nat),
    polylabel distance_to_polygon ring_envelope rect_center SQRT_TWO pop
      fuel sliver precision = None.
Proof.
  repeat split.
  intros. apply polylabel_stalls; reflexivity.
Qed.

End Label64Spec.

(* ------------------------------------------------------------------ *)
(** * The label engine for any order of the cell queue *)
(* ------------------------------------------------------------------ *)

Module LabelQueueSpec.
Import Label LabelSpec LabelQueue.

Open Scope Q_scope.

Section Queue.

Variable distance_to_polygon : Point -> Polygon -> Q.
Variable envelope : Polygon -> Rectangle.
Variable rect_center : Rectangle -> Point.
Variable SQRT_TWO : Q.
Variable pop : list Cell -> option (Cell * list Cell).

Hypothesis pop_queue : priority_queue pop.

#[local] Abbreviation new_cell := (Label.new_cell distance_to_polygon SQRT_TWO).
#[local] Abbreviation subdivide := (Label.subdivide distance_to_polygon SQRT_TWO).
#[local] Abbreviation tile_y := (Label.tile_y distance_to_polygon SQRT_TWO).
#[local] Abbreviation tile_x := (Label.tile_x distance_to_polygon SQRT_TWO).
#[local] Abbreviation get_centroid :=
  (Label.get_centroid distance_to_polygon SQRT_TWO).
#[local] Abbreviation initial_queue :=
  (Label.initial_queue distance_to_polygon envelope SQRT_TWO).
#[local] Abbreviation initial_best :=
  (Label.initial_best distance_to_polygon envelope rect_center SQRT_TWO).
#[local] Abbreviation search :=
  (LabelQueue.search distance_to_polygon SQRT_TWO pop).
#[local] Abbreviation polylabel :=
  (LabelQueue.polylabel distance_to_polygon envelope rect_center SQRT_TWO pop).

(** ** The queue *)

Lemma pop_none (queue : list Cell) : pop queue = None -> queue = [].
Proof. apply pop_queue. Qed.

Lemma pop_perm (queue : list Cell) (c : Cell) (rest : list Cell) :
  pop queue = Some (c, rest) -> Permutation queue (c :: rest).
Proof. intros H. now apply pop_queue. Qed.

Lemma pop_top (queue : list Cell) (c : Cell) (rest : list Cell) :
  pop queue = Some (c, rest) -> forall c', In c' rest -> max c' <= max c.
Proof.
  intros H c' Hin. destruct pop_queue as [_ Hq].
  destruct (Hq _ _ _ H) as [Hperm Htop].
  apply Qltb_ge. apply Htop.
  apply (Permutation_in _ (Permutation_sym Hperm)). now right.
Qed.

(** ** The best cell *)

Lemma best_update_ge (best c : Cell) :
  distance c <= distance (if Qltb (distance best) (distance c) then c else best)
  /\ distance best
     <= distance (if Qltb (distance best) (distance c) then c else best).
Proof.
  destruct (Qltb (distance best) (distance c)) eqn:H.
  - apply Qltb_lt in H. split; lra.
  - apply Qltb_ge in H. split; lra.
Qed.

Lemma subdivide_incl (polygon : Polygon) (c c' : Cell) (queue : list Cell) :
  In c' queue -> In c' (subdivide polygon c queue).
Proof. intros H. unfold Label.subdivide, pq_push. simpl. auto. Qed.

(** Every cell that the search holds is scored against the polygon. *)
Lemma search_invariant (P : Cell -> Prop) (polygon : Polygon) (eps : Q) :
  (forall p h, P (new_cell p h polygon)) ->
  forall (fuel : nat) (queue : list Cell) (best r : Cell),
    Forall P queue -> P best ->
    search fuel polygon eps queue best = Some r -> P r.
Proof.
  intros Hnew. induction fuel as [|fuel IH]; intros queue best r Hq Hb; simpl.
  - destruct (pop queue) as [[c rest]|]; [discriminate|].
    now intros [= <-].
  - destruct (pop queue) as [[c rest]|] eqn:Hx; [|now intros [= <-]].
    assert (Hcr : Forall P (c :: rest)).
    { eapply Permutation_Forall; [apply (pop_perm _ _ _ Hx)|exact Hq]. }
    inversion Hcr as [|? ? Hc Hrest]; subst.
    set (best' := if Qltb (distance best) (distance c) then c else best).
    assert (Hb' : P best') by (unfold best'; destruct (Qltb _ _); assumption).
    destruct (Qle_bool _ _).
    + now apply IH.
    + apply IH; [|exact Hb']. apply subdivide_invariant; auto.
Qed.

(** The result is at least as far from the boundary as the first guess and
    as every cell of the queue. *)
Lemma search_covers (polygon : Polygon) (eps : Q) (fuel : nat) :
  forall (queue : list Cell) (best r : Cell),
    search fuel polygon eps queue best = Some r ->
    distance best <= distance r /\
    forall c, In c queue -> distance c <= distance r.
Proof.
  induction fuel as [|fuel IH]; intros queue best r; simpl.
  - destruct (pop queue) as [[c rest]|] eqn:Hx; [discriminate|].
    intros [= <-]. apply pop_none in Hx. subst.
    split; [lra|intros c []].
  - destruct (pop queue) as [[c rest]|] eqn:Hx.
    + pose proof (pop_perm _ _ _ Hx) as Hperm.
      destruct (best_update_ge best c) as [Hc Hb].
      set (best' := if Qltb (distance best) (distance c) then c else best) in *.
      intros H.
      assert (Hr : distance best' <= distance r /\
                   forall c', In c' rest -> distance c' <= distance r).
      { destruct (Qle_bool _ _); apply IH in H; destruct H as [H1 H2].
        - auto.
        - split; [exact H1|]. intros c' Hc'. apply H2.
          now apply subdivide_incl. }
      destruct Hr as [H1 H2]. split; [lra|].
      intros c' Hc'. apply (Permutation_in _ Hperm) in Hc'.
      destruct Hc' as [<-|Hc']; [lra|auto].
    + intros [= <-]. apply pop_none in Hx. subst.
      split; [lra|intros c []].
Qed.

(** When no cell of the queue can be subdivided, the result is the first
    guess or a cell of the queue. *)
Lemma search_drain (polygon : Polygon) (eps : Q) (fuel : nat) :
  forall (queue : list Cell) (best r : Cell),
    (forall c, In c queue -> max c - distance best <= eps) ->
    search fuel polygon eps queue best = Some r ->
    r = best \/ In r queue.
Proof.
  induction fuel as [|fuel IH]; intros queue best r Hall; simpl.
  - destruct (pop queue) as [[c rest]|]; [discriminate|].
    intros [= <-]. now left.
  - destruct (pop queue) as [[c rest]|] eqn:Hx; [|intros [= <-]; now left].
    pose proof (pop_perm _ _ _ Hx) as Hperm.
    destruct (best_update_ge best c) as [Hc Hb].
    assert (Hbest' : (if Qltb (distance best) (distance c) then c else best) = c
                     \/ (if Qltb (distance best) (distance c) then c else best)
                        = best)
      by (destruct (Qltb _ _); auto).
    set (best' := if Qltb (distance best) (distance c) then c else best) in *.
    assert (Hin : forall c', In c' (c :: rest) -> In c' queue).
    { intros c'. apply Permutation_in. now symmetry. }
    assert (Hp : Qle_bool (max c - distance best') eps = true).
    { apply Qle_bool_iff. specialize (Hall c (Hin c (or_introl eq_refl))). lra. }
    rewrite Hp. intros H. apply IH in H.
    + destruct H as [->|H].
      * destruct Hbest' as [-> | ->]; [right; apply Hin; now left|now left].
      * right. apply Hin. now right.
    + intros c' Hc'. specialize (Hall c' (Hin c' (or_intror Hc'))). lra.
Qed.

(** A smaller tolerance never gives a smaller distance: the two runs take
    the same steps until the run with the larger tolerance prunes a cell
    for the first time; from then on it only drains its queue, and the
    other run pops every cell of this queue as well. *)
Lemma search_monotone (polygon : Polygon) (eps1 eps2 : Q) (fuel1 : nat) :
  eps2 <= eps1 ->
  forall (fuel2 : nat) (queue : list Cell) (best r1 r2 : Cell),
    search fuel1 polygon eps1 queue best = Some r1 ->
    search fuel2 polygon eps2 queue best = Some r2 ->
    distance r1 <= distance r2.
Proof.
  intros Heps. induction fuel1 as [|fuel1 IH]; intros fuel2 queue best r1 r2.
  - simpl. destruct (pop queue) as [[c rest]|] eqn:Hx; [discriminate|].
    intros [= <-]. destruct fuel2; simpl; rewrite Hx; intros [= <-]; lra.
  - simpl. destruct (pop queue) as [[c rest]|] eqn:Hx.
    + destruct fuel2 as [|fuel2]; simpl; rewrite Hx; [discriminate|].
      destruct (best_update_ge best c) as [Hc Hb].
      set (best' := if Qltb (distance best) (distance c) then c else best) in *.
      destruct (Qle_bool (max c - distance best') eps1) eqn:Hp1.
      * apply Qle_bool_iff in Hp1.
        intros H1 H2. apply search_drain in H1.
        -- assert (Hr2 : distance best' <= distance r2 /\
                         forall c', In c' rest -> distance c' <= distance r2).
           { destruct (Qle_bool _ eps2); apply search_covers in H2;
               destruct H2 as [Ha Hb2]; split; auto.
             intros c' Hc'. apply Hb2. now apply subdivide_incl. }
           destruct Hr2 as [Ha Hb2].
           destruct H1 as [->|H1]; [exact Ha|auto].
        -- intros c' Hc'. pose proof (pop_top _ _ _ Hx c' Hc'). lra.
      * assert (Hp2 : Qle_bool (max c - distance best') eps2 = false).
        { apply not_true_iff_false. apply not_true_iff_false in Hp1.
          intros H. apply Hp1. apply Qle_bool_iff in H. apply Qle_bool_iff. lra. }
        rewrite Hp2. apply IH.
    + intros [= <-]. destruct fuel2; simpl; rewrite Hx; intros [= <-]; lra.
Qed.

(** ** [polylabel] *)

(** More fuel does not change the queue that the covering loops build. *)
Lemma tile_y_fuel_mono (polygon : Polygon) (cs hs y_max x0 : Q) (fuel : nat) :
  forall (fuel' : nat) (y0 : Q) (queue r : list Cell),
    (fuel <= fuel')%nat ->
    tile_y fuel polygon cs hs y_max x0 y0 queue = Some r ->
    tile_y fuel' polygon cs hs y_max x0 y0 queue = Some r.
Proof.
  induction fuel as [|fuel IH]; intros fuel' y0 queue r Hle; simpl;
    [discriminate|].
  destruct fuel' as [|fuel']; [lia|]. simpl.
  destruct (Qltb y0 y_max); [|auto]. apply IH. lia.
Qed.

Lemma tile_x_fuel_mono (polygon : Polygon) (cs hs x_max y_min y_max : Q)
  (fuel fuel_y : nat) :
  forall (fuel' fuel_y' : nat) (x0 : Q) (queue r : list Cell),
    (fuel <= fuel')%nat -> (fuel_y <= fuel_y')%nat ->
    tile_x fuel fuel_y polygon cs hs x_max y_min y_max x0 queue = Some r ->
    tile_x fuel' fuel_y' polygon cs hs x_max y_min y_max x0 queue = Some r.
Proof.
  induction fuel as [|fuel IH]; intros fuel' fuel_y' x0 queue r Hle Hley; simpl;
    [discriminate|].
  destruct fuel' as [|fuel']; [lia|]. simpl.
  destruct (Qltb x0 x_max); [|auto].
  destruct (Label.tile_y _ _ fuel_y _ _ _ _ _ _ _) as [q1|] eqn:Hy; [|discriminate].
  rewrite (tile_y_fuel_mono _ _ _ _ _ _ _ _ _ _ Hley Hy).
  apply IH; lia.
Qed.


Lemma initial_queue_scored (polygon : Polygon) (fuel : nat)
  (queue : list Cell) :
  initial_queue fuel polygon = Some queue ->
  Forall (fun c => distance c = distance_to_polygon (center c) polygon) queue.
Proof.
  unfold Label.initial_queue. intros H.
  eapply tile_x_invariant; [|constructor|exact H].
  intros p. reflexivity.
Qed.

Lemma initial_best_seeds (polygon : Polygon) (best0 : Cell) :
  initial_best polygon = Some best0 ->
  distance best0 = distance_to_polygon (center best0) polygon /\
  distance_to_polygon (rect_center (envelope polygon)) polygon
  <= distance best0 /\
  exists c0, get_centroid polygon = Some c0 /\ distance c0 <= distance best0.
Proof.
  unfold Label.initial_best.
  destruct (get_centroid polygon) as [c0|] eqn:Hc; [|discriminate].
  assert (Hc0 : distance c0 = distance_to_polygon (center c0) polygon).
  { unfold Label.get_centroid in Hc.
    destruct (outer polygon) as [|p0 rest]; [discriminate|].
    destruct (centroid_loop _ _ _ _) as [c area].
    destruct (Qltb 0 area); injection Hc as <-; reflexivity. }
  destruct (Qltb _ _) eqn:Hlt; intros [= <-].
  - apply Qltb_lt in Hlt. simpl in *. repeat split; try lra.
    exists c0. split; [reflexivity|]. lra.
  - apply Qltb_ge in Hlt. simpl in *. repeat split; try lra; auto.
    exists c0. split; [reflexivity|]. lra.
Qed.

Lemma polylabel_monotone_runs (polygon : Polygon) (eps1 eps2 : Q)
  (fuel1 fuel2 : nat) (r1 r2 : Point * Q) :
  eps2 <= eps1 ->
  polylabel fuel1 polygon eps1 = Some r1 ->
  polylabel fuel2 polygon eps2 = Some r2 ->
  snd r1 <= snd r2.
Proof.
  intros Heps. unfold LabelQueue.polylabel.
  destruct (Qeq_bool _ 0).
  - intros [= <-] [= <-]. simpl. lra.
  - destruct (initial_queue fuel1 polygon) as [q1|] eqn:Hq1; [|discriminate].
    destruct (initial_queue fuel2 polygon) as [q2|] eqn:Hq2;
      [|destruct (initial_best polygon); discriminate].
    assert (q1 = q2) as <-.
    { unfold Label.initial_queue in Hq1, Hq2.
      destruct (Nat.le_ge_cases fuel1 fuel2) as [Hle|Hle].
      - pose proof (tile_x_fuel_mono _ _ _ _ _ _ _ _ _ _ _ _ _ Hle Hle Hq1) as E.
        congruence.
      - pose proof (tile_x_fuel_mono _ _ _ _ _ _ _ _ _ _ _ _ _ Hle Hle Hq2) as E.
        congruence. }
    destruct (initial_best polygon) as [best0|]; [|discriminate].
    destruct (search fuel1 polygon eps1 q1 best0) as [b1|] eqn:H1;
      [|discriminate].
    destruct (search fuel2 polygon eps2 q1 best0) as [b2|] eqn:H2;
      [|discriminate].
    intros [= <-] [= <-]. simpl.
    exact (search_monotone polygon eps1 eps2 fuel1 Heps fuel2 q1 best0 b1 b2
             H1 H2).
Qed.

(** C5: for tolerances [eps1 >= eps2] the distance that [polylabel]
    returns for [eps2] is at least the distance that it returns for
    [eps1], in whichever order the queue hands out cells of the same
    [max].  This holds of the search loop for every queue of cells and
    every first guess that it starts with, whatever the covering loops and
    [get_centroid] have computed, and so of [polylabel]. *)
Theorem polylabel_monotone_any_order (polygon : Polygon) (eps1 eps2 : Q) :
  eps2 <= eps1 ->
  (forall (fuel1 fuel2 : nat) (queue : list Cell) (best r1 r2 : Cell),
      search fuel1 polygon eps1 queue best = Some r1 ->
      search fuel2 polygon eps2 queue best = Some r2 ->
      distance r1 <= distance r2) /\
  (forall (fuel1 fuel2 : nat) (r1 r2 : Point * Q),
      polylabel fuel1 polygon eps1 = Some r1 ->
      polylabel fuel2 polygon eps2 = Some r2 ->
      snd r1 <= snd r2).
Proof.
  intros Heps. split.
  - intros fuel1 fuel2 queue best r1 r2.
    now apply search_monotone.
  - intros fuel1 fuel2 r1 r2. now apply polylabel_monotone_runs.
Qed.

(** X22: when [polylabel] returns from the search, the distance it
    returns is the distance of the point it returns, and it is at least
    the distance of the first guess, the cell that [get_centroid] returns,
    and of the second guess, the centre of the envelope.  Of the search
    loop this holds for every queue and every first guess: the result is
    at least as far inside the polygon as the first guess and as every
    cell of the queue. *)
Theorem polylabel_scored_and_seeded (polygon : Polygon) (precision : Q) :
  (forall (fuel : nat) (queue : list Cell) (best r : Cell),
      search fuel polygon precision queue best = Some r ->
      distance best <= distance r /\
      forall c, In c queue -> distance c <= distance r) /\
  (forall (fuel : nat) (r : Point * Q),
      Qeq_bool (Qmin (width (envelope polygon)) (height (envelope polygon))) 0
      = false ->
      polylabel fuel polygon precision = Some r ->
      snd r = distance_to_polygon (fst r) polygon /\
      distance_to_polygon (rect_center (envelope polygon)) polygon <= snd r /\
      exists c0, get_centroid polygon = Some c0 /\ distance c0 <= snd r).
Proof.
  split; [intros fuel queue best r; apply search_covers|].
  intros fuel r Hz. unfold LabelQueue.polylabel. rewrite Hz.
  destruct (initial_queue fuel polygon) as [q|] eqn:Hq; [|discriminate].
  destruct (initial_best polygon) as [best0|] eqn:Hb; [|discriminate].
  destruct (search fuel polygon precision q best0) as [b|] eqn:Hs;
    [|discriminate].
  intros [= <-]. simpl.
  destruct (initial_best_seeds polygon best0 Hb) as (Hsc & Hcenter & c0 & Hc0 & Hle).
  destruct (search_covers polygon precision fuel q best0 b Hs) as [Hge _].
  split.
  - eapply (search_invariant
              (fun c => distance c = distance_to_polygon (center c) polygon)
              polygon precision);
      [intros p h; reflexivity| |exact Hsc|exact Hs].
    eapply initial_queue_scored; exact Hq.
  - split; [lra|]. exists c0. split; [exact Hc0|lra].
Qed.

End Queue.

(** ** The claims at the instance for axis-aligned boxes *)

Import LabelBox.

(** The queue that hands out, of several cells of the same [max], the one
    pushed last is a priority queue. *)
Lemma pq_extract_priority_queue : priority_queue pq_extract.
Proof.
  split.
  - intros queue. split; [apply pq_extract_none|]. now intros ->.
  - intros queue c rest H. split; [now apply pq_extract_perm|].
    intros c' Hin. apply Qltb_ge.
    apply (Permutation_in _ (pq_extract_perm _ _ _ H)) in Hin.
    destruct Hin as [<-|Hin]; [lra|].
    now apply (pq_extract_top _ _ _ H).
Qed.

Lemma polylabel_monotone_any_order_witness :
  snd (pt (8 # 2) (2 # 2), 2 # 2) <= snd (pt (8 # 2) (2 # 2), 2 # 2).
Proof.
  assert (Heps : (1 # 10) <= 1) by (unfold Qle; simpl; lia).
  apply (proj2 (polylabel_monotone_any_order box_distance box_envelope
                  box_center sqrt_two pq_extract pq_extract_priority_queue
                  slab 1 (1 # 10) Heps) 100%nat 1000%nat).
  - vm_compute. reflexivity.
  - vm_compute. reflexivity.
Defined.

Lemma polylabel_scored_and_seeded_witness :
  snd (pt (8 # 2) (2 # 2), 2 # 2)
  = box_distance (fst (pt (8 # 2) (2 # 2), 2 # 2)) slab /\
  box_distance (box_center (box_envelope slab)) slab
  <= snd (pt (8 # 2) (2 # 2), 2 # 2) /\
  exists c0, Label.get_centroid box_distance sqrt_two slab = Some c0 /\
        distance c0 <= snd (pt (8 # 2) (2 # 2), 2 # 2).
Proof.
  apply (proj2 (polylabel_scored_and_seeded box_distance box_envelope
                  box_center sqrt_two pq_extract pq_extract_priority_queue
                  slab (1 # 2)) 40%nat).
  - reflexivity.
  - vm_compute. reflexivity.
Defined.

End LabelQueueSpec.
